(** * gfunc2d.mksynth: synthetic stellar samples and their mock observations

    A shallow embedding of [generate_synth_stars] and [make_synth_obs]
    (src/gfunc2d/mksynth.py) and the properties of the specification that
    concern them, followed by the functions of src/gfunc2d/gstats.py and
    further properties of both files.

    Numbers.  The program computes with IEEE doubles.  The embedding uses
    exact rationals ([Q]) in their place, every operation standing where
    the program has it.  The statements are about the values the program's
    own expressions denote and about their order; they do not rest on
    identities that hold for rationals and fail for doubles, such as
    [a + (b - a) = b].  Where the wording of the specification does rest
    on exact arithmetic, the lines concerned are given on binary64 numbers
    as well (the primitive floats of the kernel, which round as the
    program's doubles do) and evaluated there.  The transcendental
    functions the program calls ([10**x], [x**y], [np.exp], [np.log10]),
    the random number generator of numpy and the isochrone grid of
    [gfunc2d.gridtools] are not part of the two functions; they are the
    fields of an environment [Env] over which the whole development is
    parametric.

    Effects.  numpy's generator is one process-wide state.  It is threaded
    explicitly: a computation is a function from the generator state to an
    outcome (a value or a raised exception) and the next state. *)

From Stdlib Require Import String ZArith QArith Qround Qabs Qpower Bool Lia Lqa Arith
  List Permutation Sorted Floats.
Import ListNotations.

#[local] Set Warnings "-inexact-float".

Local Open Scope string_scope.
Local Open Scope Q_scope.

(** ** Rational comparisons as the program's [<] and [<=] *)

Definition Qlt_bool (x y : Q) : bool := negb (Qle_bool y x).

(** [int(x)]: truncation towards zero. *)
Definition py_int (x : Q) : Z := Z.quot (Qnum x) (Zpos (Qden x)).

(** ** Exceptions and outcomes *)

Inductive exn : Type :=
| IndexError | ValueError | KeyError | ZeroDivisionError | GridError.

Inductive result (A : Type) : Type :=
| Ok (a : A)
| Raise (e : exn).
Arguments Ok {A} a.
Arguments Raise {A} e.

Definition rbind {A B} (r : result A) (k : A -> result B) : result B :=
  match r with
  | Ok a => k a
  | Raise e => Raise e
  end.

Definition of_option {A} (e : exn) (o : option A) : result A :=
  match o with
  | Some a => Ok a
  | None => Raise e
  end.

Declare Scope res_scope.
Delimit Scope res_scope with res.
Notation "x <- r ;; k" := (rbind r (fun x => k))
  (at level 61, r at next level, right associativity) : res_scope.
Notation "' p <- r ;; k" := (rbind r (fun x => match x with p => k end))
  (at level 61, p pattern, r at next level, right associativity) : res_scope.

(** ** Python dictionaries: insertion-ordered, one entry per key *)

Definition dict (V : Type) : Type := list (string * V).

Fixpoint dget {V} (d : dict V) (k : string) : option V :=
  match d with
  | [] => None
  | (k', v) :: d' => if String.eqb k k' then Some v else dget d' k
  end.

Fixpoint dset {V} (d : dict V) (k : string) (v : V) : dict V :=
  match d with
  | [] => [(k, v)]
  | (k', v') :: d' =>
      if String.eqb k k' then (k', v) :: d' else (k', v') :: dset d' k v
  end.

Definition keys {V} (d : dict V) : list string := map fst d.

Definition mem (k : string) (l : list string) : bool :=
  existsb (String.eqb k) l.

(** [d[k]], raising [KeyError] on a missing key. *)
Definition dict_item {V} (d : dict V) (k : string) : result V :=
  of_option KeyError (dget d k).

(** ** The numpy operations the two functions use *)

(** [x[i]] on a 1-D array, for a non-negative [i]. *)
Definition item {A} (l : list A) (i : nat) : result A :=
  of_option IndexError (nth_error l i).

(** [x[i] = v] on a 1-D array, for a non-negative [i]. *)
Fixpoint set_item {A} (l : list A) (i : nat) (v : A) : result (list A) :=
  match l, i with
  | [], _ => Raise IndexError
  | _ :: l', O => Ok (v :: l')
  | x :: l', S i' => rbind (set_item l' i' v) (fun r => Ok (x :: r))
  end.

(** [x[-1]]. *)
Definition last_item {A} (l : list A) : result A :=
  of_option IndexError (nth_error l (length l - 1)).

(** [np.zeros(n)]. *)
Definition zeros (n : nat) : list Q := repeat 0 n.

(** [np.diff(x)]: [x[i+1] - x[i]]. *)
Fixpoint diff (x : list Q) : list Q :=
  match x with
  | a :: ((b :: _) as t) => (b - a) :: diff t
  | _ => []
  end.

(** [np.argsort(x)]: the indices of [x] in ascending order of value.  numpy
    leaves the relative order of equal values to the sorting algorithm;
    here equal values keep their index order. *)
Fixpoint insert_by (x : Q * nat) (l : list (Q * nat)) : list (Q * nat) :=
  match l with
  | [] => [x]
  | y :: l' => if Qle_bool (fst x) (fst y) then x :: l else y :: insert_by x l'
  end.

Fixpoint sort_by (l : list (Q * nat)) : list (Q * nat) :=
  match l with
  | [] => []
  | x :: l' => insert_by x (sort_by l')
  end.

Definition argsort (x : list Q) : list nat :=
  map snd (sort_by (combine x (seq 0 (length x)))).

(** Sorting of indices, as [np.median] does before taking the middle. *)
Fixpoint insert_nat (x : nat) (l : list nat) : list nat :=
  match l with
  | [] => [x]
  | y :: l' => if (x <=? y)%nat then x :: l else y :: insert_nat x l'
  end.

Fixpoint sort_nat (l : list nat) : list nat :=
  match l with
  | [] => []
  | x :: l' => insert_nat x (sort_nat l')
  end.

(** [np.median(l)] of an array of indices: the middle element of the sorted
    array, the mean of the two middle ones for an even length, and [nan]
    ([None]) for the empty array. *)
Definition median (l : list nat) : option Q :=
  let s := sort_nat l in
  let n := length s in
  match n with
  | O => None
  | _ =>
      if Nat.odd n then
        Some (inject_Z (Z.of_nat (nth (n / 2) s O)))
      else
        Some ((inject_Z (Z.of_nat (nth (n / 2 - 1) s O))
               + inject_Z (Z.of_nat (nth (n / 2) s O))) / 2)
  end.

(** [int(np.median(l))]; [int(nan)] raises [ValueError]. *)
Definition int_median (l : list nat) : result nat :=
  match median l with
  | None => Raise ValueError
  | Some x => Ok (Z.to_nat (py_int x))
  end.

(** [np.argmin(x)]: the first index of the least value; [ValueError] on an
    empty array. *)
Fixpoint argmin_from (best : Q) (besti : nat) (i : nat) (x : list Q) : nat :=
  match x with
  | [] => besti
  | a :: x' =>
      if Qlt_bool a best then argmin_from a i (S i) x'
      else argmin_from best besti (S i) x'
  end.

Definition argmin (x : list Q) : result nat :=
  match x with
  | [] => Raise ValueError
  | a :: x' => Ok (argmin_from a O 1%nat x')
  end.

(** [np.where(cond)[0]]: the indices at which the condition holds. *)
Fixpoint where_from (i : nat) (p : Q -> bool) (x : list Q) : list nat :=
  match x with
  | [] => []
  | a :: x' => if p a then i :: where_from (S i) p x' else where_from (S i) p x'
  end.

Definition where_ (p : Q -> bool) (x : list Q) : list nat := where_from O p x.

Definition sum (x : list Q) : Q := fold_right Qplus 0 x.

(** Arrays of any dimension ([t_bursts] is one): a shape and the elements in
    row-major order. *)
Record ndarray : Type := { shape : list nat; flat : list Q }.

Definition ndim (t : ndarray) : nat := length (shape t).

Definition array1 (x : list Q) : ndarray :=
  {| shape := [length x]; flat := x |}.

(** [t[:, j]]: [IndexError] when [t] has fewer than two axes or [j] is out of
    bounds for the second one; otherwise the array of shape
    [(n0, n2, ...)] holding the [j]-th entry of every row. *)
Definition column (t : ndarray) (j : nat) : result ndarray :=
  match shape t with
  | n0 :: n1 :: rest =>
      if (j <? n1)%nat then
        let inner := fold_right Nat.mul 1%nat rest in
        Ok {| shape := n0 :: rest;
              flat := flat_map
                        (fun i => firstn inner (skipn ((i * n1 + j) * inner) (flat t)))
                        (seq 0 n0) |}
      else Raise IndexError
  | _ => Raise IndexError
  end.

(** [t[i, j]] on a 2-D array.  The program evaluates it only after
    [np.random.choice] has accepted the weights taken from [t[:, 2]], which
    it does for a 2-D [t] only; for any other array this function is not
    reached and answers [IndexError]. *)
Definition item2 (t : ndarray) (i j : nat) : result Q :=
  match shape t with
  | [n0; n1] =>
      if ((i <? n0) && (j <? n1))%nat%bool then item (flat t) (i * n1 + j)
      else Raise IndexError
  | _ => Raise IndexError
  end.

(** [len(t)]: the extent of the first axis ([TypeError], here [ValueError],
    for a 0-D array). *)
Definition len (t : ndarray) : result nat :=
  match shape t with
  | n0 :: _ => Ok n0
  | [] => Raise ValueError
  end.

(** [t / c], elementwise. *)
Definition scale_down (t : ndarray) (c : Q) : ndarray :=
  {| shape := shape t; flat := map (fun x => x / c) (flat t) |}.

(** ** Computations on the generator state *)

Definition M (S A : Type) : Type := S -> result A * S.

Definition ret {S A} (a : A) : M S A := fun g => (Ok a, g).

Definition bind {S A B} (m : M S A) (k : A -> M S B) : M S B :=
  fun g =>
    match m g with
    | (Ok a, g') => k a g'
    | (Raise e, g') => (Raise e, g')
    end.

Definition lift {S A} (r : result A) : M S A := fun g => (r, g).

Declare Scope rng_scope.
Delimit Scope rng_scope with rng.
Notation "x <- m ;; k" := (bind m (fun x => k))
  (at level 61, m at next level, right associativity) : rng_scope.
Notation "' p <- m ;; k" := (bind m (fun x => match x with p => k end))
  (at level 61, p pattern, m at next level, right associativity) : rng_scope.

(** ** The environment: numpy's generator, the float functions, the grid *)

Record Env : Type := {
  (** the state of [np.random] *)
  rng : Type;
  (** [np.random.seed(s)] *)
  seed : Z -> rng;
  (** [np.random.rand()] *)
  rand : rng -> Q * rng;
  (** one standard normal deviate, from which [np.random.normal] is built *)
  gauss : rng -> Q * rng;
  (** the index [np.random.choice] draws for the weights [p] *)
  pick : list Q -> rng -> nat * rng;
  (** [10**x], [x**y], [np.exp(x)], [np.log10(x)] *)
  pow10 : Q -> Q;
  powr : Q -> Q -> Q;
  exp : Q -> Q;
  log10 : Q -> Q;
  (** an open isochrone grid file *)
  grid : Type;
  (** [get_gridparams(gridfile)[0]] *)
  get_gridparams : grid -> list string;
  (** [get_isochrone(gridfile, afe, feh, age)]: the track, a dictionary from
      parameter name to the array of its values along the track, and the
      triple of grid values used *)
  get_isochrone : grid -> Q -> Q -> Q -> result (dict (list Q) * (Q * Q * Q))
}.

Section Numpy_random.
Context (E : Env).
Local Open Scope rng_scope.

Definition np_rand : M (rng E) Q :=
  fun g => let (u, g') := rand E g in (Ok u, g').

(** [np.random.normal(loc, scale)]: [loc + scale * z] for a standard normal
    deviate [z]; a negative [scale] raises [ValueError]. *)
Definition np_normal (loc scale : Q) : M (rng E) Q :=
  fun g =>
    if Qlt_bool scale 0 then (Raise ValueError, g)
    else let (z, g') := gauss E g in (Ok (loc + scale * z), g').

(** The checks [np.random.choice(a, p=p)] makes on [a] of size [n] and the
    weights [p] before it draws.  The weights must sum to 1 within the
    tolerance [sqrt(eps)] of numpy, which is [2**-26] for doubles. *)
Definition choice_check (n : nat) (p : ndarray) : result unit :=
  if (n =? 0)%nat then Raise ValueError
  else if negb (ndim p =? 1)%nat then Raise ValueError
  else if negb (length (flat p) =? n)%nat then Raise ValueError
  else if existsb (fun x => Qlt_bool x 0) (flat p) then Raise ValueError
  else if Qlt_bool (1 # 67108864) (Qabs (sum (flat p) - 1)) then Raise ValueError
  else Ok tt.

(** [np.random.choice(range(n), p=p)]. *)
Definition np_choice (n : nat) (p : ndarray) : M (rng E) nat :=
  _ <- lift (choice_check n p) ;;
  fun g => let (i, g') := pick E (flat p) g in (Ok i, g').

(** [k] draws in a row, as the [size] argument of numpy's samplers asks. *)
Fixpoint draws {A} (k : nat) (m : M (rng E) A) : M (rng E) (list A) :=
  match k with
  | O => ret []
  | S k' => x <- m ;; xs <- draws k' m ;; ret (x :: xs)
  end.
End Numpy_random.

(** ** [generate_synth_stars] *)

(** The bursts as the program prepares them before the loop: one burst, or
    the normalised weights [prob] and their number [n_bursts]. *)
Inductive bursts : Type :=
| Single_burst
| Multi_burst (prob : ndarray) (n_bursts : nat).

(** The variables of the sampling loop: [iv], [ne], [phase_i] and the
    dictionary [data] of the arrays being filled. *)
Record sampler : Type := {
  iv : nat;
  ne : nat;
  phase_i : Q;
  data : dict (list Q)
}.

(** What one pass of the loop has drawn when it reaches the test on the
    mass: the track [q], the grid triple [afa], [split_ind], [m_min], the
    phase, the uniform deviate of the mass draw and the mass [m]. *)
Record candidate : Type := {
  c_q : dict (list Q);
  c_afa : Q * Q * Q;
  c_split : nat;
  c_mmin : Q;
  c_phase : Q;
  c_u : Q;
  c_m : Q
}.

(** What [generate_synth_stars] writes and prints. *)
Record synth : Type := {
  cfg_ns : nat;
  cfg_alpha : Q;
  cfg_bursts : ndarray;
  cfg_feh : Q * Q;
  cfg_seed : Z;
  s_data : dict (list Q);
  n_valid : nat;
  n_discarded : nat
}.

Definition Qnat (n : nat) : Q := inject_Z (Z.of_nat n).

(** Python's [a / b] on floats. *)
Definition py_div (a b : Q) : result Q :=
  if Qeq_bool b 0 then Raise ZeroDivisionError else Ok (a / b).

Section Generate.
Context (E : Env).
Variables (isogrid : grid E) (t_bursts : ndarray) (ns : nat)
          (feh_mean feh_disp : Q) (IMF_alpha : Q) (rand_seed : Z)
          (extra_giants : Q).
Local Open Scope rng_scope.

(** Lines 58 and 69-72. *)
Definition burst_setup : result bursts :=
  if (ndim t_bursts =? 1)%nat then Ok Single_burst
  else
    (prob <- column t_bursts 2 ;;
     let prob := scale_down prob (sum (flat prob)) in
     n_bursts <- len prob ;;
     Ok (Multi_burst prob n_bursts))%res.

(** Lines 81-82: one array of [ns] zeros per parameter, and for the age
    and the phase. *)
Definition init_data (params : list string) : dict (list Q) :=
  fold_left (fun d p => dset d p (zeros ns)) (params ++ ["age"; "phase"]) [].

(** Lines 90-95. *)
Definition draw_age (b : bursts) : M (rng E) Q :=
  match b with
  | Single_burst =>
      t0 <- lift (item (flat t_bursts) 0) ;;
      t1 <- lift (item (flat t_bursts) 1) ;;
      u <- np_rand E ;;
      ret (t0 + (t1 - t0) * u)
  | Multi_burst prob n_bursts =>
      i_burst <- np_choice E n_bursts prob ;;
      t0 <- lift (item2 t_bursts i_burst 0) ;;
      t1 <- lift (item2 t_bursts i_burst 1) ;;
      u <- np_rand E ;;
      ret (t0 + (t1 - t0) * u)
  end.

(** Lines 101-104. *)
Definition split_index (logT : list Q) : result nat :=
  let low_inds := firstn 5 (argsort (diff (map (pow10 E) logT))) in
  int_median low_inds.

(** The test of line 108. *)
Definition ordinary_draw (iv : nat) : bool :=
  Qlt_bool (Qnat iv) (Qnat ns * (1 - extra_giants)).

(** Lines 108-116: the least mass and the phase of the draw. *)
Definition min_mass (q : dict (list Q)) (feh_test : Q) (split_ind iv : nat)
  : result (Q * Q) :=
  (if ordinary_draw iv then
     let Teffmin_dwarf := 4500 - 500 * feh_test in
     logT <- dict_item q "logT" ;;
     idx_dwarf <- argmin (map (fun t => Qabs (pow10 E t - Teffmin_dwarf))
                              (firstn split_ind logT)) ;;
     mini <- dict_item q "Mini" ;;
     m_min <- item mini idx_dwarf ;;
     Ok (m_min, 0)
   else
     mini <- dict_item q "Mini" ;;
     m_min <- item mini split_ind ;;
     Ok (m_min, 1))%res.

(** Lines 89-118: everything one pass draws before the test on the mass. *)
Definition draw_candidate (b : bursts) (iv : nat) : M (rng E) candidate :=
  age <- draw_age b ;;
  feh_test <- np_normal E feh_mean feh_disp ;;
  '(q, afa) <- lift (get_isochrone E isogrid 0 feh_test age) ;;
  logT <- lift (dict_item q "logT") ;;
  split_ind <- lift (split_index logT) ;;
  '(m_min, ph) <- lift (min_mass q feh_test split_ind iv) ;;
  u <- np_rand E ;;
  e <- lift (py_div (-1) (IMF_alpha - 1)) ;;
  ret {| c_q := q; c_afa := afa; c_split := split_ind; c_mmin := m_min;
         c_phase := ph; c_u := u; c_m := m_min * powr E u e |}.

(** Line 126: the last track point whose mass is at most [m]. *)
Definition index_below (q_mass : list Q) (m : Q) : result nat :=
  last_item (where_ (fun x => Qle_bool x m) q_mass).

(** Line 127: the first track point whose mass exceeds [m]. *)
Definition index_above (q_mass : list Q) (m : Q) : result nat :=
  item (where_ (fun x => Qlt_bool m x) q_mass) 0.

(** Line 129. *)
Definition weight (q_mass : list Q) (im ip : nat) (m : Q) : result Q :=
  (mim <- item q_mass im ;;
   mip <- item q_mass ip ;;
   Ok ((m - mim) / (mip - mim)))%res.

(** The right-hand side of line 132:
    [(1-h)*q[param][im] + h*q[param][ip]]. *)
Definition interpolated (q : dict (list Q)) (im ip : nat) (h : Q)
           (param : string) : result Q :=
  (col <- dict_item q param ;;
   a <- item col im ;;
   col' <- dict_item q param ;;
   b <- item col' ip ;;
   Ok ((1 - h) * a + h * b))%res.

(** Lines 131-132: the loop over the grid parameters, each interpolated
    value written at row [iv] of its array. *)
Fixpoint store_params (params : list string) (q : dict (list Q))
         (im ip : nat) (h : Q) (iv : nat) (d : dict (list Q))
  : result (dict (list Q)) :=
  match params with
  | [] => Ok d
  | param :: rest =>
      (v <- interpolated q im ip h param ;;
       arr <- dict_item d param ;;
       arr' <- set_item arr iv v ;;
       store_params rest q im ip h iv (dset d param arr'))%res
  end.

(** [d[name][iv] = v]. *)
Definition store (d : dict (list Q)) (name : string) (iv : nat) (v : Q)
  : result (dict (list Q)) :=
  (arr <- dict_item d name ;;
   arr' <- set_item arr iv v ;;
   Ok (dset d name arr'))%res.

(** Lines 125-134: the accepted branch. *)
Definition accept (params : list string) (c : candidate) (q_mass : list Q)
           (iv : nat) (d : dict (list Q)) : result (dict (list Q)) :=
  (im <- index_below q_mass (c_m c) ;;
   ip <- index_above q_mass (c_m c) ;;
   h <- weight q_mass im ip (c_m c) ;;
   d1 <- store_params params (c_q c) im ip h iv d ;;
   d2 <- store d1 "age" iv (snd (c_afa c)) ;;
   store d2 "phase" iv (c_phase c))%res.

(** Lines 89-138: one pass of the loop. *)
Definition body (params : list string) (b : bursts) (s : sampler)
  : M (rng E) sampler :=
  c <- draw_candidate b (iv s) ;;
  q_mass <- lift (dict_item (c_q c) "Mini") ;;
  top <- lift (last_item q_mass) ;;
  if Qlt_bool (c_m c) top then
    d <- lift (accept params c q_mass (iv s) (data s)) ;;
    ret {| iv := S (iv s); ne := ne s; phase_i := c_phase c; data := d |}
  else
    ret {| iv := iv s; ne := S (ne s); phase_i := c_phase c; data := data s |}.

(** Line 88: [while iv < ns].  The loop has no bound of its own; [fuel]
    bounds the number of passes, and [None] means that it was used up
    with the loop still running. *)
Fixpoint sample_loop (fuel : nat) (params : list string) (b : bursts)
         (s : sampler) (g : rng E) : option (result sampler * rng E) :=
  if (iv s <? ns)%nat then
    match fuel with
    | O => None
    | S fuel' =>
        match body params b s g with
        | (Ok s', g') => sample_loop fuel' params b s' g'
        | (Raise e, g') => Some (Raise e, g')
        end
    end
  else Some (Ok s, g).

(** Within [k] passes from the loop state [s] and the generator state [g]
    a star is accepted: no pass raises, and one of the first [k]
    increments [iv]. *)
Fixpoint accepts_within (k : nat) (params : list string) (b : bursts)
         (s : sampler) (g : rng E) : bool :=
  match k with
  | O => false
  | S k' =>
      match body params b s g with
      | (Ok s', g') =>
          if (iv s' =? S (iv s))%nat then true
          else accepts_within k' params b s' g'
      | (Raise _, _) => false
      end
  end.

Definition start (params : list string) : sampler :=
  {| iv := 0; ne := 0; phase_i := 0; data := init_data params |}.

Definition report (s : sampler) : synth :=
  {| cfg_ns := ns; cfg_alpha := IMF_alpha; cfg_bursts := t_bursts;
     cfg_feh := (feh_mean, feh_disp); cfg_seed := rand_seed;
     s_data := data s; n_valid := iv s; n_discarded := ne s |}.

(** The function, run from the generator state [g0] the process is in. *)
Definition generate_synth_stars (fuel : nat) (g0 : rng E)
  : option (result synth * rng E) :=
  let g := seed E rand_seed in
  match burst_setup with
  | Raise e => Some (Raise e, g)
  | Ok b =>
      let params := get_gridparams E isogrid in
      match sample_loop fuel params b (start params) g with
      | None => None
      | Some (Ok s, g') => Some (Ok (report s), g')
      | Some (Raise e, g') => Some (Raise e, g')
      end
  end.
End Generate.

(** ** Lines 108, 129 and 132 on doubles

    The same expressions on binary64 numbers, which round every operation
    to the nearest double as the program does.  A decimal constant stands
    for the double nearest to it, as it does in Python. *)

(** The right-hand side of the test of line 108, [ns*(1-extra_giants)]. *)
Definition threshold64 (ns extra_giants : float) : float :=
  (ns * (1 - extra_giants))%float.

(** The test of line 108. *)
Definition ordinary_draw64 (ns extra_giants iv : float) : bool :=
  (iv <? threshold64 ns extra_giants)%float.

(** Line 129. *)
Definition weight64 (mim mip m : float) : float :=
  ((m - mim) / (mip - mim))%float.

(** The right-hand side of line 132. *)
Definition interpolated64 (a b h : float) : float :=
  ((1 - h) * a + h * b)%float.

(** ** [make_synth_obs] *)

Definition known_filters : list string :=
  ["J"; "H"; "Ks";
   "u"; "v"; "g"; "r"; "i"; "z";
   "G"; "G_BPbr"; "G_BPft"; "G_RP"].

(** The argument [plx_distribution]: ['SN'], ['Skymapper'] or a number. *)
Inductive plx_policy : Type :=
| SN
| Skymapper
| Constant (c : Q).

Definition is_skymapper (p : plx_policy) : bool :=
  match p with
  | Skymapper => true
  | _ => false
  end.

(** The local variables of [make_synth_obs] when it returns: the true
    values, the true apparent magnitudes, the relative parallax errors (set
    on the Skymapper branch only) and the table written to the file, a list
    of named columns. *)
Record observed : Type := {
  true_data : dict (list Q);
  app_mags_true : dict (list Q);
  plx_rel_err : list Q;
  frame : list (string * list Q)
}.

(** Elementwise binary operations on 1-D arrays, with numpy's broadcasting
    of an array of length one; other unequal lengths raise [ValueError]. *)
Definition broadcast2 (f : Q -> Q -> Q) (x y : list Q) : result (list Q) :=
  if (length x =? length y)%nat then
    Ok (map (fun ab => f (fst ab) (snd ab)) (combine x y))
  else
    match x, y with
    | [a], _ => Ok (map (f a) y)
    | _, [b] => Ok (map (fun a => f a b) x)
    | _, _ => Raise ValueError
    end.

Definition ones (n : nat) : list Q := repeat 1 n.

(** [np.arange(0.02, 0.21, 0.01)]: the 19 values 0.02, 0.03, ..., 0.20. *)
Definition plx_rel_err_interval : list Q :=
  map (fun i => (2 # 100) + Qnat i * (1 # 100)) (seq 0 19).

Section Observe.
Context (E : Env).
Variables (synthfile : synth) (obs_params : dict Q)
          (plx_distribution : plx_policy).
Local Open Scope rng_scope.

(** [np.random.normal(loc, scale, n)] for a number [scale]. *)
Definition np_normal_n (loc scale : Q) (n : nat) : M (rng E) (list Q) :=
  if Qlt_bool scale 0 then lift (Raise ValueError)
  else draws E n (np_normal E loc scale).

Fixpoint normal_each (loc : Q) (scales : list Q) : M (rng E) (list Q) :=
  match scales with
  | [] => ret []
  | s :: rest =>
      x <- np_normal E loc s ;; xs <- normal_each loc rest ;; ret (x :: xs)
  end.

(** [np.random.normal(loc, scale, n)] for an array [scale]. *)
Definition np_normal_arr (loc : Q) (scale : list Q) (n : nat)
  : M (rng E) (list Q) :=
  if existsb (fun s => Qlt_bool s 0) scale then lift (Raise ValueError)
  else
    match scale with
    | [s] => draws E n (np_normal E loc s)
    | _ => if (length scale =? n)%nat then normal_each loc scale
           else lift (Raise ValueError)
    end.

(** [np.random.choice(values, n, p=p)]. *)
Definition np_choice_n (values : list Q) (n : nat) (p : list Q)
  : M (rng E) (list Q) :=
  _ <- lift (choice_check (length values) (array1 p)) ;;
  idx <- draws E n (fun g => let (i, g') := pick E p g in (Ok i, g')) ;;
  ret (map (fun i => nth i values 0) idx).

(** Line 188. *)
Definition obs_mags : list string :=
  filter (fun f => mem f (keys obs_params)) known_filters.

(** Lines 197-206. *)
Fixpoint load_true (names : list string) (td : dict (list Q))
  : result (dict (list Q)) :=
  match names with
  | [] => Ok td
  | oparam :: rest =>
      if String.eqb oparam "plx" then load_true rest td
      else
        match dget (s_data synthfile) oparam with
        | None => Raise KeyError
        | Some col =>
            if String.eqb oparam "logT" then
              load_true rest (dset td oparam (map (pow10 E) col))
            else load_true rest (dset td oparam col)
        end
  end.

(** Lines 212-219. *)
Definition draw_plx_true (n : nat) : M (rng E) (list Q) :=
  match plx_distribution with
  | SN =>
      x <- np_normal_n (5637 # 10000) (8767 # 10000) n ;; ret (map (exp E) x)
  | Skymapper =>
      x <- np_normal_n (- (255 # 1000)) (656 # 1000) n ;; ret (map (exp E) x)
  | Constant c => ret (map (fun o => c * o) (ones n))
  end.

(** Lines 225-227. *)
Fixpoint apparent (mags : list string) (td : dict (list Q)) (mu_true : list Q)
         (app : dict (list Q)) : result (dict (list Q)) :=
  match mags with
  | [] => Ok app
  | mag :: rest =>
      (abs_mag <- dict_item td mag ;;
       a <- broadcast2 Qplus abs_mag mu_true ;;
       apparent rest td mu_true (dset app mag a))%res
  end.

(** Lines 233-246: the observed values, parameter by parameter.  The pair
    threaded through is [obs_data] and [plx_rel_err]. *)
Fixpoint add_noise (names : list string) (n : nat) (td app : dict (list Q))
         (acc : dict (list Q) * list Q) : M (rng E) (dict (list Q) * list Q) :=
  match names with
  | [] => ret acc
  | oparam :: rest =>
      let (obs_data, rel) := acc in
      if mem oparam obs_mags then
        a <- lift (dict_item app oparam) ;;
        sigma <- lift (dict_item obs_params oparam) ;;
        noise <- np_normal_n 0 sigma n ;;
        o <- lift (broadcast2 Qplus a noise) ;;
        add_noise rest n td app (dset obs_data oparam o, rel)
      else if (String.eqb oparam "plx" && is_skymapper plx_distribution)%bool then
        let prob := map (fun x => exp E (- (14 # 1) * x)) plx_rel_err_interval in
        let prob := map (fun x => x / sum prob) prob in
        rel' <- np_choice_n plx_rel_err_interval n prob ;;
        t <- lift (dict_item td oparam) ;;
        t' <- lift (dict_item td oparam) ;;
        sc <- lift (broadcast2 Qmult t' rel') ;;
        noise <- np_normal_arr 0 sc n ;;
        o <- lift (broadcast2 Qplus t noise) ;;
        add_noise rest n td app (dset obs_data oparam o, rel')
      else
        t <- lift (dict_item td oparam) ;;
        sigma <- lift (dict_item obs_params oparam) ;;
        noise <- np_normal_n 0 sigma n ;;
        o <- lift (broadcast2 Qplus t noise) ;;
        add_noise rest n td app (dset obs_data oparam o, rel)
  end.

(** [pd.DataFrame.from_dict(d)]: the columns must have one length. *)
Definition from_dict (d : dict (list Q)) : result (list (string * list Q)) :=
  match d with
  | [] => Ok []
  | (_, c) :: _ =>
      if forallb (fun kv => length (snd kv) =? length c)%nat d then Ok d
      else Raise ValueError
  end.

(** [df.insert(pos, name, values)]: the name must be new and the values as
    long as the table. *)
Definition df_insert (df : list (string * list Q)) (pos : nat) (name : string)
           (values : list Q) : result (list (string * list Q)) :=
  if mem name (map fst df) then Raise ValueError
  else
    match df with
    | (_, c) :: _ =>
        if (length values =? length c)%nat then
          Ok (firstn pos df ++ (name, values) :: skipn pos df)%list
        else Raise ValueError
    | [] => Ok [(name, values)]
    end.

(** Lines 250-256: the uncertainty columns, inserted from the last
    parameter to the first, each right after its parameter. *)
Fixpoint add_unc (cols : list string) (i : nat) (n : nat) (td : dict (list Q))
         (rel : list Q) (df : list (string * list Q))
  : result (list (string * list Q)) :=
  match cols with
  | [] => Ok df
  | column :: rest =>
      (unc <- (if (String.eqb column "plx" && is_skymapper plx_distribution)%bool
               then t <- dict_item td column ;; broadcast2 Qmult t rel
               else sigma <- dict_item obs_params column ;;
                    Ok (map (fun o => sigma * o) (ones n))) ;;
       df' <- df_insert df (length obs_params - i) (column ++ "_unc") unc ;;
       add_unc rest (S i) n td rel df')%res
  end.

Definition make_synth_obs : M (rng E) observed :=
  if ((0 <? length obs_mags)%nat && negb (mem "plx" (keys obs_params)))%bool
  then lift (Raise ValueError)
  else
    let n := cfg_ns synthfile in
    td <- lift (load_true (keys obs_params) []) ;;
    '(td, app) <-
      (if mem "plx" (keys obs_params) then
         plx_true <- draw_plx_true n ;;
         let td := dset td "plx" plx_true in
         let mu_true := map (fun p => 5 * log10 E (100 / p)) plx_true in
         app <- lift (apparent obs_mags td mu_true
                               (map (fun x => (x, [])) obs_mags)) ;;
         ret (td, app)
       else ret (td, [])) ;;
    '(obs_data, rel) <-
      add_noise (keys obs_params) n td app
                (map (fun x => (x, [])) (keys obs_params), []) ;;
    df <- lift (from_dict obs_data) ;;
    df <- lift (add_unc (rev (map fst df)) 0 n td rel df) ;;
    ret {| true_data := td; app_mags_true := app; plx_rel_err := rel;
           frame := df |}.
End Observe.

(** ** A small environment to run the two functions in

    The generator has two states and flips at every draw.  [10**x] and
    [x**y] are exact for an integer exponent, which is all the runs below
    use; [np.exp] is its series cut after five terms (as a reduced fraction); [np.log10] counts
    decimal digits and is exact on the powers of ten.  The grid holds one
    track of eight points, returned for every metallicity and age. *)
Module Demo.

Definition flip_rand (g : bool) : Q * bool :=
  (if g then 2 # 5 else 1 # 8, negb g).

Definition flip_gauss (g : bool) : Q * bool :=
  (if g then 1 else - (1), negb g).

Definition flip_pick (p : list Q) (g : bool) : nat * bool :=
  (if g then 0%nat else (length p - 1)%nat, negb g).

Definition int_pow (b : Q) (e : Q) : Q := Qpower b (Qfloor e).

Definition exp5 (x : Q) : Q :=
  Qred (1 + x + x * x / 2 + x * x * x / 6 + x * x * x * x / 24).

Fixpoint digits (fuel : nat) (z : Z) : Z :=
  match fuel with
  | O => 0
  | S fuel' => if (z <? 10)%Z then 0%Z else (1 + digits fuel' (z / 10))%Z
  end.

Definition ilog10 (x : Q) : Q := inject_Z (digits 64 (Qfloor x)).

Definition track : dict (list Q) :=
  [("Mini", [1; 2; 3; 4; 5; 6; 7; 8]);
   ("logT", [4; 4; 4; 3; 3; 3; 3; 3]);
   ("logg", [5; 4; 4; 3; 2; 2; 1; 0])].

Definition world : Env :=
  {| rng := bool;
     seed := fun s => Z.odd s;
     rand := flip_rand;
     gauss := flip_gauss;
     pick := flip_pick;
     pow10 := int_pow 10;
     powr := int_pow;
     exp := exp5;
     log10 := ilog10;
     grid := unit;
     get_gridparams := fun _ => ["Mini"; "logT"; "logg"];
     get_isochrone := fun _ _ feh age => Ok (track, (feh, 0, age)) |}.

(** The same environment with a generator whose uniform numbers are all
    1/8. *)
Definition dim_world : Env :=
  {| rng := bool;
     seed := fun s => Z.odd s;
     rand := fun g => (1 # 8, negb g);
     gauss := flip_gauss;
     pick := flip_pick;
     pow10 := int_pow 10;
     powr := int_pow;
     exp := exp5;
     log10 := ilog10;
     grid := unit;
     get_gridparams := fun _ => ["Mini"; "logT"; "logg"];
     get_isochrone := fun _ _ feh age => Ok (track, (feh, 0, age)) |}.

(** The same environment with a grid of whole ages: the isochrone returned
    for an age is the one of the whole number of Gyr below it. *)
Definition coarse_world : Env :=
  {| rng := bool;
     seed := fun s => Z.odd s;
     rand := flip_rand;
     gauss := flip_gauss;
     pick := flip_pick;
     pow10 := int_pow 10;
     powr := int_pow;
     exp := exp5;
     log10 := ilog10;
     grid := unit;
     get_gridparams := fun _ => ["Mini"; "logT"; "logg"];
     get_isochrone := fun _ _ feh age =>
                        Ok (track, (feh, 0, inject_Z (Qfloor age))) |}.

(** One burst between 1 and 10 Gyr. *)
Definition one_burst : ndarray := array1 [1; 10; 1].

(** Two bursts, between 1 and 5 Gyr and between 5 and 10 Gyr, the second
    three times as likely as the first. *)
Definition two_bursts : ndarray :=
  {| shape := [2; 3]%nat; flat := [1; 5; 1; 5; 10; 3] |}.

Definition run (ns : nat) (extra_giants : Q) (fuel : nat)
  : option (result synth * bool) :=
  generate_synth_stars world tt one_burst ns 0 (1 # 10) 2 1 extra_giants fuel false.

(** A burst array of three dimensions and one of none. *)
Definition bursts_3d : ndarray := {| shape := [1; 3; 1]%nat; flat := [1; 10; 1] |}.
Definition bursts_0d : ndarray := {| shape := []; flat := [5] |}.

Definition params : list string := ["Mini"; "logT"; "logg"].

(** The candidate of the first pass of [run]. *)
Definition first_candidate : candidate :=
  {| c_q := track; c_afa := (- (1 # 10), 0, 23 # 5); c_split := 2;
     c_mmin := 1; c_phase := 0; c_u := 2 # 5; c_m := 5 # 2 |}.

(** A synthetic sample of two stars. *)
Definition sample : synth :=
  {| cfg_ns := 2; cfg_alpha := 2; cfg_bursts := one_burst;
     cfg_feh := (0, 1 # 10); cfg_seed := 1;
     s_data := [("logT", [4; 3]); ("J", [1; 2])];
     n_valid := 2; n_discarded := 0 |}.

(** What [make_synth_obs] returns for that sample when only the parallax
    is requested, with uncertainty 0, under the ['Skymapper']
    distribution, from the generator state [true]. *)
Definition skymapper_obs : result observed * bool :=
  Eval vm_compute in
    make_synth_obs world sample [("plx", 0)] Skymapper true.

End Demo.

(** ** [gfunc2d.gstats]: the age statistics of a G function

    The functions of src/gfunc2d/gstats.py, on the arrays of the sections
    above.  [conf_glim] solves an equation with scipy; it is a parameter
    of [gfunc_age_conf]. *)

(** [np.amax(x)] of the elements of an array; [ValueError] when there is
    none. *)
Definition amax (x : list Q) : result Q :=
  match x with
  | [] => Raise ValueError
  | a :: x' => Ok (fold_left (fun m b => if Qlt_bool m b then b else m) x' a)
  end.

(** [np.argmax(x)]: the first position of the greatest element. *)
Fixpoint argmax_from (best : Q) (besti : nat) (i : nat) (x : list Q) : nat :=
  match x with
  | [] => besti
  | a :: x' =>
      if Qlt_bool best a then argmax_from a i (S i) x'
      else argmax_from best besti (S i) x'
  end.

Definition argmax (x : list Q) : result nat :=
  match x with
  | [] => Raise ValueError
  | a :: x' => Ok (argmax_from a O 1%nat x')
  end.

(** Lines 34-42. *)
Definition norm_gfunc (g : ndarray) (method : string) : result ndarray :=
  if String.eqb method "maxone" then
    (m <- amax (flat g) ;; Ok (scale_down g m))%res
  else Raise ValueError.

(** [np.sum(g, axis=1)]: the second axis is summed away; an array of fewer
    than two axes has no axis 1 (numpy's [AxisError], a [ValueError]). *)
Definition sum_axis1 (g : ndarray) : result ndarray :=
  match shape g with
  | n0 :: n1 :: rest =>
      let inner := fold_right Nat.mul 1%nat rest in
      Ok {| shape := n0 :: rest;
            flat := flat_map
                      (fun i =>
                         map (fun r =>
                                sum (map (fun j => nth ((i * n1 + j) * inner + r)
                                                       (flat g) 0)
                                         (seq 0 n1)))
                             (seq 0 inner))
                      (seq 0 n0) |}
  | _ => Raise ValueError
  end.

(** Lines 45-50. *)
Definition gfunc_age (g : ndarray) (norm : bool) (norm_method : string)
  : result ndarray :=
  (g_age <- sum_axis1 g ;;
   if norm then norm_gfunc g_age norm_method else Ok g_age)%res.

(** Lines 53-57. *)
Definition gfunc_age_mode (g_age : ndarray) (age_grid : list Q) : result Q :=
  (ind <- argmax (flat g_age) ;; item age_grid ind)%res.

(** [age_grid[g_age > glim]]: the entries of the one-dimensional [age_grid]
    at the positions where the mask holds; the mask must have the shape of
    [age_grid]. *)
Definition above_limit (g_age : ndarray) (age_grid : list Q) (glim : Q)
  : result (list Q) :=
  if ((ndim g_age =? 1)%nat && (length (flat g_age) =? length age_grid)%nat)%bool
  then Ok (map (fun i => nth i age_grid 0)
               (where_ (fun x => Qlt_bool glim x) (flat g_age)))
  else Raise IndexError.

(** Lines 69-75. *)
Definition gfunc_age_conf (conf_glim : Q -> result Q) (g_age : ndarray)
           (age_grid : list Q) (conf_level : Q) : result (Q * Q) :=
  (glim <- conf_glim conf_level ;;
   ages_lim <- above_limit g_age age_grid glim ;;
   lo <- item ages_lim 0 ;;
   hi <- last_item ages_lim ;;
   Ok (lo, hi))%res.

(** ** [smooth_gfunc2d]: the smoothing of a G function

    [np.convolve(a, v, mode='same')].  The full discrete convolution of [a]
    and [v] has the value [sum_t a[k - t] * v[t]] at position [k]; mode
    ['same'] keeps as many values as the longer argument has, starting
    [(n2 - 1) - n2 // 2] values into the full convolution, [n2] being the
    length of the shorter argument.  An empty argument raises
    [ValueError]. *)
Definition conv_at (a v : list Q) (k : nat) : Q :=
  sum (map (fun t => if (t <=? k)%nat then nth (k - t) a 0 * nth t v 0 else 0)
           (seq 0 (length v))).

Definition convolve_same (a v : list Q) : result (list Q) :=
  match a, v with
  | [], _ => Raise ValueError
  | _, [] => Raise ValueError
  | _, _ =>
      let n1 := Nat.max (length a) (length v) in
      let n2 := Nat.min (length a) (length v) in
      Ok (map (fun k => conv_at a v (k + (n2 - 1 - n2 / 2))) (seq 0 n1))
  end.

(** The outcomes of a list of calls: the first exception, if any. *)
Fixpoint all_ok {A} (l : list (result A)) : result (list A) :=
  match l with
  | [] => Ok []
  | r :: l' => (x <- r ;; xs <- all_ok l' ;; Ok (x :: xs))%res
  end.

(** A block of [n] rows of [w] entries, in row-major order, has [w] lines
    along its first axis; line [c] holds entry [c] of every row. *)
Definition lines_of (w n : nat) (block : list Q) : list (list Q) :=
  map (fun c => map (fun i => nth (i * w + c) block 0) (seq 0 n)) (seq 0 w).

(** The block of [n'] rows whose lines along the first axis are [lines]. *)
Definition block_of (n' : nat) (lines : list (list Q)) : list Q :=
  flat_map (fun i => map (fun l => nth i l 0) lines) (seq 0 n').

(** [func1d] applied to every line along the first axis of a block.  The
    length of the first result is the extent of the new first axis, and the
    other results must have it too; without a line to apply [func1d] to,
    numpy raises [ValueError]. *)
Definition along_first (func1d : list Q -> result (list Q)) (w n : nat)
           (block : list Q) : result (nat * list Q) :=
  (res <- all_ok (map func1d (lines_of w n block)) ;;
   match res with
   | [] => Raise ValueError
   | r0 :: rs =>
       if forallb (fun r => (length r =? length r0)%nat) rs
       then Ok (length r0, block_of (length r0) res)
       else Raise ValueError
   end)%res.

(** [np.apply_along_axis(func1d, 0, arr)]; an array without axes has no
    axis 0 (numpy's [AxisError], a [ValueError]). *)
Definition apply_along_axis0 (func1d : list Q -> result (list Q)) (arr : ndarray)
  : result ndarray :=
  match shape arr with
  | n0 :: rest =>
      ('(n', out) <- along_first func1d (fold_right Nat.mul 1%nat rest) n0
                                 (flat arr) ;;
       Ok {| shape := n' :: rest; flat := out |})%res
  | [] => Raise ValueError
  end.

(** [np.apply_along_axis(func1d, 1, arr)]: every one of the [n0] blocks of
    the array is treated along its own first axis. *)
Definition apply_along_axis1 (func1d : list Q -> result (list Q)) (arr : ndarray)
  : result ndarray :=
  match shape arr with
  | n0 :: n1 :: rest =>
      let w := fold_right Nat.mul 1%nat rest in
      (blocks <- all_ok
                   (map (fun i =>
                           along_first func1d w n1
                                       (firstn (n1 * w) (skipn (i * (n1 * w)) (flat arr))))
                        (seq 0 n0)) ;;
       match blocks with
       | [] => Raise ValueError
       | (n', _) :: _ =>
           if forallb (fun b => (fst b =? n')%nat) blocks
           then Ok {| shape := n0 :: n' :: rest; flat := flat_map snd blocks |}
           else Raise ValueError
       end)%res
  | _ => Raise ValueError
  end.

Definition kernel : list Q := [1 # 4; 1 # 2; 1 # 4].

(** Lines 26-32. *)
Definition smooth_gfunc2d (g : ndarray) : result ndarray :=
  let func := fun x => convolve_same x kernel in
  (g1 <- apply_along_axis0 func g ;;
   apply_along_axis1 func g1)%res.

(** ** The specification's wording of the split index

    The specification describes the split index through the five smallest
    absolute differences.  This definition follows those words; it is
    compared with [split_index] below. *)
Definition spec_split_index (E : Env) (logT : list Q) : result nat :=
  int_median (firstn 5 (argsort (map Qabs (diff (map (pow10 E) logT))))).

(** ** Auxiliary notions for the statements *)

(** The phase the test of line 108 gives to the star in row [i]. *)
Definition phase_of (ns : nat) (extra_giants : Q) (i : nat) : Q :=
  if ordinary_draw ns extra_giants i then 0 else 1.

(** The masses along a track do not decrease. *)
Definition nondecreasing (l : list Q) : Prop :=
  forall i j a b, (i <= j)%nat ->
                  nth_error l i = Some a -> nth_error l j = Some b -> a <= b.

(** The track [q] has an array as long as [q_mass] for every grid
    parameter. *)
Definition track_ok (params : list string) (q : dict (list Q)) (q_mass : list Q)
  : Prop :=
  forall p, In p params ->
            exists col, dget q p = Some col /\ length col = length q_mass.

(** [d] holds an array of [ns] rows for every grid parameter, for the age
    and for the phase, as line 82 prepares them. *)
Definition data_ready (ns : nat) (params : list string) (d : dict (list Q))
  : Prop :=
  forall k, In k (params ++ ["age"; "phase"]) ->
            exists arr, dget d k = Some arr /\ length arr = ns.

(** What line 202 or 204 stores for the parameter [k] whose array in the
    synthetic sample is [col]. *)
Definition loaded (E : Env) (k : string) (col : list Q) : list Q :=
  if String.eqb k "logT" then map (pow10 E) col else col.

(** How the observed array [obs] of the parameter [k] was made (lines
    234-246): from the true apparent magnitude or the true value, plus
    normal noise of the scale the branch uses. *)
Definition observed_from (E : Env) (obs_params : dict Q)
           (plx_distribution : plx_policy) (n : nat) (td app : dict (list Q))
           (k : string) (obs : list Q) : Prop :=
  if mem k (obs_mags obs_params) then
    exists a sigma noise g1 g2,
      dget app k = Some a /\ dget obs_params k = Some sigma /\
      np_normal_n E 0 sigma n g1 = (Ok noise, g2) /\
      broadcast2 Qplus a noise = Ok obs
  else if (String.eqb k "plx" && is_skymapper plx_distribution)%bool then
    exists t rel sc noise g1 g2,
      dget td k = Some t /\ broadcast2 Qmult t rel = Ok sc /\
      np_normal_arr E 0 sc n g1 = (Ok noise, g2) /\
      broadcast2 Qplus t noise = Ok obs
  else
    exists t sigma noise g1 g2,
      dget td k = Some t /\ dget obs_params k = Some sigma /\
      np_normal_n E 0 sigma n g1 = (Ok noise, g2) /\
      broadcast2 Qplus t noise = Ok obs.

(** The order [argsort] sorts by. *)
Definition by_value (a b : Q * nat) : Prop := fst a <= fst b.

(** [d'] has the arrays of [d], changed at row [i] at most. *)
Definition same_but_row (i : nat) (d d' : dict (list Q)) : Prop :=
  forall k col, dget d k = Some col ->
    exists col', dget d' k = Some col' /\ length col' = length col /\
                 forall j, j <> i -> nth_error col' j = nth_error col j.

(** The rows written so far hold the phases the test of line 108 gives
    them. *)
Definition phases_written (ns : nat) (extra_giants : Q) (s : sampler) : Prop :=
  (iv s <= ns)%nat /\
  exists col, dget (data s) "phase" = Some col /\ length col = ns /\
              forall i, (i < iv s)%nat ->
                        nth_error col i = Some (phase_of ns extra_giants i).

(** The uncertainty column line 253 or 256 computes for [column]. *)
Definition unc_column (obs_params : dict Q) (plx_distribution : plx_policy)
           (n : nat) (td : dict (list Q)) (rel : list Q) (column : string)
  : result (list Q) :=
  (if (String.eqb column "plx" && is_skymapper plx_distribution)%bool
   then t <- dict_item td column ;; broadcast2 Qmult t rel
   else sigma <- dict_item obs_params column ;;
        Ok (map (fun o => sigma * o) (ones n)))%res.

(** A table in which every column of [df] is followed by the column
    [u name] under the name [name_unc]. *)
Definition with_unc (u : string -> list Q) (df : list (string * list Q))
  : list (string * list Q) :=
  flat_map (fun kc => [kc; ((fst kc ++ "_unc")%string, u (fst kc))]) df.

(** The entry [(i, j)] of a two-dimensional array, and 0 outside it. *)
Definition pixel (g : ndarray) (i j : Z) : Q :=
  match shape g with
  | [n0; n1] =>
      if ((0 <=? i) && (i <? Z.of_nat n0) && (0 <=? j) && (j <? Z.of_nat n1))%Z%bool
      then nth (Z.to_nat i * n1 + Z.to_nat j) (flat g) 0
      else 0
  | _ => 0
  end.

(** The three-point average with weights 1/4, 1/2, 1/4. *)
Definition three_point (x : Z -> Q) (k : Z) : Q :=
  (1 # 4) * x (k - 1)%Z + (1 # 2) * x k + (1 # 4) * x (k + 1)%Z.

(** What [np.convolve(a, kernel, mode='same')] returns for a line that is
    not empty. *)
Definition smoothed_line (a : list Q) : list Q :=
  map (fun k => conv_at a kernel (k + (Nat.min (length a) 3 - 1
                                        - Nat.min (length a) 3 / 2)))
      (seq 0 (Nat.max (length a) 3)).

(** The entry [z] of a line, and 0 outside it. *)
Definition entry (a : list Q) (z : Z) : Q :=
  if ((0 <=? z) && (z <? Z.of_nat (length a)))%Z%bool then nth (Z.to_nat z) a 0
  else 0.

(** Row [i] of a two-dimensional array of rows of [n1] entries. *)
Definition row_of (n1 : nat) (x : list Q) (i : nat) : list Q :=
  map (fun j => nth (i * n1 + j) x 0) (seq 0 n1).

(** The passes of the sampling loop, one by one. *)
Section Passes.
Context (E : Env).
Variables (isogrid : grid E) (t_bursts : ndarray) (ns : nat)
          (feh_mean feh_disp IMF_alpha : Q) (rand_seed : Z) (extra_giants : Q).

(** The test of line 124 on the candidate of a pass. *)
Definition below_top (c : candidate) : result bool :=
  (q_mass <- dict_item (c_q c) "Mini" ;;
   top <- last_item q_mass ;;
   Ok (Qlt_bool (c_m c) top))%res.

(** The outcomes of the passes the loop makes from the state [s] and the
    generator state [g], in order: for every pass that completes, whether
    the mass it drew was below the top of its track. *)
Fixpoint outcomes (fuel : nat) (params : list string) (b : bursts)
         (s : sampler) (g : rng E) : list bool :=
  if (iv s <? ns)%nat then
    match fuel with
    | O => []
    | S fuel' =>
        match draw_candidate E isogrid t_bursts ns feh_mean feh_disp IMF_alpha
                             extra_giants b (iv s) g,
              body E isogrid t_bursts ns feh_mean feh_disp IMF_alpha
                   extra_giants params b s g with
        | (Ok c, _), (Ok s', g') =>
            match below_top c with
            | Ok t => t :: outcomes fuel' params b s' g'
            | Raise _ => []
            end
        | _, _ => []
        end
    end
  else [].

(** The states the loop of a call goes through: the one it starts in, with
    the generator as line 55 seeded it, and the one every completed pass
    leaves. *)
Inductive reached (params : list string) (b : bursts)
  : sampler -> rng E -> Prop :=
| reached_start :
    reached params b (start ns params) (seed E rand_seed)
| reached_pass (s s' : sampler) (g g' : rng E) :
    reached params b s g -> (iv s < ns)%nat ->
    body E isogrid t_bursts ns feh_mean feh_disp IMF_alpha extra_giants
         params b s g = (Ok s', g') ->
    reached params b s' g'.

(** The pass that accepted the star of row [i]: a pass of the call, made
    with [i] stars accepted, whose mass was below the top of its track.  The
    pass drew [age] from the bursts and [feh] from the metallicity
    distribution, asked the grid for the isochrone of them, and went on to
    the candidate [c] on that isochrone. *)
Definition accepting_pass (params : list string) (b : bursts) (i : nat)
           (age feh : Q) (c : candidate) : Prop :=
  exists s g g1 g2 g3,
    reached params b s g /\ iv s = i /\
    draw_age E t_bursts b g = (Ok age, g1) /\
    np_normal E feh_mean feh_disp g1 = (Ok feh, g2) /\
    get_isochrone E isogrid 0 feh age = Ok (c_q c, c_afa c) /\
    draw_candidate E isogrid t_bursts ns feh_mean feh_disp IMF_alpha
                   extra_giants b i g = (Ok c, g3) /\
    below_top c = Ok true.

(** The rows written so far hold the age of the isochrone and the phase of
    the pass that accepted them. *)
Definition own_rows (params : list string) (b : bursts) (s : sampler) : Prop :=
  (iv s <= ns)%nat /\
  exists ages phases,
    dget (data s) "age" = Some ages /\ length ages = ns /\
    dget (data s) "phase" = Some phases /\ length phases = ns /\
    forall i, (i < iv s)%nat ->
              exists age feh c,
                accepting_pass params b i age feh c /\
                nth_error ages i = Some (snd (c_afa c)) /\
                nth_error phases i = Some (c_phase c).
End Passes.

(** * Properties *)

(** ** The comparisons *)

Lemma Qlt_bool_iff (x y : Q) : Qlt_bool x y = true <-> x < y.
Proof.
  unfold Qlt_bool. rewrite negb_true_iff.
  split; intros H.
  - apply Qnot_le_lt. intros Hle. apply Qle_bool_iff in Hle. congruence.
  - destruct (Qle_bool y x) eqn:Hb; [|reflexivity].
    apply Qle_bool_iff in Hb. exfalso. apply (Qlt_not_le _ _ H Hb).
Qed.

Lemma Qlt_bool_false (x y : Q) : Qlt_bool x y = false <-> y <= x.
Proof.
  unfold Qlt_bool. rewrite negb_false_iff. apply Qle_bool_iff.
Qed.

Lemma Qle_bool_false (x y : Q) : Qle_bool x y = false <-> y < x.
Proof.
  split; intros H.
  - apply Qnot_le_lt. intros Hle. apply Qle_bool_iff in Hle. congruence.
  - destruct (Qle_bool x y) eqn:Hb; [|reflexivity].
    apply Qle_bool_iff in Hb. exfalso. apply (Qlt_not_le _ _ H Hb).
Qed.


(** ** Sorting lemmas for [argsort] and [median] *)

Lemma insert_by_perm (x : Q * nat) (l : list (Q * nat)) :
  Permutation (insert_by x l) (x :: l).
Proof.
  induction l as [|y l IH]; simpl.
  - apply Permutation_refl.
  - destruct (Qle_bool (fst x) (fst y)).
    + apply Permutation_refl.
    + eapply perm_trans; [apply perm_skip, IH | apply perm_swap].
Qed.

Lemma sort_by_perm (l : list (Q * nat)) : Permutation (sort_by l) l.
Proof.
  induction l as [|x l IH]; simpl.
  - constructor.
  - eapply perm_trans; [apply insert_by_perm | apply perm_skip, IH].
Qed.

Lemma insert_by_sorted (x : Q * nat) (l : list (Q * nat)) :
  StronglySorted by_value l -> StronglySorted by_value (insert_by x l).
Proof.
  induction l as [|y l IH]; simpl; intros Hs.
  - repeat constructor.
  - inversion Hs as [|? ? Hs' Hall]; subst.
    destruct (Qle_bool (fst x) (fst y)) eqn:Hc.
    + apply Qle_bool_iff in Hc.
      constructor; [exact Hs|].
      constructor; [exact Hc|].
      eapply Forall_impl; [|exact Hall].
      intros a Ha. unfold by_value in *. eapply Qle_trans; eassumption.
    + apply Qle_bool_false in Hc.
      constructor; [apply IH, Hs'|].
      eapply Permutation_Forall; [apply Permutation_sym, insert_by_perm|].
      constructor; [|exact Hall].
      unfold by_value. apply Qlt_le_weak, Hc.
Qed.

Lemma sort_by_sorted (l : list (Q * nat)) : StronglySorted by_value (sort_by l).
Proof.
  induction l as [|x l IH]; simpl.
  - constructor.
  - apply insert_by_sorted, IH.
Qed.

Lemma insert_nat_perm (x : nat) (l : list nat) :
  Permutation (insert_nat x l) (x :: l).
Proof.
  induction l as [|y l IH]; simpl.
  - apply Permutation_refl.
  - destruct (x <=? y)%nat.
    + apply Permutation_refl.
    + eapply perm_trans; [apply perm_skip, IH | apply perm_swap].
Qed.

Lemma sort_nat_perm (l : list nat) : Permutation (sort_nat l) l.
Proof.
  induction l as [|x l IH]; simpl.
  - constructor.
  - eapply perm_trans; [apply insert_nat_perm | apply perm_skip, IH].
Qed.

Lemma insert_nat_sorted (x : nat) (l : list nat) :
  StronglySorted le l -> StronglySorted le (insert_nat x l).
Proof.
  induction l as [|y l IH]; simpl; intros Hs.
  - repeat constructor.
  - inversion Hs as [|? ? Hs' Hall]; subst.
    destruct (x <=? y)%nat eqn:Hc.
    + apply Nat.leb_le in Hc.
      constructor; [exact Hs|].
      constructor; [exact Hc|].
      eapply Forall_impl; [|exact Hall]. intros a Ha. lia.
    + apply Nat.leb_gt in Hc.
      constructor; [apply IH, Hs'|].
      eapply Permutation_Forall; [apply Permutation_sym, insert_nat_perm|].
      constructor; [lia | exact Hall].
Qed.

Lemma sort_nat_sorted (l : list nat) : StronglySorted le (sort_nat l).
Proof.
  induction l as [|x l IH]; simpl.
  - constructor.
  - apply insert_nat_sorted, IH.
Qed.

Lemma diff_length (x : list Q) : length (diff x) = (length x - 1)%nat.
Proof.
  induction x as [|a [|b t] IH]; simpl in *; try reflexivity.
  rewrite IH. lia.
Qed.

Lemma map_snd_combine {A B} (l : list A) (l' : list B) :
  length l = length l' -> map snd (combine l l') = l'.
Proof.
  revert l'. induction l as [|a l IH]; intros [|b l'] Hlen; simpl in *;
    try reflexivity; try discriminate.
  f_equal. apply IH. lia.
Qed.

Lemma in_combine_seq (x : list Q) (s : nat) (v : Q) (i : nat) :
  In (v, i) (combine x (seq s (length x))) ->
  (s <= i)%nat /\ nth (i - s) x 0 = v.
Proof.
  revert s. induction x as [|a x IH]; simpl; intros s Hin; [tauto|].
  destruct Hin as [Heq | Hin].
  - inversion Heq; subst. rewrite Nat.sub_diag. split; [lia | reflexivity].
  - apply IH in Hin. destruct Hin as [Hle Hnth]. split; [lia|].
    replace (i - s)%nat with (S (i - S s)) by lia. exact Hnth.
Qed.

Lemma argsort_perm (x : list Q) : Permutation (argsort x) (seq 0 (length x)).
Proof.
  unfold argsort.
  eapply perm_trans; [apply Permutation_map, sort_by_perm|].
  rewrite map_snd_combine by (now rewrite length_seq).
  apply Permutation_refl.
Qed.

Lemma in_skipn {A} (k : nat) (l : list A) (b : A) : In b (skipn k l) -> In b l.
Proof.
  intros H. rewrite <- (firstn_skipn k l). apply in_or_app. now right.
Qed.

Lemma in_firstn {A} (k : nat) (l : list A) (b : A) : In b (firstn k l) -> In b l.
Proof.
  intros H. rewrite <- (firstn_skipn k l). apply in_or_app. now left.
Qed.

(** The elements of a sorted list before a cut are below those after it. *)
Lemma sorted_cut (l : list (Q * nat)) (k : nat) (a b : Q * nat) :
  StronglySorted by_value l ->
  In a (firstn k l) -> In b (skipn k l) -> by_value a b.
Proof.
  revert k. induction l as [|y l IH]; intros k Hs Ha Hb.
  - rewrite firstn_nil in Ha. destruct Ha.
  - inversion Hs as [|? ? Hs' Hall]; subst.
    destruct k as [|k]; simpl in *; [destruct Ha|].
    destruct Ha as [-> | Ha].
    + rewrite Forall_forall in Hall. apply Hall.
      eapply in_skipn; exact Hb.
    + eapply IH; eassumption.
Qed.

Lemma filter_length_perm {A} (f : A -> bool) (l l' : list A) :
  Permutation l l' -> length (filter f l) = length (filter f l').
Proof.
  induction 1 as [|x l l' _ IH|x y l|l l' l'' _ IH1 _ IH2]; simpl.
  - reflexivity.
  - destruct (f x); simpl; congruence.
  - destruct (f x), (f y); reflexivity.
  - congruence.
Qed.

Lemma py_int_nat (n : nat) : Z.to_nat (py_int (Qnat n)) = n.
Proof.
  unfold py_int, Qnat. simpl. rewrite Z.quot_1_r. apply Nat2Z.id.
Qed.

(** The median of five distinct indices is one of them, with two of the
    others below it and two above. *)
Lemma int_median_five (l : list nat) :
  length l = 5%nat -> NoDup l ->
  exists k, int_median l = Ok k /\ In k l /\
            length (filter (fun i => i <? k)%nat l) = 2%nat /\
            length (filter (fun i => k <? i)%nat l) = 2%nat.
Proof.
  intros Hlen Hnd.
  pose proof (sort_nat_perm l) as Hp.
  pose proof (sort_nat_sorted l) as Hs.
  assert (Hnd' : NoDup (sort_nat l))
    by (eapply Permutation_NoDup; [apply Permutation_sym, Hp | exact Hnd]).
  assert (Hlen' : length (sort_nat l) = 5%nat)
    by (rewrite (Permutation_length Hp); exact Hlen).
  unfold int_median, median.
  destruct (sort_nat l) as [|a [|b [|c [|d [|e [|]]]]]]; try discriminate.
  exists c.
  split; [simpl; fold (Qnat c); now rewrite py_int_nat|].
  split; [eapply Permutation_in; [exact Hp | simpl; tauto]|].
  repeat match goal with
         | H : StronglySorted _ (_ :: _) |- _ => inversion H; clear H; subst
         | H : Forall _ (_ :: _) |- _ => inversion H; clear H; subst
         | H : NoDup (_ :: _) |- _ => inversion H; clear H; subst
         end.
  simpl in *.
  assert (a < b /\ b < c /\ c < d /\ d < e)%nat as (Hab & Hbc & Hcd & Hde)
    by (repeat split; apply Nat.le_neq; split; auto; intros ->; tauto).
  rewrite <- (filter_length_perm _ _ _ Hp), <- (filter_length_perm (fun i => c <? i)%nat _ _ Hp).
  simpl.
  repeat match goal with
         | |- context [(?x <? ?y)%nat] =>
             destruct (Nat.ltb_spec x y); try lia
         end.
  split; reflexivity.
Qed.

(** ** The dwarf/giant split index *)

Lemma argsort_low_least (d : list Q) (k i j : nat) :
  In i (firstn k (argsort d)) -> (j < length d)%nat ->
  ~ In j (firstn k (argsort d)) -> nth i d 0 <= nth j d 0.
Proof.
  unfold argsort. set (s := sort_by (combine d (seq 0 (length d)))).
  rewrite firstn_map. intros Hi Hj Hnj.
  assert (Hval : forall a, In a s -> fst a = nth (snd a) d 0).
  { intros [v n] Ha. simpl.
    apply (Permutation_in _ (sort_by_perm _)) in Ha.
    apply in_combine_seq in Ha. destruct Ha as [_ Ha].
    rewrite Nat.sub_0_r in Ha. now symmetry. }
  apply in_map_iff in Hi. destruct Hi as (a & Hsa & Ha).
  assert (Hjs : In j (map snd s)).
  { apply (Permutation_in _ (Permutation_sym (argsort_perm d))).
    apply in_seq. lia. }
  rewrite <- (firstn_skipn k s), map_app in Hjs.
  apply in_app_or in Hjs. destruct Hjs as [Hjs | Hjs]; [contradiction|].
  apply in_map_iff in Hjs. destruct Hjs as (b & Hsb & Hb).
  pose proof (sorted_cut s k a b (sort_by_sorted _) Ha Hb) as Hab.
  unfold by_value in Hab.
  rewrite (Hval a (in_firstn _ _ _ Ha)), (Hval b (in_skipn _ _ _ Hb)) in Hab.
  now rewrite Hsa, Hsb in Hab.
Qed.

(** C1, as the code has it.  On a track of at least six points the split
    index is found from the successive differences of the temperature
    [10**logT], taken with their sign: [low_inds] holds five distinct
    positions of the difference array, no difference outside them is below
    one inside them (they are the five lowest, most negative, differences),
    and [split_ind] is their median: one of the five, with two of them
    before it and two after it. *)
Theorem split_index_lowest_signed (E : Env) (logT : list Q) :
  (6 <= length logT)%nat ->
  let d := diff (map (pow10 E) logT) in
  let low_inds := firstn 5 (argsort d) in
  length low_inds = 5%nat /\ NoDup low_inds /\
  (forall i, In i low_inds -> (i < length d)%nat) /\
  (forall i j, In i low_inds -> (j < length d)%nat -> ~ In j low_inds ->
               nth i d 0 <= nth j d 0) /\
  exists split_ind,
    split_index E logT = Ok split_ind /\ In split_ind low_inds /\
    length (filter (fun i => i <? split_ind)%nat low_inds) = 2%nat /\
    length (filter (fun i => split_ind <? i)%nat low_inds) = 2%nat.
Proof.
  intros Hlen d low_inds.
  assert (Hd : (5 <= length d)%nat)
    by (unfold d; rewrite diff_length, length_map; lia).
  pose proof (argsort_perm d) as Hp.
  assert (Hl : length low_inds = 5%nat).
  { unfold low_inds. rewrite length_firstn, (Permutation_length Hp), length_seq. lia. }
  assert (Hnd : NoDup low_inds).
  { unfold low_inds. rewrite <- (firstn_skipn 5 (argsort d)) in Hp.
    apply Permutation_sym in Hp.
    eapply NoDup_app_remove_r.
    eapply Permutation_NoDup; [exact Hp | apply seq_NoDup]. }
  split; [exact Hl|]. split; [exact Hnd|]. split; [|split].
  - intros i Hi. apply in_firstn in Hi.
    apply (Permutation_in _ Hp) in Hi. apply in_seq in Hi. lia.
  - intros i j. apply argsort_low_least.
  - destruct (int_median_five low_inds Hl Hnd) as (k & Hk & Hin & Hlo & Hhi).
    exists k. unfold split_index. fold d. fold low_inds. auto.
Qed.

(** C1 as the specification words it fails: on this track the five lowest
    signed differences sit at positions 0-4 and the five lowest absolute
    ones at positions 5-9, so the code splits at 2 where the wording gives
    7. *)
Lemma split_index_not_absolute :
  let logT := [6; 5; 4; 3; 2; 1; 1; 1; 1; 1; 1; 1] in
  split_index Demo.world logT = Ok 2%nat /\
  spec_split_index Demo.world logT = Ok 7%nat /\
  split_index Demo.world logT <> spec_split_index Demo.world logT.
Proof.
  vm_compute. repeat split; discriminate.
Qed.

Lemma split_index_lowest_signed_witness :
  (6 <= length [4; 4; 4; 3; 3; 3; 3; 3])%nat /\
  exists k, split_index Demo.world [4; 4; 4; 3; 3; 3; 3; 3] = Ok k.
Proof.
  split; [simpl; lia|].
  destruct (split_index_lowest_signed Demo.world [4; 4; 4; 3; 3; 3; 3; 3])
    as (_ & _ & _ & _ & k & Hk & _); [simpl; lia|].
  exists k. exact Hk.
Defined.

(** ** Dictionaries and arrays *)

Lemma dget_dset {V} (d : dict V) (k k' : string) (v : V) :
  dget (dset d k v) k' = if String.eqb k' k then Some v else dget d k'.
Proof.
  induction d as [|[k0 v0] d IH]; simpl; [reflexivity|].
  destruct (String.eqb k k0) eqn:Hkk0.
  - apply String.eqb_eq in Hkk0. subst k0. simpl.
    destruct (String.eqb k' k); reflexivity.
  - simpl. destruct (String.eqb k' k0) eqn:Hk'k0.
    + apply String.eqb_eq in Hk'k0. subst k0.
      destruct (String.eqb k' k) eqn:Hk'k; [|reflexivity].
      apply String.eqb_eq in Hk'k. subst k'.
      rewrite String.eqb_refl in Hkk0. discriminate.
    + apply IH.
Qed.

Lemma set_item_spec {A} (l l' : list A) (i : nat) (v : A) :
  set_item l i v = Ok l' ->
  length l' = length l /\ nth_error l' i = Some v /\
  (forall j, j <> i -> nth_error l' j = nth_error l j).
Proof.
  revert l' i. induction l as [|x l IH]; intros l' [|i] H; simpl in H;
    try discriminate.
  - inversion H; subst. repeat split. intros [|j] Hj; [congruence | reflexivity].
  - destruct (set_item l i v) as [r|] eqn:Hr; simpl in H; [|discriminate].
    inversion H; subst. destruct (IH _ _ Hr) as (Hlen & Hi & Hj).
    simpl. repeat split; [congruence | exact Hi |].
    intros [|j] Hne; [reflexivity|]. simpl. apply Hj. congruence.
Qed.

Lemma set_item_ok {A} (l : list A) (i : nat) (v : A) :
  (i < length l)%nat -> exists l', set_item l i v = Ok l'.
Proof.
  revert i. induction l as [|x l IH]; intros [|i] Hi; simpl in *; try lia.
  - eexists; reflexivity.
  - destruct (IH i) as [l' Hl']; [lia|]. rewrite Hl'. simpl. eexists; reflexivity.
Qed.

Lemma same_but_row_refl (i : nat) (d : dict (list Q)) : same_but_row i d d.
Proof. intros k col H. exists col. auto. Qed.

Lemma same_but_row_trans (i : nat) (d1 d2 d3 : dict (list Q)) :
  same_but_row i d1 d2 -> same_but_row i d2 d3 -> same_but_row i d1 d3.
Proof.
  intros H12 H23 k col Hk.
  destruct (H12 _ _ Hk) as (c2 & Hk2 & Hl2 & Hj2).
  destruct (H23 _ _ Hk2) as (c3 & Hk3 & Hl3 & Hj3).
  exists c3. split; [exact Hk3|]. split; [congruence|].
  intros j Hj. rewrite Hj3, Hj2; auto.
Qed.

Lemma same_but_row_set (i : nat) (d : dict (list Q)) (k : string)
      (arr arr' : list Q) (v : Q) :
  dget d k = Some arr -> set_item arr i v = Ok arr' ->
  same_but_row i d (dset d k arr').
Proof.
  intros Hk Hset k' col Hk'.
  rewrite dget_dset.
  destruct (set_item_spec _ _ _ _ Hset) as (Hlen & _ & Hj).
  destruct (String.eqb k' k) eqn:Heq.
  - apply String.eqb_eq in Heq. subst k'.
    assert (col = arr) by congruence. subst col.
    exists arr'. auto.
  - exists col. auto.
Qed.

Lemma dict_item_some {V} (d : dict V) (k : string) (v : V) :
  dict_item d k = Ok v <-> dget d k = Some v.
Proof.
  unfold dict_item. destruct (dget d k); simpl; split; congruence.
Qed.

Lemma item_some {A} (l : list A) (i : nat) (v : A) :
  item l i = Ok v <-> nth_error l i = Some v.
Proof.
  unfold item. destruct (nth_error l i); simpl; split; congruence.
Qed.

(** Inversion of a successful [rbind]. *)
Lemma rbind_ok {A B} (r : result A) (k : A -> result B) (b : B) :
  rbind r k = Ok b -> exists a, r = Ok a /\ k a = Ok b.
Proof.
  destruct r as [a|e]; simpl; intros H; [eauto | discriminate].
Qed.

Lemma store_spec (d d' : dict (list Q)) (name : string) (i : nat) (v : Q) :
  store d name i v = Ok d' ->
  same_but_row i d d' /\
  exists arr', dget d' name = Some arr' /\ nth_error arr' i = Some v.
Proof.
  unfold store.
  destruct (dict_item d name) as [arr|] eqn:Harr; simpl; [|discriminate].
  destruct (set_item arr i v) as [arr'|] eqn:Hset; simpl; [|discriminate].
  intros H. inversion H; subst.
  apply dict_item_some in Harr.
  split; [eapply same_but_row_set; eassumption|].
  exists arr'. rewrite dget_dset. rewrite String.eqb_refl.
  split; [reflexivity|]. apply (set_item_spec _ _ _ _ Hset).
Qed.

(** ** [np.where] and the bracketing indices *)

Lemma where_from_In (s : nat) (p : Q -> bool) (x : list Q) (i : nat) :
  In i (where_from s p x) <->
  (s <= i)%nat /\ exists a, nth_error x (i - s) = Some a /\ p a = true.
Proof.
  revert s. induction x as [|a x IH]; intros s; simpl.
  - split; [tauto|]. intros (_ & b & Hb & _). destruct (i - s)%nat; discriminate.
  - assert (Htail : In i (where_from (S s) p x) <->
                    (s < i)%nat /\ exists b, nth_error x (i - S s) = Some b /\ p b = true)
      by (rewrite IH; reflexivity).
    assert (Hshift : (s < i)%nat -> (i - s = S (i - S s))%nat) by lia.
    destruct (p a) eqn:Hpa; simpl; rewrite Htail; split.
    + intros [<- | (Hlt & b & Hb & Hpb)].
      * split; [lia|]. exists a. rewrite Nat.sub_diag. auto.
      * split; [lia|]. exists b. rewrite (Hshift Hlt). auto.
    + intros (Hle & b & Hb & Hpb).
      destruct (Nat.eq_dec s i) as [-> | Hne]; [now left | right].
      assert (Hlt : (s < i)%nat) by lia.
      split; [exact Hlt|]. exists b. rewrite (Hshift Hlt) in Hb. auto.
    + intros (Hlt & b & Hb & Hpb).
      split; [lia|]. exists b. rewrite (Hshift Hlt). auto.
    + intros (Hle & b & Hb & Hpb).
      destruct (Nat.eq_dec s i) as [-> | Hne].
      * rewrite Nat.sub_diag in Hb. simpl in Hb. congruence.
      * assert (Hlt : (s < i)%nat) by lia.
        split; [exact Hlt|]. exists b. rewrite (Hshift Hlt) in Hb. auto.
Qed.

Lemma where_from_sorted (s : nat) (p : Q -> bool) (x : list Q) :
  StronglySorted lt (where_from s p x).
Proof.
  revert s. induction x as [|a x IH]; intros s; simpl; [constructor|].
  destruct (p a); [|apply IH].
  constructor; [apply IH|].
  apply Forall_forall. intros i Hi. apply where_from_In in Hi. lia.
Qed.

Lemma last_item_cons {A} (a b : A) (l : list A) :
  last_item (a :: b :: l) = last_item (b :: l).
Proof.
  unfold last_item. simpl. now rewrite Nat.sub_0_r.
Qed.

Lemma sorted_last_max (l : list nat) (i : nat) :
  StronglySorted lt l -> last_item l = Ok i ->
  In i l /\ forall j, In j l -> (j <= i)%nat.
Proof.
  induction l as [|a l IH]; intros Hs H; [discriminate|].
  inversion Hs as [|? ? Hs' Hall]; subst.
  destruct l as [|b l].
  - inversion H; subst. split; [now left|].
    intros j [<- | []]. lia.
  - rewrite last_item_cons in H.
    destruct (IH Hs' H) as [Hin Hmax].
    split; [now right|].
    intros j [<- | Hj]; [|apply Hmax, Hj].
    rewrite Forall_forall in Hall. apply Nat.lt_le_incl, Hall, Hin.
Qed.

Lemma sorted_first_min (l : list nat) (i : nat) :
  StronglySorted lt l -> item l 0 = Ok i ->
  In i l /\ forall j, In j l -> (i <= j)%nat.
Proof.
  destruct l as [|a l]; simpl; intros Hs H; [discriminate|].
  inversion H; subst. inversion Hs as [|? ? _ Hall]; subst.
  split; [now left|].
  intros j [<- | Hj]; [lia|].
  rewrite Forall_forall in Hall. apply Nat.lt_le_incl, Hall, Hj.
Qed.

Lemma last_item_ok {A} (l : list A) : l <> [] -> exists a, last_item l = Ok a.
Proof.
  intros Hl. unfold last_item.
  destruct (nth_error l (length l - 1)) as [a|] eqn:Ha; [now exists a|].
  apply nth_error_None in Ha. destruct l; [congruence | simpl in Ha; lia].
Qed.

Lemma index_below_spec (q_mass : list Q) (m : Q) (im : nat) :
  index_below q_mass m = Ok im ->
  exists mim, nth_error q_mass im = Some mim /\ mim <= m /\
              forall j a, nth_error q_mass j = Some a -> a <= m -> (j <= im)%nat.
Proof.
  unfold index_below, where_. intros H.
  destruct (sorted_last_max _ _ (where_from_sorted _ _ _) H) as [Hin Hmax].
  apply where_from_In in Hin. destruct Hin as (_ & mim & Hmim & Hle).
  rewrite Nat.sub_0_r in Hmim. apply Qle_bool_iff in Hle.
  exists mim. split; [exact Hmim|]. split; [exact Hle|].
  intros j a Ha Haj. apply Hmax. apply where_from_In.
  split; [lia|]. exists a. rewrite Nat.sub_0_r. split; [exact Ha|].
  now apply Qle_bool_iff.
Qed.

Lemma index_above_spec (q_mass : list Q) (m : Q) (ip : nat) :
  index_above q_mass m = Ok ip ->
  exists mip, nth_error q_mass ip = Some mip /\ m < mip /\
              forall j a, nth_error q_mass j = Some a -> m < a -> (ip <= j)%nat.
Proof.
  unfold index_above, where_. intros H.
  destruct (sorted_first_min _ _ (where_from_sorted _ _ _) H) as [Hin Hmin].
  apply where_from_In in Hin. destruct Hin as (_ & mip & Hmip & Hlt).
  rewrite Nat.sub_0_r in Hmip. apply Qlt_bool_iff in Hlt.
  exists mip. split; [exact Hmip|]. split; [exact Hlt|].
  intros j a Ha Haj. apply Hmin. apply where_from_In.
  split; [lia|]. exists a. rewrite Nat.sub_0_r. split; [exact Ha|].
  now apply Qlt_bool_iff.
Qed.

Lemma index_below_ok (q_mass : list Q) (m a : Q) :
  In a q_mass -> a <= m -> exists im, index_below q_mass m = Ok im.
Proof.
  intros Hin Hle. apply In_nth_error in Hin. destruct Hin as [j Hj].
  apply last_item_ok. intros Hnil.
  assert (Hw : In j (where_ (fun x => Qle_bool x m) q_mass)).
  { apply where_from_In. split; [lia|]. exists a. rewrite Nat.sub_0_r.
    split; [exact Hj | now apply Qle_bool_iff]. }
  rewrite Hnil in Hw. destruct Hw.
Qed.

Lemma index_above_ok (q_mass : list Q) (m top : Q) :
  last_item q_mass = Ok top -> m < top ->
  exists ip, index_above q_mass m = Ok ip.
Proof.
  unfold last_item. intros Htop Hlt.
  destruct (nth_error q_mass (length q_mass - 1)) as [t|] eqn:Ht; [|discriminate].
  inversion Htop; subst t.
  assert (Hw : In (length q_mass - 1)%nat (where_ (fun x => Qlt_bool m x) q_mass)).
  { apply where_from_In. split; [lia|]. exists top. rewrite Nat.sub_0_r.
    split; [exact Ht | now apply Qlt_bool_iff]. }
  unfold index_above.
  destruct (where_ (fun x => Qlt_bool m x) q_mass) as [|i l]; [destruct Hw|].
  exists i. reflexivity.
Qed.

(** On a track whose masses do not decrease the two bracketing points are
    neighbours. *)
Lemma bracket_adjacent (q_mass : list Q) (m : Q) (im ip : nat) :
  nondecreasing q_mass ->
  index_below q_mass m = Ok im -> index_above q_mass m = Ok ip -> ip = S im.
Proof.
  intros Hmono Him Hip.
  destruct (index_below_spec _ _ _ Him) as (mim & Hmim & Hle & Hmax).
  destruct (index_above_spec _ _ _ Hip) as (mip & Hmip & Hlt & Hmin).
  assert (Hlt' : (im < ip)%nat).
  { destruct (Nat.lt_ge_cases im ip) as [|Hge]; [assumption|].
    pose proof (Hmono _ _ _ _ Hge Hmip Hmim). lra. }
  assert (Hlen : (S im < length q_mass)%nat).
  { assert (ip < length q_mass)%nat by (apply nth_error_Some; congruence). lia. }
  destruct (nth_error q_mass (S im)) as [a|] eqn:Ha;
    [|apply nth_error_None in Ha; lia].
  destruct (Qlt_le_dec m a) as [Hma | Ham].
  - pose proof (Hmin _ _ Ha Hma). lia.
  - pose proof (Hmax _ _ Ha Ham). lia.
Qed.

Lemma weight_spec (q_mass : list Q) (im ip : nat) (m mim mip h : Q) :
  nth_error q_mass im = Some mim -> nth_error q_mass ip = Some mip ->
  weight q_mass im ip m = Ok h -> h = (m - mim) / (mip - mim).
Proof.
  unfold weight, item. intros -> ->. simpl. congruence.
Qed.

Lemma weight_range (m mim mip : Q) :
  mim <= m -> m < mip ->
  0 <= (m - mim) / (mip - mim) /\ (m - mim) / (mip - mim) < 1.
Proof.
  intros Hle Hlt. split.
  - apply Qle_shift_div_l; lra.
  - apply Qlt_shift_div_r; lra.
Qed.

(** ** One pass of the sampling loop *)

Section Generate_facts.
Context (E : Env).
Variables (isogrid : grid E) (t_bursts : ndarray) (ns : nat)
          (feh_mean feh_disp : Q) (IMF_alpha : Q) (rand_seed : Z)
          (extra_giants : Q).

Lemma store_params_spec (params : list string) (q : dict (list Q))
      (im ip : nat) (h : Q) (i : nat) (d d' : dict (list Q)) :
  store_params params q im ip h i d = Ok d' ->
  same_but_row i d d' /\
  forall k arr, dget d k = Some arr ->
    exists arr', dget d' k = Some arr' /\
      (In k params ->
       exists v, interpolated q im ip h k = Ok v /\ nth_error arr' i = Some v) /\
      (~ In k params -> nth_error arr' i = nth_error arr i).
Proof.
  revert d. induction params as [|p rest IH]; simpl; intros d H.
  - inversion H; subst. split; [apply same_but_row_refl|].
    intros k arr Hk. exists arr. tauto.
  - destruct (interpolated q im ip h p) as [v|] eqn:Hv; simpl in H; [|discriminate].
    destruct (dict_item d p) as [arr0|] eqn:Harr0; simpl in H; [|discriminate].
    destruct (set_item arr0 i v) as [arr1|] eqn:Hset; simpl in H; [|discriminate].
    apply dict_item_some in Harr0.
    destruct (IH _ H) as [Hsame Hrows].
    split.
    { eapply same_but_row_trans; [|exact Hsame].
      eapply same_but_row_set; eassumption. }
    intros k arr Hk.
    assert (Hd1 : dget (dset d p arr1) k
                  = if String.eqb k p then Some arr1 else dget d k)
      by apply dget_dset.
    destruct (String.eqb k p) eqn:Hkp.
    + apply String.eqb_eq in Hkp. subst k.
      destruct (Hrows _ _ Hd1) as (arr' & Hget & Hin & Hnin).
      exists arr'. split; [exact Hget|]. split.
      * intros _. destruct (in_dec string_dec p rest) as [Hr | Hr]; [auto|].
        exists v. split; [exact Hv|]. rewrite (Hnin Hr).
        apply (set_item_spec _ _ _ _ Hset).
      * intros Hn. exfalso. apply Hn. now left.
    + rewrite Hk in Hd1.
      destruct (Hrows _ _ Hd1) as (arr' & Hget & Hin & Hnin).
      apply String.eqb_neq in Hkp.
      exists arr'. split; [exact Hget|]. split.
      * intros [Heq | Hr]; [congruence | auto].
      * intros Hn. apply Hnin. intros Hr. apply Hn. now right.
Qed.

Local Abbreviation draw_candidate' :=
  (draw_candidate E isogrid t_bursts ns feh_mean feh_disp IMF_alpha extra_giants).
Local Abbreviation body' :=
  (body E isogrid t_bursts ns feh_mean feh_disp IMF_alpha extra_giants).
Local Abbreviation sample_loop' :=
  (sample_loop E isogrid t_bursts ns feh_mean feh_disp IMF_alpha extra_giants).
Local Abbreviation generate' :=
  (generate_synth_stars E isogrid t_bursts ns feh_mean feh_disp IMF_alpha
                        rand_seed extra_giants).

Lemma min_mass_spec (q : dict (list Q)) (feh_test : Q) (split_ind i : nat)
      (m_min ph : Q) :
  min_mass E ns extra_giants q feh_test split_ind i = Ok (m_min, ph) ->
  ph = phase_of ns extra_giants i /\
  exists q_mass, dict_item q "Mini" = Ok q_mass /\ In m_min q_mass.
Proof.
  unfold min_mass, phase_of. destruct (ordinary_draw ns extra_giants i).
  - destruct (dict_item q "logT") as [logT|]; simpl; [|discriminate].
    destruct (argmin _) as [idx|]; simpl; [|discriminate].
    destruct (dict_item q "Mini") as [mini|]; simpl; [|discriminate].
    destruct (item mini idx) as [m|] eqn:Hm; simpl; [|discriminate].
    intros H; inversion H; subst. split; [reflexivity|].
    exists mini. split; [reflexivity|].
    apply item_some in Hm. eapply nth_error_In, Hm.
  - destruct (dict_item q "Mini") as [mini|]; simpl; [|discriminate].
    destruct (item mini split_ind) as [m|] eqn:Hm; simpl; [|discriminate].
    intros H; inversion H; subst. split; [reflexivity|].
    exists mini. split; [reflexivity|].
    apply item_some in Hm. eapply nth_error_In, Hm.
Qed.

(** What a completed draw has established (lines 89-118). *)
Lemma draw_candidate_inv (b : bursts) (i : nat) (g g' : rng E) (c : candidate) :
  draw_candidate' b i g = (Ok c, g') ->
  c_phase c = phase_of ns extra_giants i /\
  (exists q_mass, dict_item (c_q c) "Mini" = Ok q_mass /\ In (c_mmin c) q_mass) /\
  exists e, py_div (-1) (IMF_alpha - 1) = Ok e /\
            c_m c = c_mmin c * powr E (c_u c) e.
Proof.
  unfold draw_candidate, bind, lift, ret.
  destruct (draw_age E t_bursts b g) as [[age|] g1]; [|discriminate].
  destruct (np_normal E feh_mean feh_disp g1) as [[feh_test|] g2]; [|discriminate].
  destruct (get_isochrone E isogrid 0 feh_test age) as [[q afa]|]; [|discriminate].
  destruct (dict_item q "logT") as [logT|]; [|discriminate].
  destruct (split_index E logT) as [split_ind|]; [|discriminate].
  destruct (min_mass E ns extra_giants q feh_test split_ind i)
    as [[m_min ph]|] eqn:Hmin; [|discriminate].
  destruct (np_rand E g2) as [[u|] g3]; [|discriminate].
  destruct (py_div (-1) (IMF_alpha - 1)) as [e|]; [|discriminate].
  intros H; inversion H; subst; simpl.
  destruct (min_mass_spec _ _ _ _ _ _ Hmin) as [Hph Hmass].
  split; [exact Hph|]. split; [exact Hmass|].
  exists e. split; reflexivity.
Qed.

(** The two ways a pass of the loop completes (lines 124-138). *)
Lemma body_inv (params : list string) (b : bursts) (s s' : sampler)
      (g g' : rng E) :
  body' params b s g = (Ok s', g') ->
  exists c q_mass top,
    draw_candidate' b (iv s) g = (Ok c, g') /\
    dict_item (c_q c) "Mini" = Ok q_mass /\ last_item q_mass = Ok top /\
    ((c_m c < top /\
      exists d, accept params c q_mass (iv s) (data s) = Ok d /\
                s' = {| iv := S (iv s); ne := ne s; phase_i := c_phase c;
                        data := d |})
     \/
     (top <= c_m c /\
      s' = {| iv := iv s; ne := S (ne s); phase_i := c_phase c;
              data := data s |})).
Proof.
  unfold body, bind, lift, ret.
  destruct (draw_candidate' b (iv s) g) as [[c|] g1]; [|discriminate].
  destruct (dict_item (c_q c) "Mini") as [q_mass|] eqn:Hq; [|discriminate].
  destruct (last_item q_mass) as [top|] eqn:Htop; [|discriminate].
  destruct (Qlt_bool (c_m c) top) eqn:Hlt.
  - destruct (accept params c q_mass (iv s) (data s)) as [d|] eqn:Hacc;
      [|discriminate].
    intros H; inversion H; subst.
    exists c, q_mass, top. do 3 (split; [assumption || reflexivity|]).
    left. split; [now apply Qlt_bool_iff|]. exists d. split; [exact Hacc | reflexivity].
  - intros H; inversion H; subst.
    exists c, q_mass, top. do 3 (split; [assumption || reflexivity|]).
    right. split; [now apply Qlt_bool_false|]. reflexivity.
Qed.

(** The accepted branch (lines 125-134). *)
Lemma accept_spec (params : list string) (c : candidate) (q_mass : list Q)
      (i : nat) (d d' : dict (list Q)) :
  accept params c q_mass i d = Ok d' ->
  same_but_row i d d' /\
  (exists arr, dget d' "phase" = Some arr /\ nth_error arr i = Some (c_phase c)) /\
  exists im ip h,
    index_below q_mass (c_m c) = Ok im /\
    index_above q_mass (c_m c) = Ok ip /\
    weight q_mass im ip (c_m c) = Ok h /\
    forall param arr, In param params -> param <> "age" -> param <> "phase" ->
      dget d param = Some arr ->
      exists arr' v, dget d' param = Some arr' /\
                     interpolated (c_q c) im ip h param = Ok v /\
                     nth_error arr' i = Some v.
Proof.
  unfold accept.
  destruct (index_below q_mass (c_m c)) as [im|] eqn:Him; simpl; [|discriminate].
  destruct (index_above q_mass (c_m c)) as [ip|] eqn:Hip; simpl; [|discriminate].
  destruct (weight q_mass im ip (c_m c)) as [h|] eqn:Hh; simpl; [|discriminate].
  destruct (store_params params (c_q c) im ip h i d) as [d1|] eqn:H1; simpl;
    [|discriminate].
  destruct (store d1 "age" i (snd (c_afa c))) as [d2|] eqn:H2; simpl;
    [|discriminate].
  intros H3.
  destruct (store_params_spec _ _ _ _ _ _ _ _ H1) as [S1 R1].
  destruct (store_spec _ _ _ _ _ H2) as [S2 _].
  destruct (store_spec _ _ _ _ _ H3) as [S3 P3].
  split; [eauto using same_but_row_trans|].
  split; [exact P3|].
  exists im, ip, h. do 3 (split; [assumption || reflexivity|]).
  intros param arr Hin Hage Hphase Hget.
  destruct (R1 _ _ Hget) as (arr1 & Hget1 & Hv & _).
  destruct (Hv Hin) as (v & Hval & Hrow).
  unfold store in H2, H3.
  destruct (dict_item d1 "age") as [a1|] eqn:Ha1; simpl in H2; [|discriminate].
  destruct (set_item a1 i (snd (c_afa c))) as [a1'|]; simpl in H2; [|discriminate].
  inversion H2; subst d2.
  destruct (dict_item _ "phase") as [a2|] eqn:Ha2; simpl in H3; [|discriminate].
  destruct (set_item a2 i (c_phase c)) as [a2'|]; simpl in H3; [|discriminate].
  inversion H3; subst d'.
  apply dict_item_some in Ha1, Ha2.
  exists arr1, v. split; [|split; assumption].
  rewrite dget_dset.
  destruct (String.eqb_spec param "phase") as [|_]; [contradiction|].
  rewrite dget_dset.
  destruct (String.eqb_spec param "age") as [|_]; [contradiction|].
  exact Hget1.
Qed.

(** ** The loop *)

(** A property kept by every pass holds when the loop ends, and the loop
    ends only with [iv >= ns]. *)
Lemma sample_loop_inv (P : sampler -> Prop) (params : list string) (b : bursts) :
  (forall s g s' g', P s -> (iv s < ns)%nat ->
                     body' params b s g = (Ok s', g') -> P s') ->
  forall fuel s g s' g',
    P s -> sample_loop' fuel params b s g = Some (Ok s', g') ->
    P s' /\ (ns <= iv s')%nat.
Proof.
  intros Hstep. induction fuel as [|fuel IH]; intros s g s' g' HP; simpl;
    destruct (Nat.ltb_spec (iv s) ns) as [Hlt | Hge];
    try discriminate.
  - intros H; inversion H; subst. auto.
  - destruct (body' params b s g) as [[s1|e] g1] eqn:Hb; [|discriminate].
    apply IH. eapply Hstep; eassumption.
  - intros H; inversion H; subst. auto.
Qed.

Lemma dget_init_data (params : list string) (k : string) :
  In k (params ++ ["age"; "phase"]) ->
  dget (init_data ns params) k = Some (zeros ns).
Proof.
  unfold init_data.
  assert (Hgen : forall l d,
             In k l \/ dget d k = Some (zeros ns) ->
             dget (fold_left (fun d p => dset d p (zeros ns)) l d) k
             = Some (zeros ns)).
  { induction l as [|p l IH]; simpl; intros d H.
    - destruct H as [[] | H]. exact H.
    - apply IH. rewrite dget_dset.
      destruct (String.eqb_spec k p) as [-> | Hne]; [now right|].
      destruct H as [[Heq | Hin] | Hd]; [congruence | now left | now right]. }
  intros Hin. apply Hgen. now left.
Qed.

Lemma phases_written_start (params : list string) :
  phases_written ns extra_giants (start ns params).
Proof.
  split; [simpl; lia|].
  exists (zeros ns). simpl. split.
  - apply dget_init_data. apply in_or_app. right. simpl. tauto.
  - split; [apply repeat_length | intros i Hi; lia].
Qed.

Lemma phases_written_body (params : list string) (b : bursts)
      (s s' : sampler) (g g' : rng E) :
  phases_written ns extra_giants s -> (iv s < ns)%nat ->
  body' params b s g = (Ok s', g') -> phases_written ns extra_giants s'.
Proof.
  intros [Hle (col & Hcol & Hlen & Hrows)] Hlt Hb.
  apply body_inv in Hb.
  destruct Hb as (c & q_mass & top & Hc & _ & _ & [[_ (d & Hacc & ->)] | [_ ->]]).
  - apply draw_candidate_inv in Hc. destruct Hc as [Hph _].
    apply accept_spec in Hacc.
    destruct Hacc as (Hsame & (arr & Harr & Hrow) & _).
    destruct (Hsame _ _ Hcol) as (col' & Hcol' & Hlen' & Hother).
    split; [simpl; lia|]. simpl.
    exists col'. split; [exact Hcol'|]. split; [congruence|].
    intros i Hi. destruct (Nat.eq_dec i (iv s)) as [-> | Hne].
    + assert (arr = col') by congruence. subst arr.
      rewrite Hrow, Hph. reflexivity.
    + rewrite Hother by exact Hne. apply Hrows. lia.
  - split; [simpl; lia|]. simpl. exists col. auto.
Qed.

(** ** The phases of the accepted stars *)

(** The test of line 108 compares the running count with one number, so
    once it fails it fails for every later row. *)
Lemma ordinary_draw_down (i j : nat) :
  (i <= j)%nat -> ordinary_draw ns extra_giants j = true ->
  ordinary_draw ns extra_giants i = true.
Proof.
  unfold ordinary_draw, Qnat. intros Hij H.
  apply Qlt_bool_iff in H. apply Qlt_bool_iff.
  assert (Hle : inject_Z (Z.of_nat i) <= inject_Z (Z.of_nat j))
    by (rewrite <- Zle_Qle; lia).
  lra.
Qed.

(** A test that passes below every row it passes on splits the rows at one
    place. *)
Lemma down_closed_cut (p : nat -> bool) (n : nat) :
  (forall i j, (i <= j)%nat -> p j = true -> p i = true) ->
  exists k, (k <= n)%nat /\ forall i, (i < n)%nat -> (p i = true <-> (i < k)%nat).
Proof.
  intros Hdown. induction n as [|n (k & Hk & IH)].
  - exists 0%nat. split; [lia|]. intros i Hi. lia.
  - destruct (p n) eqn:Hn.
    + exists (S n). split; [lia|]. intros i Hi.
      split; [intros _; exact Hi|]. intros _. apply (Hdown i n); [lia | exact Hn].
    + exists k. split; [lia|]. intros i Hi.
      destruct (Nat.eq_dec i n) as [-> | Hne]; [|apply IH; lia].
      rewrite Hn. split; [discriminate | lia].
Qed.

Lemma map_const {A B} (f : A -> B) (c : B) (l : list A) :
  (forall a, In a l -> f a = c) -> map f l = repeat c (length l).
Proof.
  induction l as [|a l IH]; simpl; intros H; [reflexivity|].
  rewrite (H a) by now left. f_equal. apply IH. intros; apply H. now right.
Qed.

Lemma phase_column (col : list Q) (k : nat) :
  (k <= ns)%nat ->
  (forall i, (i < ns)%nat ->
             (ordinary_draw ns extra_giants i = true <-> (i < k)%nat)) ->
  length col = ns ->
  (forall i, (i < ns)%nat -> nth_error col i = Some (phase_of ns extra_giants i)) ->
  col = (repeat 0 k ++ repeat 1 (ns - k))%list.
Proof.
  intros Hk Hcut Hlen Hrows.
  assert (Hcol : col = map (phase_of ns extra_giants) (seq 0 ns)).
  { apply nth_error_ext. intros i.
    destruct (Nat.lt_ge_cases i ns) as [Hi | Hi].
    - rewrite Hrows by exact Hi.
      rewrite nth_error_map, nth_error_seq.
      destruct (Nat.ltb_spec i ns); [reflexivity | lia].
    - transitivity (@None Q); [apply nth_error_None; lia|].
      symmetry. apply nth_error_None. rewrite length_map, length_seq. exact Hi. }
  rewrite Hcol.
  replace (seq 0 ns) with (seq 0 (k + (ns - k))) by (f_equal; lia).
  rewrite seq_app, map_app. f_equal.
  - rewrite (map_const _ 0); [now rewrite length_seq|].
    intros i Hi. apply in_seq in Hi. unfold phase_of.
    rewrite (proj2 (Hcut i ltac:(lia))) by lia. reflexivity.
  - rewrite (map_const _ 1); [now rewrite length_seq|].
    intros i Hi. apply in_seq in Hi. unfold phase_of.
    destruct (ordinary_draw ns extra_giants i) eqn:Ho; [|reflexivity].
    apply (Hcut i ltac:(lia)) in Ho. lia.
Qed.


(** ** Acceptance *)

Lemma body_eq (params : list string) (b : bursts) (s : sampler)
      (g g' : rng E) (c : candidate) (q_mass : list Q) (top : Q) :
  draw_candidate' b (iv s) g = (Ok c, g') ->
  dict_item (c_q c) "Mini" = Ok q_mass -> last_item q_mass = Ok top ->
  body' params b s g
  = if Qlt_bool (c_m c) top then
      match accept params c q_mass (iv s) (data s) with
      | Ok d => (Ok {| iv := S (iv s); ne := ne s; phase_i := c_phase c;
                       data := d |}, g')
      | Raise e => (Raise e, g')
      end
    else (Ok {| iv := iv s; ne := S (ne s); phase_i := c_phase c;
                data := data s |}, g').
Proof.
  intros Hc Hq Htop. unfold body, bind, lift, ret.
  rewrite Hc, Hq, Htop.
  destruct (Qlt_bool (c_m c) top); [|reflexivity].
  destruct (accept params c q_mass (iv s) (data s)); reflexivity.
Qed.

Lemma store_ok (d : dict (list Q)) (name : string) (i : nat) (v : Q)
      (arr : list Q) :
  dget d name = Some arr -> (i < length arr)%nat ->
  exists d', store d name i v = Ok d'.
Proof.
  intros Hget Hi. unfold store.
  rewrite (proj2 (dict_item_some _ _ _) Hget). simpl.
  destruct (set_item_ok arr i v Hi) as [arr' ->]. simpl. eauto.
Qed.

Lemma store_params_ok (params : list string) (q : dict (list Q))
      (im ip : nat) (h : Q) (i : nat) (d : dict (list Q)) :
  (forall p, In p params ->
             exists col, dget q p = Some col /\
                         (im < length col)%nat /\ (ip < length col)%nat) ->
  (forall p, In p params ->
             exists arr, dget d p = Some arr /\ (i < length arr)%nat) ->
  exists d', store_params params q im ip h i d = Ok d'.
Proof.
  revert d. induction params as [|p rest IH]; simpl; intros d Hq Hd.
  - eauto.
  - destruct (Hq p (or_introl eq_refl)) as (col & Hcol & Him & Hip).
    destruct (Hd p (or_introl eq_refl)) as (arr & Harr & Hi).
    unfold interpolated.
    rewrite (proj2 (dict_item_some _ _ _) Hcol). simpl.
    apply nth_error_Some in Him, Hip.
    unfold item.
    destruct (nth_error col im) as [a|]; [|congruence].
    destruct (nth_error col ip) as [b'|]; [|congruence]. simpl.
    rewrite (proj2 (dict_item_some _ _ _) Harr). simpl.
    destruct (set_item_ok arr i ((1 - h) * a + h * b') Hi) as [arr' Hset].
    rewrite Hset. simpl.
    apply IH; [intros; apply Hq; now right|].
    intros p' Hp'. rewrite dget_dset.
    destruct (String.eqb_spec p' p) as [-> | Hne].
    + exists arr'. split; [reflexivity|].
      rewrite (proj1 (set_item_spec _ _ _ _ Hset)). exact Hi.
    + apply Hd. now right.
Qed.

Lemma accept_ok (params : list string) (c : candidate) (q_mass : list Q)
      (i : nat) (d : dict (list Q)) (top a : Q) :
  In a q_mass -> a <= c_m c ->
  last_item q_mass = Ok top -> c_m c < top ->
  track_ok params (c_q c) q_mass -> data_ready ns params d -> (i < ns)%nat ->
  exists d', accept params c q_mass i d = Ok d'.
Proof.
  intros Ha Hle Htop Hlt Htrack Hdata Hi.
  destruct (index_below_ok _ _ _ Ha Hle) as [im Him].
  destruct (index_above_ok _ _ _ Htop Hlt) as [ip Hip].
  destruct (index_below_spec _ _ _ Him) as (mim & Hmim & _).
  destruct (index_above_spec _ _ _ Hip) as (mip & Hmip & _).
  unfold accept. rewrite Him, Hip. simpl.
  unfold weight, item. rewrite Hmim, Hmip. simpl.
  destruct (store_params_ok params (c_q c) im ip ((c_m c - mim) / (mip - mim)) i d)
    as [d1 H1].
  { intros p Hp. destruct (Htrack p Hp) as (col & Hcol & Hlen).
    exists col. split; [exact Hcol|]. rewrite Hlen.
    split; apply nth_error_Some; congruence. }
  { intros p Hp. destruct (Hdata p) as (arr & Harr & Hlen);
      [apply in_or_app; now left|].
    exists arr. split; [exact Harr | lia]. }
  rewrite H1. simpl.
  destruct (store_params_spec _ _ _ _ _ _ _ _ H1) as [S1 _].
  destruct (Hdata "age") as (arr_a & Harr_a & Hlen_a);
    [apply in_or_app; right; simpl; tauto|].
  destruct (S1 _ _ Harr_a) as (arr_a' & Harr_a' & Hlen_a' & _).
  destruct (store_ok d1 "age" i (snd (c_afa c)) arr_a' Harr_a') as [d2 H2];
    [lia|].
  rewrite H2. simpl.
  destruct (store_spec _ _ _ _ _ H2) as [S2 _].
  destruct (Hdata "phase") as (arr_p & Harr_p & Hlen_p);
    [apply in_or_app; right; simpl; tauto|].
  destruct (S1 _ _ Harr_p) as (arr_p1 & Harr_p1 & Hlen_p1 & _).
  destruct (S2 _ _ Harr_p1) as (arr_p2 & Harr_p2 & Hlen_p2 & _).
  apply (store_ok d2 "phase" i (c_phase c) arr_p2 Harr_p2). lia.
Qed.

(** C4.  Once a pass has drawn its candidate, on a track that has every
    grid parameter and with a non-negative least mass and a power-law
    factor of at least one (an exponent [IMF_alpha > 1]): the pass accepts
    the star, counting it in [iv], exactly when the mass is strictly below
    the last mass of the track; otherwise it writes nothing and counts the
    draw in [ne]; and an accepted mass is at least [m_min]. *)
Theorem accepted_iff_below_track_maximum
        (params : list string) (b : bursts) (s : sampler) (g g' : rng E)
        (c : candidate) (q_mass : list Q) (top : Q) :
  draw_candidate' b (iv s) g = (Ok c, g') ->
  dict_item (c_q c) "Mini" = Ok q_mass -> last_item q_mass = Ok top ->
  track_ok params (c_q c) q_mass ->
  data_ready ns params (data s) -> (iv s < ns)%nat ->
  0 <= c_mmin c ->
  (forall e, py_div (-1) (IMF_alpha - 1) = Ok e -> 1 <= powr E (c_u c) e) ->
  ((exists s', body' params b s g = (Ok s', g') /\
               iv s' = S (iv s) /\ ne s' = ne s) <-> c_m c < top) /\
  (~ c_m c < top ->
   exists s', body' params b s g = (Ok s', g') /\
              iv s' = iv s /\ ne s' = S (ne s) /\ data s' = data s) /\
  (c_m c < top -> c_mmin c <= c_m c /\ c_m c < top).
Proof.
  intros Hc Hq Htop Htrack Hdata Hiv Hpos Hpow.
  pose proof (body_eq params b s g g' c q_mass top Hc Hq Htop) as Hbody.
  destruct (draw_candidate_inv _ _ _ _ _ Hc)
    as (_ & (q_mass' & Hq' & Hin) & e & He & Hm).
  assert (q_mass' = q_mass) by congruence. subst q_mass'.
  assert (Hmin : c_mmin c <= c_m c).
  { rewrite Hm. specialize (Hpow e He).
    rewrite <- (Qmult_1_r (c_mmin c)) at 1.
    rewrite (Qmult_comm (c_mmin c) 1), (Qmult_comm (c_mmin c) (powr E (c_u c) e)).
    apply Qmult_le_compat_r; assumption. }
  split; [split|split].
  - intros (s' & Hs' & Hiv' & _).
    rewrite Hbody in Hs'.
    destruct (Qlt_bool (c_m c) top) eqn:Hlt; [now apply Qlt_bool_iff|].
    inversion Hs'; subst s'. simpl in Hiv'. lia.
  - intros Hlt.
    destruct (accept_ok params c q_mass (iv s) (data s) top (c_mmin c)
                        Hin Hmin Htop Hlt Htrack Hdata Hiv) as [d Hd].
    rewrite Hbody, (proj2 (Qlt_bool_iff _ _) Hlt), Hd.
    eexists. split; [reflexivity|]. simpl. auto.
  - intros Hnlt.
    assert (Hf : Qlt_bool (c_m c) top = false).
    { destruct (Qlt_bool (c_m c) top) eqn:Hlt; [|reflexivity].
      apply Qlt_bool_iff in Hlt. contradiction. }
    rewrite Hbody, Hf. eexists. split; [reflexivity|]. simpl. auto.
  - intros Hlt. split; assumption.
Qed.

(** ** Interpolation *)

Lemma store_params_keys (params : list string) (q : dict (list Q))
      (im ip : nat) (h : Q) (i : nat) (d d' : dict (list Q)) :
  store_params params q im ip h i d = Ok d' ->
  forall p, In p params -> exists arr, dget d p = Some arr.
Proof.
  revert d. induction params as [|p0 rest IH]; simpl; intros d H p Hp;
    [destruct Hp|].
  destruct (interpolated q im ip h p0) as [v|]; simpl in H; [|discriminate].
  destruct (dict_item d p0) as [arr0|] eqn:Harr0; simpl in H; [|discriminate].
  destruct (set_item arr0 i v) as [arr1|]; simpl in H; [|discriminate].
  apply dict_item_some in Harr0.
  destruct Hp as [<- | Hp]; [eauto|].
  destruct (IH _ H p Hp) as [arr Harr]. rewrite dget_dset in Harr.
  destruct (String.eqb_spec p p0) as [-> | _]; eauto.
Qed.

Lemma interpolated_inv (q : dict (list Q)) (im ip : nat) (h : Q)
      (param : string) (v : Q) :
  interpolated q im ip h param = Ok v ->
  exists col va vb, dget q param = Some col /\
                    nth_error col im = Some va /\ nth_error col ip = Some vb /\
                    v = (1 - h) * va + h * vb.
Proof.
  unfold interpolated.
  destruct (dict_item q param) as [col|] eqn:Hcol; simpl; [|discriminate].
  destruct (item col im) as [va|] eqn:Hva; simpl; [|discriminate].
  destruct (item col ip) as [vb|] eqn:Hvb; simpl; [|discriminate].
  intros H; inversion H; subst.
  exists col, va, vb.
  apply dict_item_some in Hcol. apply item_some in Hva, Hvb. auto.
Qed.

(** C5, as the code has it.  When a pass accepts its star, the row it
    writes holds, for every grid parameter, the value of the expression
    [(1-h)*value[im] + h*value[ip]] with
    [h = (m - mass[im]) / (mass[ip] - mass[im])], where [im] is the last
    track point of mass at most [m] and [ip] the first of mass above [m]
    (the point after [im] when the masses do not decrease), and the weight
    [h] lies between 0 and 1.  That the value written lies between the
    values at the two points is not stated: it holds for rationals and not
    for the doubles the program computes with, see
    [interpolation_leaves_bracket]. *)
Theorem interpolated_from_bracketing_nodes
        (params : list string) (b : bursts) (s s' : sampler) (g g' : rng E) :
  body' params b s g = (Ok s', g') -> iv s' = S (iv s) ->
  exists c q_mass im ip mim mip,
    draw_candidate' b (iv s) g = (Ok c, g') /\
    dict_item (c_q c) "Mini" = Ok q_mass /\
    nth_error q_mass im = Some mim /\ nth_error q_mass ip = Some mip /\
    mim <= c_m c /\ c_m c < mip /\
    (forall j a, nth_error q_mass j = Some a -> a <= c_m c -> (j <= im)%nat) /\
    (forall j a, nth_error q_mass j = Some a -> c_m c < a -> (ip <= j)%nat) /\
    (nondecreasing q_mass -> ip = S im) /\
    let h := (c_m c - mim) / (mip - mim) in
    0 <= h /\ h <= 1 /\
    forall param, In param params -> param <> "age" -> param <> "phase" ->
      exists col va vb arr,
        dget (c_q c) param = Some col /\
        nth_error col im = Some va /\ nth_error col ip = Some vb /\
        dget (data s') param = Some arr /\
        nth_error arr (iv s) = Some ((1 - h) * va + h * vb).
Proof.
  intros Hb Hiv.
  apply body_inv in Hb.
  destruct Hb as (c & q_mass & top & Hc & Hq & Htop & [[Hlt (d & Hacc & ->)] | [_ ->]]);
    [|simpl in Hiv; lia].
  pose proof Hacc as Hacc'.
  apply accept_spec in Hacc.
  destruct Hacc as (_ & _ & im & ip & h & Him & Hip & Hh & Hrows).
  destruct (index_below_spec _ _ _ Him) as (mim & Hmim & Hle & Hmax).
  destruct (index_above_spec _ _ _ Hip) as (mip & Hmip & Hlt' & Hmin).
  pose proof (weight_spec _ _ _ _ _ _ _ Hmim Hmip Hh) as Hhv.
  destruct (weight_range _ _ _ Hle Hlt') as [Hh0 Hh1].
  exists c, q_mass, im, ip, mim, mip.
  do 8 (split; [assumption|]).
  split; [intros Hmono; eapply bracket_adjacent; eassumption|].
  rewrite <- Hhv in Hh0, Hh1 |- *. cbv zeta.
  split; [exact Hh0|]. split; [apply Qlt_le_weak, Hh1|].
  intros param Hin Hage Hphase.
  assert (Hkeys : exists arr0, dget (data s) param = Some arr0).
  { unfold accept in Hacc'. rewrite Him, Hip in Hacc'. simpl in Hacc'.
    rewrite Hh in Hacc'. simpl in Hacc'.
    destruct (store_params params (c_q c) im ip h (iv s) (data s)) as [d1|] eqn:H1;
      [|discriminate].
    eapply store_params_keys; eassumption. }
  destruct Hkeys as [arr0 Harr0].
  destruct (Hrows param arr0 Hin Hage Hphase Harr0) as (arr & v & Harr & Hv & Hrow).
  destruct (interpolated_inv _ _ _ _ _ _ Hv) as (col & va & vb & Hcol & Hva & Hvb & ->).
  exists col, va, vb, arr. simpl.
  do 4 (split; [assumption|]). assumption.
Qed.

(** ** Termination and the number of stars *)

Local Abbreviation accepts_within' :=
  (accepts_within E isogrid t_bursts ns feh_mean feh_disp IMF_alpha extra_giants).

Lemma data_ready_same_but_row (params : list string) (i : nat)
      (d d' : dict (list Q)) :
  data_ready ns params d -> same_but_row i d d' -> data_ready ns params d'.
Proof.
  intros Hd Hs k Hk. destruct (Hd k Hk) as (arr & Harr & Hlen).
  destruct (Hs _ _ Harr) as (arr' & Harr' & Hlen' & _).
  exists arr'. split; [exact Harr' | congruence].
Qed.

Lemma data_ready_start (params : list string) :
  data_ready ns params (data (start ns params)).
Proof.
  intros k Hk. exists (zeros ns). simpl.
  split; [now apply dget_init_data | apply repeat_length].
Qed.

Lemma data_ready_body (params : list string) (b : bursts) (s s' : sampler)
      (g g' : rng E) :
  data_ready ns params (data s) ->
  body' params b s g = (Ok s', g') ->
  data_ready ns params (data s') /\
  (iv s' = S (iv s) \/ iv s' = iv s).
Proof.
  intros Hd Hb. apply body_inv in Hb.
  destruct Hb as (c & q_mass & top & _ & _ & _ & [[_ (d & Hacc & ->)] | [_ ->]]);
    simpl.
  - apply accept_spec in Hacc. destruct Hacc as [Hsame _].
    split; [eapply data_ready_same_but_row; eassumption | now left].
  - split; [assumption | now right].
Qed.

Lemma sample_loop_step (fuel : nat) (params : list string) (b : bursts)
      (s s' : sampler) (g g' : rng E) :
  (iv s < ns)%nat -> body' params b s g = (Ok s', g') ->
  sample_loop' (S fuel) params b s g = sample_loop' fuel params b s' g'.
Proof.
  intros Hlt Hb. simpl.
  destruct (Nat.ltb_spec (iv s) ns); [|lia]. now rewrite Hb.
Qed.

Local Abbreviation reached' :=
  (reached E isogrid t_bursts ns feh_mean feh_disp IMF_alpha rand_seed
           extra_giants).

(** The arrays keep their [ns] rows in every state the loop goes
    through. *)
Lemma reached_data_ready (params : list string) (b : bursts)
      (s : sampler) (g : rng E) :
  reached' params b s g -> data_ready ns params (data s).
Proof.
  induction 1 as [|s s' g g' _ IH _ Hb]; [apply data_ready_start|].
  exact (proj1 (data_ready_body _ _ _ _ _ _ IH Hb)).
Qed.

(** The passes up to the next accepted star. *)
Lemma next_star (params : list string) (b : bursts) (k : nat) :
  forall s g,
    accepts_within' k params b s g = true ->
    reached' params b s g -> (iv s < ns)%nat ->
    exists j s1 g1,
      (j <= k)%nat /\ iv s1 = S (iv s) /\ reached' params b s1 g1 /\
      forall fuel, sample_loop' (j + fuel) params b s g
                   = sample_loop' fuel params b s1 g1.
Proof.
  induction k as [|k IH]; intros s g Hacc Hr Hlt; simpl in Hacc; [discriminate|].
  destruct (body' params b s g) as [[s'|e] g'] eqn:Hb; [|discriminate].
  pose proof (reached_pass _ _ _ _ _ _ _ _ _ _ _ _ _ _ _ Hr Hlt Hb) as Hr'.
  destruct (data_ready_body _ _ _ _ _ _ (reached_data_ready _ _ _ _ Hr) Hb)
    as [_ Hiv'].
  destruct (Nat.eqb_spec (iv s') (S (iv s))) as [Heq | Hne].
  - exists 1%nat, s', g'. split; [lia|]. split; [exact Heq|]. split; [exact Hr'|].
    intros fuel. now apply sample_loop_step.
  - assert (Hsame : iv s' = iv s) by (destruct Hiv'; [contradiction | assumption]).
    destruct (IH s' g' Hacc Hr') as (j & s1 & g1 & Hj & Hiv1 & Hr1 & Hrun);
      [lia|].
    exists (S j), s1, g1. split; [lia|]. split; [lia|]. split; [exact Hr1|].
    intros fuel. change (S j + fuel)%nat with (S (j + fuel)).
    rewrite (sample_loop_step _ _ _ _ _ _ _ Hlt Hb). apply Hrun.
Qed.

Lemma sample_loop_terminates (params : list string) (b : bursts) (k : nat) :
  (forall s g, reached' params b s g -> (iv s < ns)%nat ->
               accepts_within' k params b s g = true) ->
  forall n s g fuel,
    reached' params b s g -> (iv s + n = ns)%nat ->
    (n * k <= fuel)%nat ->
    exists s' g', sample_loop' fuel params b s g = Some (Ok s', g').
Proof.
  intros Hfair. induction n as [|n IH]; intros s g fuel Hr Hn Hfuel.
  - exists s, g.
    destruct fuel; simpl; destruct (Nat.ltb_spec (iv s) ns); try lia; reflexivity.
  - assert (Hlt : (iv s < ns)%nat) by lia.
    destruct (next_star params b k s g (Hfair s g Hr Hlt) Hr Hlt)
      as (j & s1 & g1 & Hj & Hiv1 & Hr1 & Hrun).
    replace fuel with (j + (fuel - j))%nat by (simpl in Hfuel; lia).
    rewrite Hrun. apply IH; [exact Hr1 | lia | simpl in Hfuel; lia].
Qed.

Local Abbreviation outcomes' :=
  (outcomes E isogrid t_bursts ns feh_mean feh_disp IMF_alpha extra_giants).

(** What the loop returns, against the passes it made: [iv] grew by the
    number of passes whose mass was below the top of the track, [ne] by the
    number of the others, and the last pass was of the first kind. *)
Lemma outcomes_spec (params : list string) (b : bursts) (fuel : nat) :
  forall s g s' g',
    sample_loop' fuel params b s g = Some (Ok s', g') ->
    let passes := outcomes' fuel params b s g in
    iv s' = (iv s + count_occ bool_dec passes true)%nat /\
    ne s' = (ne s + count_occ bool_dec passes false)%nat /\
    ((iv s < ns)%nat -> last passes false = true).
Proof.
  induction fuel as [|fuel IH]; intros s g s' g'; simpl;
    destruct (Nat.ltb_spec (iv s) ns) as [Hlt | Hge]; try discriminate.
  - intros H; inversion H; subst. simpl. repeat split; lia.
  - destruct (body' params b s g) as [[s1|e] g1] eqn:Hb; [|discriminate].
    intros Hloop. pose proof Hb as Hinv. apply body_inv in Hinv.
    destruct Hinv as (c & q_mass & top & Hc & Hq & Htop & Hcase).
    rewrite Hc. unfold below_top. rewrite Hq. simpl. rewrite Htop. simpl.
    destruct (IH _ _ _ _ Hloop) as (Hiv & Hne & Hlast).
    assert (Hrest : (ns <= iv s1)%nat -> outcomes' fuel params b s1 g1 = []).
    { intros H. destruct fuel; simpl;
        destruct (Nat.ltb_spec (iv s1) ns); try lia; reflexivity. }
    destruct Hcase as [[Hbelow (d & _ & Hs1)] | [Habove Hs1]].
    + rewrite (proj2 (Qlt_bool_iff _ _) Hbelow).
      rewrite Hs1 in Hiv, Hne, Hlast, Hrest. simpl in Hiv, Hne, Hlast, Hrest.
      rewrite Hs1. simpl.
      split; [lia|]. split; [exact Hne|]. intros _.
      destruct (Nat.lt_ge_cases (S (iv s)) ns) as [Hmore | Hdone].
      * specialize (Hlast Hmore).
        destruct (outcomes' fuel params b _ g1) as [|t rest];
          [discriminate Hlast | exact Hlast].
      * now rewrite (Hrest Hdone).
    + rewrite (proj2 (Qlt_bool_false _ _) Habove).
      rewrite Hs1 in Hiv, Hne, Hlast. simpl in Hiv, Hne, Hlast.
      rewrite Hs1. simpl.
      split; [exact Hiv|]. split; [lia|]. intros _.
      specialize (Hlast Hlt).
      destruct (outcomes' fuel params b _ g1) as [|t rest];
        [discriminate Hlast | exact Hlast].
  - intros H; inversion H; subst. simpl. repeat split; lia.
Qed.


(** ** Determinism *)

Lemma sample_loop_more_fuel (params : list string) (b : bursts) (fuel : nat) :
  forall s g r extra,
    sample_loop' fuel params b s g = Some r ->
    sample_loop' (fuel + extra) params b s g = Some r.
Proof.
  induction fuel as [|fuel IH]; intros s g r extra; simpl;
    destruct (Nat.ltb_spec (iv s) ns) as [Hlt | Hge]; try discriminate.
  - intros H. destruct extra; simpl;
      destruct (Nat.ltb_spec (iv s) ns); try lia; exact H.
  - destruct (body' params b s g) as [[s'|e] g']; [apply IH | auto].
  - auto.
Qed.

Lemma generate_more_fuel (fuel extra : nat) (g0 : rng E)
      (r : result synth * rng E) :
  generate' fuel g0 = Some r -> generate' (fuel + extra) g0 = Some r.
Proof.
  unfold generate_synth_stars.
  destruct (burst_setup t_bursts) as [b|e]; [|auto].
  destruct (sample_loop' fuel _ b _ _) as [r'|] eqn:Hl; [|discriminate].
  rewrite (sample_loop_more_fuel _ _ _ _ _ _ extra Hl). auto.
Qed.

(** C9.  The function seeds the generator itself (line 55), so what it
    returns does not depend on the state the generator was in before the
    call, nor on how many passes the loop was allowed beyond those it
    needs: two runs with the same seed and the same inputs that return
    give the same sample, and leave the generator in the same state. *)
Theorem same_seed_same_sample (fuel1 fuel2 : nat) (g1 g2 : rng E)
        (r1 r2 : result synth * rng E) :
  generate' fuel1 g1 = Some r1 -> generate' fuel2 g2 = Some r2 -> r1 = r2.
Proof.
  intros H1 H2.
  apply (generate_more_fuel _ fuel2) in H1.
  apply (generate_more_fuel _ fuel1) in H2.
  rewrite (Nat.add_comm fuel2 fuel1) in H2.
  change (generate' (fuel1 + fuel2) g2) with (generate' (fuel1 + fuel2) g1) in H2.
  congruence.
Qed.

(** ** The shape of the burst array *)

Lemma generate_setup_fails (e : exn) (fuel : nat) (g0 : rng E) :
  burst_setup t_bursts = Raise e ->
  generate' fuel g0 = Some (Raise e, seed E rand_seed).
Proof.
  intros H. unfold generate_synth_stars. now rewrite H.
Qed.

(** C3, as the code has it.  Line 58 only asks whether the array is 1-D;
    every other array is treated as a list of bursts.  A 0-D array makes
    [t_bursts[:, 2]] raise before the loop, whatever [ns].  An array of
    three or more dimensions (with a third entry along its second axis)
    passes the set-up: with [ns = 0] the function returns normally, and
    with [ns > 0] it is the first pass of the loop that raises, in
    [np.random.choice], with no draw made. *)
Theorem burst_shape_handling :
  (ndim t_bursts = 0%nat ->
   forall fuel g0,
     generate' fuel g0 = Some (Raise IndexError, seed E rand_seed)) /\
  (forall n0 n1 n2 rest,
     shape t_bursts = n0 :: n1 :: n2 :: rest -> (2 < n1)%nat ->
     (exists prob, burst_setup t_bursts = Ok (Multi_burst prob n0) /\
                   (1 < ndim prob)%nat) /\
     (ns = 0%nat ->
      forall fuel g0, exists out,
        generate' fuel g0 = Some (Ok out, seed E rand_seed)) /\
     ((0 < ns)%nat ->
      forall fuel g0,
        generate' 0 g0 = None /\
        generate' (S fuel) g0 = Some (Raise ValueError, seed E rand_seed))).
Proof.
  split.
  - intros Hd fuel g0. apply generate_setup_fails.
    unfold burst_setup, column. unfold ndim in *.
    destruct (shape t_bursts) as [|n0 l]; [reflexivity | discriminate].
  - intros n0 n1 n2 rest Hshape Hn1.
    assert (Hsetup : exists prob, burst_setup t_bursts = Ok (Multi_burst prob n0) /\
                                  shape prob = n0 :: n2 :: rest).
    { unfold burst_setup, column, ndim. rewrite Hshape. simpl.
      destruct (Nat.ltb_spec 2 n1) as [_|]; [|lia]. simpl.
      eexists. split; reflexivity. }
    destruct Hsetup as (prob & Hsetup & Hprob).
    split; [exists prob; split; [exact Hsetup | unfold ndim; rewrite Hprob; simpl; lia]|].
    split.
    + intros -> fuel g0. unfold generate_synth_stars. rewrite Hsetup.
      destruct fuel; simpl; eexists; reflexivity.
    + intros Hns fuel g0.
      assert (Hchoice : forall g, np_choice E n0 prob g = (Raise ValueError, g)).
      { intros g. unfold np_choice, bind, lift, choice_check, ndim.
        rewrite Hprob. simpl.
        destruct (n0 =? 0)%nat; reflexivity. }
      unfold generate_synth_stars. rewrite Hsetup. simpl.
      destruct (Nat.ltb_spec 0 ns) as [_|]; [|lia].
      split; [reflexivity|].
      unfold body, draw_candidate, draw_age, bind. rewrite Hchoice. reflexivity.
Qed.
End Generate_facts.

(** ** The observations *)

Lemma mem_In (k : string) (l : list string) : mem k l = true <-> In k l.
Proof.
  unfold mem. rewrite existsb_exists. split.
  - intros (x & Hx & Heq). apply String.eqb_eq in Heq. now subst.
  - intros H. exists k. split; [exact H | apply String.eqb_refl].
Qed.

Lemma bind_ok {S A B} (m : M S A) (k : A -> M S B) (g g' : S) (b : B) :
  bind m k g = (Ok b, g') ->
  exists a g1, m g = (Ok a, g1) /\ k a g1 = (Ok b, g').
Proof.
  unfold bind. destruct (m g) as [[a|e] g1]; [eauto | discriminate].
Qed.

Lemma lift_ok {S A} (r : result A) (g g' : S) (a : A) :
  lift r g = (Ok a, g') -> r = Ok a /\ g' = g.
Proof.
  unfold lift. intros H. inversion H. auto.
Qed.

Lemma ret_ok {S A} (a a' : A) (g g' : S) :
  ret a g = (Ok a', g') -> a' = a /\ g' = g.
Proof.
  unfold ret. intros H. inversion H. auto.
Qed.

Lemma draws_spec (E : Env) {A} (P : A -> Prop) (m : M (rng E) A) :
  (forall g x g', m g = (Ok x, g') -> P x) ->
  forall n g xs g', draws E n m g = (Ok xs, g') -> length xs = n /\ Forall P xs.
Proof.
  intros HP. induction n as [|n IH]; simpl; intros g xs g' H.
  - apply ret_ok in H. destruct H as [-> _]. split; [reflexivity | constructor].
  - apply bind_ok in H. destruct H as (x & g1 & Hx & H).
    apply bind_ok in H. destruct H as (xs' & g2 & Hxs & H).
    apply ret_ok in H. destruct H as [-> _].
    destruct (IH _ _ _ Hxs) as [Hlen Hall].
    split; [simpl; congruence|]. constructor; [eapply HP; eassumption | exact Hall].
Qed.

Lemma np_normal_n_spec (E : Env) (loc sigma : Q) (n : nat) (g g' : rng E)
      (xs : list Q) :
  np_normal_n E loc sigma n g = (Ok xs, g') ->
  length xs = n /\ (sigma == 0 -> Forall (fun x => x == loc) xs).
Proof.
  unfold np_normal_n. destruct (Qlt_bool sigma 0); [discriminate|].
  intros H. split.
  - eapply (draws_spec E (fun _ => True)); [auto | exact H].
  - intros Hs. eapply (draws_spec E); [|exact H].
    intros g1 x g2. unfold np_normal.
    destruct (Qlt_bool sigma 0); [discriminate|].
    destruct (gauss E g1) as [z g3]. intros Hx. inversion Hx; subst.
    rewrite Hs. ring.
Qed.

Lemma broadcast2_same_length (f : Q -> Q -> Q) (x y : list Q) :
  length x = length y ->
  broadcast2 f x y = Ok (map (fun ab => f (fst ab) (snd ab)) (combine x y)).
Proof.
  intros H. unfold broadcast2. rewrite H, Nat.eqb_refl. reflexivity.
Qed.

Lemma broadcast2_length (f : Q -> Q -> Q) (x y r : list Q) :
  length x = length y -> broadcast2 f x y = Ok r -> length r = length x.
Proof.
  intros H. rewrite broadcast2_same_length by exact H.
  intros Hr. inversion Hr. rewrite length_map, length_combine, H. apply Nat.min_id.
Qed.

(** Adding an array of zeros, of the same length, changes nothing. *)
Lemma add_zero_noise (a noise obs : list Q) :
  length a = length noise -> Forall (fun x => x == 0) noise ->
  broadcast2 Qplus a noise = Ok obs -> Forall2 Qeq obs a.
Proof.
  intros Hlen Hz. rewrite broadcast2_same_length by exact Hlen.
  intros H. inversion H; subst; clear H.
  revert noise Hlen Hz. induction a as [|x a IH]; intros [|z noise] Hlen Hz;
    simpl in *; try discriminate; [constructor|].
  inversion Hz; subst.
  constructor; [lra | apply IH; [lia | assumption]].
Qed.

Section Observe_facts.
Context (E : Env).
Variables (synthfile : synth) (obs_params : dict Q)
          (plx_distribution : plx_policy).

Local Abbreviation make_synth_obs' :=
  (make_synth_obs E synthfile obs_params plx_distribution).

(** C7.  When a known photometric band is among the requested parameters
    and ['plx'] is not, [make_synth_obs] raises [ValueError], and the
    generator is in the state it was called in: no noise has been
    drawn. *)
Theorem band_without_plx_fails (band : string) (g : rng E) :
  In band known_filters -> In band (keys obs_params) ->
  ~ In "plx" (keys obs_params) ->
  make_synth_obs' g = (Raise ValueError, g).
Proof.
  intros Hband Hreq Hplx. unfold make_synth_obs.
  assert (Hmags : In band (obs_mags obs_params)).
  { unfold obs_mags. apply filter_In. split; [exact Hband | now apply mem_In]. }
  assert (Hlen : (0 <? length (obs_mags obs_params))%nat = true).
  { apply Nat.ltb_lt. destruct (obs_mags obs_params); [destruct Hmags | simpl; lia]. }
  assert (Hnp : mem "plx" (keys obs_params) = false).
  { destruct (mem "plx" (keys obs_params)) eqn:Hm; [|reflexivity].
    apply mem_In in Hm. contradiction. }
  rewrite Hlen, Hnp. reflexivity.
Qed.

Local Abbreviation n := (cfg_ns synthfile).
Local Abbreviation observed_from' :=
  (observed_from E obs_params plx_distribution n).

Lemma load_true_spec (names : list string) :
  forall td td',
    load_true E synthfile names td = Ok td' ->
    forall k,
      (In k names -> k <> "plx" ->
       exists col, dget (s_data synthfile) k = Some col /\
                   dget td' k = Some (loaded E k col)) /\
      (~ In k names \/ k = "plx" -> dget td' k = dget td k).
Proof.
  induction names as [|o rest IH]; simpl; intros td td' H k.
  - inversion H; subst. split; [intros [] | reflexivity].
  - destruct (String.eqb_spec o "plx") as [-> | Ho].
    + destruct (IH _ _ H k) as [IH1 IH2]. split.
      * intros [<- | Hin] Hk; [congruence | auto].
      * intros [Hn | ->]; apply IH2;
          [left; intros Hr; apply Hn; now right | now right].
    + destruct (dget (s_data synthfile) o) as [col|] eqn:Hcol; [|discriminate].
      assert (H' : load_true E synthfile rest (dset td o (loaded E o col)) = Ok td').
      { unfold loaded. destruct (String.eqb o "logT"); exact H. }
      destruct (IH _ _ H' k) as [IH1 IH2]. split.
      * intros Hin Hk.
        destruct (in_dec string_dec k rest) as [Hr | Hr]; [auto|].
        destruct Hin as [<- | Hin]; [|contradiction].
        exists col. split; [exact Hcol|].
        rewrite IH2 by now left. rewrite dget_dset, String.eqb_refl. reflexivity.
      * intros Hk.
        assert (Hne : k <> o).
        { destruct Hk as [Hn | ->]; [|congruence].
          intros ->. apply Hn. now left. }
        rewrite IH2
          by (destruct Hk as [Hn | Hp];
              [left; intros Hr; apply Hn; now right | now right]).
        rewrite dget_dset. destruct (String.eqb_spec k o); [contradiction | reflexivity].
Qed.

Lemma apparent_spec (mags : list string) (td : dict (list Q)) (mu_true : list Q) :
  forall app app',
    apparent mags td mu_true app = Ok app' ->
    forall k, In k mags ->
      exists abs_mag a, dget td k = Some abs_mag /\
                        broadcast2 Qplus abs_mag mu_true = Ok a /\
                        dget app' k = Some a.
Proof.
  induction mags as [|mag rest IH]; simpl; intros app app' H k Hk; [destruct Hk|].
  destruct (dict_item td mag) as [abs_mag|] eqn:Habs; simpl in H; [|discriminate].
  destruct (broadcast2 Qplus abs_mag mu_true) as [a|] eqn:Ha; simpl in H;
    [|discriminate].
  apply dict_item_some in Habs.
  destruct (in_dec string_dec k rest) as [Hr | Hr]; [eapply IH; eassumption|].
  destruct Hk as [<- | Hk]; [|contradiction].
  exists abs_mag, a. split; [exact Habs|]. split; [exact Ha|].
  assert (Hkeep : forall l app0 app1,
             apparent l td mu_true app0 = Ok app1 -> ~ In mag l ->
             dget app1 mag = dget app0 mag).
  { induction l as [|m l IHl]; simpl; intros app0 app1 H0 Hn.
    - inversion H0; reflexivity.
    - destruct (dict_item td m) as [x|]; simpl in H0; [|discriminate].
      destruct (broadcast2 Qplus x mu_true) as [y|]; simpl in H0; [|discriminate].
      rewrite (IHl _ _ H0) by tauto. rewrite dget_dset.
      destruct (String.eqb_spec mag m); [subst; tauto | reflexivity]. }
  rewrite (Hkeep _ _ _ H Hr), dget_dset, String.eqb_refl. reflexivity.
Qed.

Lemma add_noise_spec (td app : dict (list Q)) (names : list string) :
  forall acc acc' g g',
    add_noise E obs_params plx_distribution names n td app acc g = (Ok acc', g') ->
    forall k,
      (In k names ->
       exists obs, dget (fst acc') k = Some obs /\ observed_from' td app k obs) /\
      (~ In k names -> dget (fst acc') k = dget (fst acc) k).
Proof.
  induction names as [|o rest IH]; intros [obs_data rel] acc' g g' H k.
  - simpl in H. apply ret_ok in H. destruct H as [-> _].
    split; [intros [] | reflexivity].
  - assert (Hstep : exists obs rel1 g1,
               observed_from' td app o obs /\
               add_noise E obs_params plx_distribution rest n td app
                         (dset obs_data o obs, rel1) g1 = (Ok acc', g')).
    { simpl in H. unfold observed_from.
      destruct (mem o (obs_mags obs_params)).
      - apply bind_ok in H. destruct H as (a & g1 & Ha & H).
        apply lift_ok in Ha. destruct Ha as [Ha ->].
        apply bind_ok in H. destruct H as (sigma & g2 & Hs & H).
        apply lift_ok in Hs. destruct Hs as [Hs ->].
        apply bind_ok in H. destruct H as (noise & g3 & Hn & H).
        apply bind_ok in H. destruct H as (obs & g4 & Ho & H).
        apply lift_ok in Ho. destruct Ho as [Ho ->].
        apply dict_item_some in Ha, Hs.
        exists obs, rel, g3. split; [|exact H].
        exists a, sigma, noise, g, g3. auto.
      - destruct (String.eqb o "plx" && is_skymapper plx_distribution)%bool.
        + apply bind_ok in H. destruct H as (rel' & g1 & Hrel & H).
          apply bind_ok in H. destruct H as (t & g2 & Ht & H).
          apply lift_ok in Ht. destruct Ht as [Ht ->].
          apply bind_ok in H. destruct H as (t' & g3 & Ht' & H).
          apply lift_ok in Ht'. destruct Ht' as [Ht' ->].
          apply bind_ok in H. destruct H as (sc & g4 & Hsc & H).
          apply lift_ok in Hsc. destruct Hsc as [Hsc ->].
          apply bind_ok in H. destruct H as (noise & g5 & Hn & H).
          apply bind_ok in H. destruct H as (obs & g6 & Ho & H).
          apply lift_ok in Ho. destruct Ho as [Ho ->].
          assert (t' = t) by congruence. subst t'.
          apply dict_item_some in Ht.
          exists obs, rel', g5. split; [|exact H].
          exists t, rel', sc, noise, g1, g5. auto.
        + apply bind_ok in H. destruct H as (t & g1 & Ht & H).
          apply lift_ok in Ht. destruct Ht as [Ht ->].
          apply bind_ok in H. destruct H as (sigma & g2 & Hs & H).
          apply lift_ok in Hs. destruct Hs as [Hs ->].
          apply bind_ok in H. destruct H as (noise & g3 & Hn & H).
          apply bind_ok in H. destruct H as (obs & g4 & Ho & H).
          apply lift_ok in Ho. destruct Ho as [Ho ->].
          apply dict_item_some in Ht, Hs.
          exists obs, rel, g3. split; [|exact H].
          exists t, sigma, noise, g, g3. auto. }
    destruct Hstep as (obs & rel1 & g1 & Hform & Hrest).
    destruct (IH _ _ _ _ Hrest k) as [IH1 IH2]. simpl in IH2. split.
    + intros Hin.
      destruct (in_dec string_dec k rest) as [Hr | Hr]; [auto|].
      destruct Hin as [<- | Hin]; [|contradiction].
      exists obs. split; [|exact Hform].
      rewrite IH2 by exact Hr. rewrite dget_dset, String.eqb_refl. reflexivity.
    + intros Hn. simpl.
      rewrite IH2 by (intros Hr; apply Hn; now right).
      rewrite dget_dset.
      destruct (String.eqb_spec k o) as [-> | _]; [|reflexivity].
      exfalso. apply Hn. now left.
Qed.

Lemma dget_In {V} (d : dict V) (k : string) (v : V) :
  dget d k = Some v -> In k (map fst d).
Proof.
  induction d as [|[k0 v0] d IH]; simpl; [discriminate|].
  destruct (String.eqb_spec k k0) as [-> | _]; [now left | right; auto].
Qed.

Lemma dget_app_other {V} (l1 l2 : dict V) (name k : string) (v : V) :
  k <> name -> dget (l1 ++ (name, v) :: l2)%list k = dget (l1 ++ l2)%list k.
Proof.
  intros Hne. induction l1 as [|[k0 v0] l1 IH]; simpl.
  - destruct (String.eqb_spec k name); [contradiction | reflexivity].
  - destruct (String.eqb k k0); [reflexivity | exact IH].
Qed.

Lemma df_insert_keeps (df df' : list (string * list Q)) (pos : nat)
      (name : string) (values : list Q) :
  df_insert df pos name values = Ok df' ->
  forall k c, dget df k = Some c -> dget df' k = Some c.
Proof.
  unfold df_insert. intros H k c Hk.
  destruct (mem name (map fst df)) eqn:Hm; [discriminate|].
  assert (Hne : k <> name).
  { intros ->. apply dget_In in Hk. apply mem_In in Hk. congruence. }
  destruct df as [|[k0 c0] df0]; [discriminate|].
  destruct (length values =? length c0)%nat; [|discriminate].
  inversion H; subst.
  rewrite dget_app_other by exact Hne.
  rewrite firstn_skipn. exact Hk.
Qed.

Lemma add_unc_keeps (td : dict (list Q)) (rel : list Q) (cols : list string) :
  forall i df df',
    add_unc obs_params plx_distribution cols i n td rel df = Ok df' ->
    forall k c, dget df k = Some c -> dget df' k = Some c.
Proof.
  induction cols as [|column rest IH]; simpl; intros i df df' H k c Hk.
  - inversion H; subst. exact Hk.
  - match type of H with
    | rbind ?u _ = _ => destruct u as [unc|]; simpl in H; [|discriminate]
    end.
    destruct (df_insert df (length obs_params - i) (column ++ "_unc") unc)
      as [df1|] eqn:H1; simpl in H; [|discriminate].
    eapply IH; [exact H|]. eapply df_insert_keeps; eassumption.
Qed.

Lemma from_dict_ok (d : dict (list Q)) (df : list (string * list Q)) :
  from_dict d = Ok df -> df = d.
Proof.
  unfold from_dict. destruct d as [|[k c] d]; [congruence|].
  destruct (forallb _ _); [congruence | discriminate].
Qed.

(** What a completed call has done, step by step. *)
Lemma make_synth_obs_inv (g g' : rng E) (o : observed) :
  make_synth_obs' g = (Ok o, g') ->
  exists td0 obs_data g1 g2,
    (obs_mags obs_params <> [] -> mem "plx" (keys obs_params) = true) /\
    load_true E synthfile (keys obs_params) [] = Ok td0 /\
    (forall k, k <> "plx" -> dget (true_data o) k = dget td0 k) /\
    (mem "plx" (keys obs_params) = true ->
     exists plx_true,
       draw_plx_true E plx_distribution n g = (Ok plx_true, g1) /\
       dget (true_data o) "plx" = Some plx_true /\
       apparent (obs_mags obs_params) (true_data o)
                (map (fun p => 5 * log10 E (100 / p)) plx_true)
                (map (fun x => (x, [])) (obs_mags obs_params))
       = Ok (app_mags_true o)) /\
    add_noise E obs_params plx_distribution (keys obs_params) n
              (true_data o) (app_mags_true o)
              (map (fun x => (x, [])) (keys obs_params), []) g1
    = (Ok (obs_data, plx_rel_err o), g2) /\
    forall k c, dget obs_data k = Some c -> dget (frame o) k = Some c.
Proof.
  unfold make_synth_obs.
  destruct ((0 <? length (obs_mags obs_params))%nat
            && negb (mem "plx" (keys obs_params)))%bool eqn:Hcheck;
    [discriminate|].
  assert (Hmags : obs_mags obs_params <> [] -> mem "plx" (keys obs_params) = true).
  { intros Hne. apply andb_false_iff in Hcheck.
    destruct Hcheck as [Hc | Hc].
    - apply Nat.ltb_ge in Hc. destruct (obs_mags obs_params); [congruence|].
      simpl in Hc. lia.
    - now apply negb_false_iff in Hc. }
  intros H.
  apply bind_ok in H. destruct H as (td0 & g0 & Hload & H).
  apply lift_ok in Hload. destruct Hload as [Hload ->].
  apply bind_ok in H. destruct H as ([td app] & g1 & Hplx & H).
  apply bind_ok in H. destruct H as ([obs_data rel] & g2 & Hnoise & H).
  apply bind_ok in H. destruct H as (df0 & g3 & Hdf0 & H).
  apply lift_ok in Hdf0. destruct Hdf0 as [Hdf0 ->].
  apply bind_ok in H. destruct H as (df & g4 & Hdf & H).
  apply lift_ok in Hdf. destruct Hdf as [Hdf ->].
  apply ret_ok in H. destruct H as [-> ->]. simpl.
  apply from_dict_ok in Hdf0. subst df0.
  exists td0, obs_data, g1, g2.
  split; [exact Hmags|].
  split; [exact Hload|].
  destruct (mem "plx" (keys obs_params)) eqn:Hmem.
  - apply bind_ok in Hplx. destruct Hplx as (plx_true & g5 & Hdraw & Hplx).
    apply bind_ok in Hplx. destruct Hplx as (app0 & g6 & Happ & Hplx).
    apply lift_ok in Happ. destruct Happ as [Happ ->].
    apply ret_ok in Hplx. destruct Hplx as [Heq ->].
    inversion Heq; subst td app; clear Heq.
    split.
    { intros k Hk. rewrite dget_dset.
      destruct (String.eqb_spec k "plx"); [contradiction | reflexivity]. }
    split.
    { intros _. exists plx_true. split; [exact Hdraw|].
      split; [|exact Happ].
      rewrite dget_dset, String.eqb_refl. reflexivity. }
    split; [exact Hnoise|].
    eapply add_unc_keeps; eassumption.
  - apply ret_ok in Hplx. destruct Hplx as [Heq ->].
    inversion Heq; subst td app; clear Heq.
    split; [reflexivity|].
    split; [discriminate|].
    split; [exact Hnoise|].
    eapply add_unc_keeps; eassumption.
Qed.

Lemma logT_not_a_band : mem "logT" (obs_mags obs_params) = false.
Proof.
  destruct (mem "logT" (obs_mags obs_params)) eqn:Hm; [|reflexivity].
  apply mem_In in Hm. unfold obs_mags in Hm. apply filter_In in Hm.
  destruct Hm as [Hm _]. simpl in Hm.
  repeat (destruct Hm as [Hm | Hm]; [discriminate|]). destruct Hm.
Qed.

(** C10.  In a completed call the true value of every requested parameter
    other than ['plx'] is the array stored in the synthetic sample, except
    for ['logT'], whose true value is [10**logT]; and the observed
    ['logT'] column of the table is [10**logT] plus normal noise of the
    requested uncertainty. *)
Theorem logT_observed_in_kelvin (g g' : rng E) (o : observed) :
  make_synth_obs' g = (Ok o, g') ->
  (forall k, In k (keys obs_params) -> k <> "plx" ->
     exists col, dget (s_data synthfile) k = Some col /\
                 dget (true_data o) k
                 = Some (if String.eqb k "logT" then map (pow10 E) col else col)) /\
  (In "logT" (keys obs_params) ->
     exists col sigma noise g1 g2 obs,
       dget (s_data synthfile) "logT" = Some col /\
       dget obs_params "logT" = Some sigma /\
       np_normal_n E 0 sigma n g1 = (Ok noise, g2) /\
       broadcast2 Qplus (map (pow10 E) col) noise = Ok obs /\
       dget (frame o) "logT" = Some obs).
Proof.
  intros H. apply make_synth_obs_inv in H.
  destruct H as (td0 & obs_data & g1 & g2 & _ & Hload & Htd & _ & Hnoise & Hframe).
  assert (Htrue : forall k, In k (keys obs_params) -> k <> "plx" ->
            exists col, dget (s_data synthfile) k = Some col /\
                        dget (true_data o) k = Some (loaded E k col)).
  { intros k Hk Hne. rewrite (Htd k Hne).
    apply (load_true_spec _ _ _ Hload k); assumption. }
  split; [exact Htrue|].
  intros Hin.
  destruct (Htrue "logT" Hin) as (col & Hcol & Ht); [discriminate|].
  destruct (proj1 (add_noise_spec _ _ _ _ _ _ _ Hnoise "logT") Hin)
    as (obs & Hobs & Hform).
  unfold observed_from in Hform. rewrite logT_not_a_band in Hform.
  simpl in Hform.
  destruct Hform as (t & sigma & noise & ga & gb & Ht' & Hs & Hn & Hb).
  assert (t = map (pow10 E) col) by (unfold loaded in Ht; simpl in Ht; congruence).
  subst t.
  exists col, sigma, noise, ga, gb, obs.
  repeat split; try assumption. apply Hframe. exact Hobs.
Qed.

Lemma draw_plx_true_length (g g' : rng E) (plx_true : list Q) :
  draw_plx_true E plx_distribution n g = (Ok plx_true, g') ->
  length plx_true = n.
Proof.
  unfold draw_plx_true. destruct plx_distribution as [| |c]; intros H.
  - apply bind_ok in H. destruct H as (x & g1 & Hx & H).
    apply ret_ok in H. destruct H as [-> _].
    rewrite length_map. apply (np_normal_n_spec _ _ _ _ _ _ _ Hx).
  - apply bind_ok in H. destruct H as (x & g1 & Hx & H).
    apply ret_ok in H. destruct H as [-> _].
    rewrite length_map. apply (np_normal_n_spec _ _ _ _ _ _ _ Hx).
  - apply ret_ok in H. destruct H as [-> _].
    unfold ones. now rewrite length_map, repeat_length.
Qed.

Lemma plx_not_a_band : mem "plx" (obs_mags obs_params) = false.
Proof.
  destruct (mem "plx" (obs_mags obs_params)) eqn:Hm; [|reflexivity].
  apply mem_In in Hm. unfold obs_mags in Hm. apply filter_In in Hm.
  destruct Hm as [Hm _]. simpl in Hm.
  repeat (destruct Hm as [Hm | Hm]; [discriminate|]). destruct Hm.
Qed.

(** C8, as the code has it.  On a sample whose arrays all have [ns] rows
    and with every requested uncertainty equal to 0, a completed call has
    observed, for every requested parameter other than a parallax under
    the ['Skymapper'] distribution, exactly the true values: the true
    apparent magnitudes for a photometric band, the true values (the drawn
    parallax for ['plx'], [10**logT] for ['logT']) for the others. *)
Theorem zero_sigma_observes_truth (g g' : rng E) (o : observed) :
  (forall k col, dget (s_data synthfile) k = Some col -> length col = n) ->
  (forall k sigma, dget obs_params k = Some sigma -> sigma == 0) ->
  make_synth_obs' g = (Ok o, g') ->
  forall k, In k (keys obs_params) ->
    (String.eqb k "plx" && is_skymapper plx_distribution)%bool = false ->
    exists obs tv,
      dget (frame o) k = Some obs /\
      dget (if mem k (obs_mags obs_params) then app_mags_true o
            else true_data o) k = Some tv /\
      Forall2 Qeq obs tv.
Proof.
  intros Hwf Hzero H k Hk Hsky. apply make_synth_obs_inv in H.
  destruct H as (td0 & obs_data & g1 & g2 & Hmags & Hload & Htd & Hplx & Hnoise
                 & Hframe).
  assert (Hlen : forall k' t, In k' (keys obs_params) ->
                              dget (true_data o) k' = Some t -> length t = n).
  { intros k' t Hk' Ht. destruct (String.eqb_spec k' "plx") as [-> | Hne].
    - destruct (Hplx (proj2 (mem_In _ _) Hk')) as (plx_true & Hdraw & Hp & _).
      assert (t = plx_true) by congruence. subst t.
      eapply draw_plx_true_length; eassumption.
    - rewrite (Htd k' Hne) in Ht.
      destruct (proj1 (load_true_spec _ _ _ Hload k') Hk' Hne) as (col & Hcol & Hl).
      assert (t = loaded E k' col) by congruence. subst t.
      unfold loaded. destruct (String.eqb k' "logT");
        [rewrite length_map|]; eapply Hwf; eassumption. }
  destruct (proj1 (add_noise_spec _ _ _ _ _ _ _ Hnoise k) Hk) as (obs & Hobs & Hform).
  unfold observed_from in Hform. rewrite Hsky in Hform.
  exists obs.
  destruct (mem k (obs_mags obs_params)) eqn:Hband.
  - destruct Hform as (a & sigma & noise & ga & gb & Ha & Hs & Hn & Hb).
    exists a. split; [apply Hframe, Hobs|]. split; [exact Ha|].
    destruct (np_normal_n_spec _ _ _ _ _ _ _ Hn) as [Hnl Hnz].
    apply mem_In in Hband.
    assert (Hne : obs_mags obs_params <> [])
      by (intros Hnil; rewrite Hnil in Hband; destruct Hband).
    destruct (Hplx (Hmags Hne)) as (plx_true & Hdraw & _ & Happ).
    destruct (apparent_spec _ _ _ _ _ Happ k Hband) as (abs_mag & a' & Habs & Hba & Ha').
    assert (a' = a) by congruence. subst a'.
    assert (Hkeys : In k (keys obs_params)).
    { unfold obs_mags in Hband. apply filter_In in Hband.
      now apply mem_In. }
    assert (Hal : length a = n).
    { assert (Hmu : length abs_mag
                    = length (map (fun p => 5 * log10 E (100 / p)) plx_true)).
      { rewrite length_map, (Hlen _ _ Hkeys Habs).
        symmetry. eapply draw_plx_true_length; eassumption. }
      rewrite (broadcast2_length _ _ _ _ Hmu Hba). eapply Hlen; eassumption. }
    apply (add_zero_noise a noise obs); [congruence | | exact Hb].
    eapply Forall_impl; [|apply Hnz; eapply Hzero; eassumption].
    intros x Hx. exact Hx.
  - destruct Hform as (t & sigma & noise & ga & gb & Ht & Hs & Hn & Hb).
    exists t. split; [apply Hframe, Hobs|]. split; [exact Ht|].
    destruct (np_normal_n_spec _ _ _ _ _ _ _ Hn) as [Hnl Hnz].
    apply (add_zero_noise t noise obs);
      [rewrite Hnl; eapply Hlen; eassumption | | exact Hb].
    eapply Forall_impl; [|apply Hnz; eapply Hzero; eassumption].
    intros x Hx. exact Hx.
Qed.
End Observe_facts.

(** * The properties on runs of the demo environment *)

Lemma split_fifty_witness_run :
  exists out g', Demo.run 50 (1 # 5) 100 = Some (Ok out, g').
Proof.
  destruct (Demo.run 50 (1 # 5) 100) as [[[out|e] g']|] eqn:Hrun;
    [eauto | vm_compute in Hrun; discriminate ..].
Defined.


(** The threshold of line 108 on doubles.  With [ns = 10] and
    [extra_giants = 0.7] the program computes
    [10 * (1 - 0.7) = 3.0000000000000004], so the star of row 3 is still an
    ordinary draw and six stars are forced giants; with the rational 7/10
    the product is 3 and row 3 is not ordinary.  The number of forced giants
    is therefore not [floor(ns * extra_giants)] in general.  With [ns = 50]
    and [extra_giants = 0.2] the computed threshold is exactly 40. *)
Lemma threshold_is_rounded :
  threshold64 10 0.7 = 3.0000000000000004%float /\
  ordinary_draw64 10 0.7 3 = true /\ ordinary_draw64 10 0.7 4 = false /\
  ordinary_draw 10 (7 # 10) 3 = false /\
  threshold64 50 0.2 = 40%float /\
  ordinary_draw64 50 0.2 39 = true /\ ordinary_draw64 50 0.2 40 = false.
Proof.
  repeat split; vm_compute; reflexivity.
Qed.


(** C3 as the specification words it fails: a burst array of three
    dimensions is not rejected before the loop.  With [ns = 0] the function
    returns its (empty) sample; with [ns = 1] the loop is entered, as the
    run without any pass allowed shows. *)
Lemma three_dim_bursts_not_rejected :
  ndim Demo.bursts_3d = 3%nat /\
  (exists out g',
     generate_synth_stars Demo.world tt Demo.bursts_3d 0 0 (1 # 10) 2 1 0 5 false
     = Some (Ok out, g')) /\
  generate_synth_stars Demo.world tt Demo.bursts_3d 1 0 (1 # 10) 2 1 0 0 false
  = None.
Proof.
  split; [reflexivity|]. split; [|reflexivity].
  eexists. eexists. vm_compute. reflexivity.
Qed.

Lemma burst_shape_handling_witness :
  ndim Demo.bursts_0d = 0%nat /\
  generate_synth_stars Demo.world tt Demo.bursts_0d 3 0 (1 # 10) 2 1 0 5 false
  = Some (Raise IndexError, true) /\
  shape Demo.bursts_3d = [1; 3; 1]%nat /\ (2 < 3)%nat /\
  generate_synth_stars Demo.world tt Demo.bursts_3d 3 0 (1 # 10) 2 1 0 5 false
  = Some (Raise ValueError, true).
Proof.
  split; [reflexivity|]. split.
  - exact (proj1 (burst_shape_handling Demo.world tt Demo.bursts_0d 3 0 (1 # 10) 2 1 0)
                 eq_refl 5%nat false).
  - split; [reflexivity|]. split; [lia|].
    destruct (proj2 (burst_shape_handling Demo.world tt Demo.bursts_3d 3 0 (1 # 10) 2 1 0)
                    1%nat 3%nat 1%nat [] eq_refl) as (_ & _ & Hloop); [lia|].
    destruct (Hloop ltac:(lia) 4%nat false) as [_ H]. exact H.
Defined.

Lemma demo_track_ok : track_ok Demo.params Demo.track [1; 2; 3; 4; 5; 6; 7; 8].
Proof.
  intros p [<- | [<- | [<- | []]]]; eexists; split; reflexivity.
Defined.

Lemma accepted_iff_below_track_maximum_witness :
  draw_candidate Demo.world tt Demo.one_burst 3 0 (1 # 10) 2 (1 # 2)
                 Single_burst 0 true = (Ok Demo.first_candidate, false) /\
  c_m Demo.first_candidate < 8 /\
  (exists s', body Demo.world tt Demo.one_burst 3 0 (1 # 10) 2 (1 # 2) Demo.params
                   Single_burst (start 3 Demo.params) true = (Ok s', false) /\
              iv s' = 1%nat /\ ne s' = 0%nat) /\
  c_mmin Demo.first_candidate <= c_m Demo.first_candidate.
Proof.
  assert (Hc : draw_candidate Demo.world tt Demo.one_burst 3 0 (1 # 10) 2 (1 # 2)
                              Single_burst (iv (start 3 Demo.params)) true
               = (Ok Demo.first_candidate, false)) by (vm_compute; reflexivity).
  assert (Hlt : c_m Demo.first_candidate < 8) by reflexivity.
  destruct (accepted_iff_below_track_maximum
              Demo.world tt Demo.one_burst 3 0 (1 # 10) 2 (1 # 2) Demo.params
              Single_burst (start 3 Demo.params) true false Demo.first_candidate
              [1; 2; 3; 4; 5; 6; 7; 8] 8 Hc eq_refl eq_refl demo_track_ok
              (data_ready_start 3 Demo.params))
    as (Hiff & _ & Hbounds).
  - simpl. lia.
  - intros H; discriminate H.
  - intros e He. vm_compute in He. inversion He; subst. intros H; discriminate H.
  - split; [exact Hc|]. split; [exact Hlt|].
    split; [exact (proj2 Hiff Hlt) | exact (proj1 (Hbounds Hlt))].
Defined.

Lemma first_pass_accepts :
  exists s',
    body Demo.world tt Demo.one_burst 3 0 (1 # 10) 2 (1 # 2) Demo.params
         Single_burst (start 3 Demo.params) true = (Ok s', false) /\
    iv s' = S (iv (start 3 Demo.params)).
Proof.
  destruct (body Demo.world tt Demo.one_burst 3 0 (1 # 10) 2 (1 # 2) Demo.params
                 Single_burst (start 3 Demo.params) true) as [[s'|e] g'] eqn:Hb;
    [|vm_compute in Hb; discriminate].
  pose proof Hb as Hb'. vm_compute in Hb'. inversion Hb'; subst.
  eexists. split; reflexivity.
Defined.

Lemma interpolated_from_bracketing_nodes_witness :
  exists s' c q_mass mim mip,
    body Demo.world tt Demo.one_burst 3 0 (1 # 10) 2 (1 # 2) Demo.params
         Single_burst (start 3 Demo.params) true = (Ok s', false) /\
    iv s' = S (iv (start 3 Demo.params)) /\
    draw_candidate Demo.world tt Demo.one_burst 3 0 (1 # 10) 2 (1 # 2)
                   Single_burst 0 true = (Ok c, false) /\
    dict_item (c_q c) "Mini" = Ok q_mass /\
    In mim q_mass /\ In mip q_mass /\ mim <= c_m c /\ c_m c < mip.
Proof.
  destruct first_pass_accepts as (s' & Hb & Hiv).
  destruct (interpolated_from_bracketing_nodes
              Demo.world tt Demo.one_burst 3 0 (1 # 10) 2 (1 # 2) Demo.params
              Single_burst (start 3 Demo.params) s' true false Hb Hiv)
    as (c & q_mass & im & ip & mim & mip & Hc & Hq & Him & Hip & Hle & Hlt & _).
  exists s', c, q_mass, mim, mip.
  repeat split; try assumption; eapply nth_error_In; eassumption.
Defined.

(** C5 as the specification words it fails on doubles.  A star of mass
    [m = 1.3] between track points of mass 1 and 2, for a parameter whose
    value is 3.6 at both points: the weight of line 129 is
    [0.30000000000000004], inside [0, 1], and line 132 stores
    [3.6000000000000005], which is not between the two values. *)
Lemma interpolation_leaves_bracket :
  (1 <=? 1.3)%float = true /\ (1.3 <? 2)%float = true /\
  weight64 1 2 1.3 = 0.30000000000000004%float /\
  (0 <=? weight64 1 2 1.3)%float = true /\
  (weight64 1 2 1.3 <? 1)%float = true /\
  interpolated64 3.6 3.6 (weight64 1 2 1.3) = 3.6000000000000005%float /\
  (interpolated64 3.6 3.6 (weight64 1 2 1.3) <=? 3.6)%float = false.
Proof.
  repeat split; vm_compute; reflexivity.
Qed.

(** In the demo environment a pass started in the generator state [true]
    draws a mass below the top of the track, and one started in [false] a
    mass at or above it. *)
Lemma demo_draw (ns : nat) (eg : Q) (i : nat) (g : bool) :
  exists c,
    draw_candidate Demo.world tt Demo.one_burst ns 0 (1 # 10) 2 eg Single_burst i g
    = (Ok c, negb g) /\
    c_q c = Demo.track /\
    In (c_mmin c, c_m c)
       (if g then [(1, 5 # 2); (3, 15 # 2)] else [(1, 8); (3, 24)]).
Proof.
  destruct g; cbv -[ordinary_draw]; destruct (ordinary_draw ns eg i);
    eexists; (split; [reflexivity|]); (split; [reflexivity|]); simpl; auto.
Qed.

Lemma demo_accepts (ns : nat) (eg : Q) (s : sampler) :
  data_ready ns Demo.params (data s) -> (iv s < ns)%nat ->
  exists s',
    body Demo.world tt Demo.one_burst ns 0 (1 # 10) 2 eg Demo.params
         Single_burst s true = (Ok s', false) /\
    iv s' = S (iv s).
Proof.
  intros Hd Hlt.
  destruct (demo_draw ns eg (iv s) true) as (c & Hc & Hq & Hm).
  assert (Hmini : dict_item (c_q c) "Mini" = Ok [1; 2; 3; 4; 5; 6; 7; 8])
    by (rewrite Hq; reflexivity).
  assert (Htop : last_item [1; 2; 3; 4; 5; 6; 7; 8] = Ok 8) by reflexivity.
  assert (Hfacts : c_m c < 8 /\ c_mmin c <= c_m c /\
                   In (c_mmin c) [1; 2; 3; 4; 5; 6; 7; 8]).
  { destruct Hm as [Hm | [Hm | []]]; inversion Hm; subst;
      (split; [reflexivity|]); (split; [intros H; discriminate H|]);
      simpl; auto. }
  destruct Hfacts as (Hbelow & Hle & Hin).
  assert (Htrack : track_ok Demo.params (c_q c) [1; 2; 3; 4; 5; 6; 7; 8])
    by (rewrite Hq; exact demo_track_ok).
  destruct (accept_ok ns Demo.params c _ (iv s) (data s) 8 (c_mmin c)
                      Hin Hle Htop Hbelow Htrack Hd Hlt) as [d Hacc].
  rewrite (body_eq Demo.world tt Demo.one_burst ns 0 (1 # 10) 2 eg Demo.params
                   Single_burst s true false c _ 8 Hc Hmini Htop).
  rewrite (proj2 (Qlt_bool_iff _ _) Hbelow), Hacc.
  eexists. split; reflexivity.
Qed.

Lemma demo_rejects (ns : nat) (eg : Q) (s : sampler) :
  exists s',
    body Demo.world tt Demo.one_burst ns 0 (1 # 10) 2 eg Demo.params
         Single_burst s false = (Ok s', true) /\
    iv s' = iv s /\ data s' = data s.
Proof.
  destruct (demo_draw ns eg (iv s) false) as (c & Hc & Hq & Hm).
  assert (Hmini : dict_item (c_q c) "Mini" = Ok [1; 2; 3; 4; 5; 6; 7; 8])
    by (rewrite Hq; reflexivity).
  assert (Htop : last_item [1; 2; 3; 4; 5; 6; 7; 8] = Ok 8) by reflexivity.
  assert (Habove : Qlt_bool (c_m c) 8 = false)
    by (destruct Hm as [Hm | [Hm | []]]; inversion Hm; subst; reflexivity).
  rewrite (body_eq Demo.world tt Demo.one_burst ns 0 (1 # 10) 2 eg Demo.params
                   Single_burst s false true c _ 8 Hc Hmini Htop).
  rewrite Habove. eexists. split; [reflexivity|]. split; reflexivity.
Qed.

(** In the demo environment every loop state is at most two passes away
    from an accepted star. *)
Lemma demo_fair (ns : nat) (eg : Q) (s : sampler) (g : bool) :
  data_ready ns Demo.params (data s) -> (iv s < ns)%nat ->
  accepts_within Demo.world tt Demo.one_burst ns 0 (1 # 10) 2 eg 2 Demo.params
                 Single_burst s g = true.
Proof.
  intros Hd Hlt. destruct g.
  - destruct (demo_accepts ns eg s Hd Hlt) as (s' & Hb & Hiv).
    cbn [accepts_within]. rewrite Hb, Hiv, Nat.eqb_refl. reflexivity.
  - destruct (demo_rejects ns eg s) as (s1 & Hb1 & Hiv1 & Hd1).
    cbn [accepts_within]. rewrite Hb1, Hiv1.
    destruct (Nat.eqb_spec (iv s) (S (iv s))) as [Heq | _]; [lia|].
    destruct (demo_accepts ns eg s1) as (s2 & Hb2 & Hiv2);
      [rewrite Hd1; exact Hd | lia |].
    rewrite Hb2, Hiv2, Hiv1, Nat.eqb_refl. reflexivity.
Qed.

(** With uniform numbers that are all 1/8 a pass draws a mass at or above
    the top of the track, whatever the generator state, although the least
    mass is below it. *)
Lemma dim_draw (ns : nat) (eg : Q) (i : nat) (g : bool) :
  exists c,
    draw_candidate Demo.dim_world tt Demo.one_burst ns 0 (1 # 10) 2 eg
                   Single_burst i g
    = (Ok c, negb g) /\
    c_q c = Demo.track /\
    In (c_mmin c, c_m c) [(1, 8); (3, 24)].
Proof.
  destruct g; cbv -[ordinary_draw]; destruct (ordinary_draw ns eg i);
    eexists; (split; [reflexivity|]); (split; [reflexivity|]); simpl; auto.
Qed.

Lemma dim_rejects (ns : nat) (eg : Q) (s : sampler) (g : bool) :
  exists s',
    body Demo.dim_world tt Demo.one_burst ns 0 (1 # 10) 2 eg Demo.params
         Single_burst s g = (Ok s', negb g) /\
    iv s' = iv s.
Proof.
  destruct (dim_draw ns eg (iv s) g) as (c & Hc & Hq & Hm).
  assert (Hmini : dict_item (c_q c) "Mini" = Ok [1; 2; 3; 4; 5; 6; 7; 8])
    by (rewrite Hq; reflexivity).
  assert (Htop : last_item [1; 2; 3; 4; 5; 6; 7; 8] = Ok 8) by reflexivity.
  assert (Habove : Qlt_bool (c_m c) 8 = false)
    by (destruct Hm as [Hm | [Hm | []]]; inversion Hm; subst; reflexivity).
  rewrite (body_eq Demo.dim_world tt Demo.one_burst ns 0 (1 # 10) 2 eg Demo.params
                   Single_burst s g (negb g) c _ 8 Hc Hmini Htop).
  rewrite Habove. eexists. split; reflexivity.
Qed.

Lemma dim_loop_runs_on (ns : nat) (eg : Q) (fuel : nat) :
  forall s g,
    (iv s < ns)%nat ->
    sample_loop Demo.dim_world tt Demo.one_burst ns 0 (1 # 10) 2 eg fuel
                Demo.params Single_burst s g = None.
Proof.
  induction fuel as [|fuel IH]; intros s g Hlt; simpl;
    destruct (Nat.ltb_spec (iv s) ns); try lia; [reflexivity|].
  destruct (dim_rejects ns eg s g) as (s' & Hb & Hiv).
  rewrite Hb. apply IH. lia.
Qed.



Lemma same_seed_same_sample_witness :
  exists r1 r2,
    generate_synth_stars Demo.world tt Demo.one_burst 3 0 (1 # 10) 2 1 (1 # 2)
                         10 false = Some r1 /\
    generate_synth_stars Demo.world tt Demo.one_burst 3 0 (1 # 10) 2 1 (1 # 2)
                         7 true = Some r2 /\
    r1 = r2.
Proof.
  destruct (generate_synth_stars Demo.world tt Demo.one_burst 3 0 (1 # 10) 2 1
                                 (1 # 2) 10 false) as [r1|] eqn:H1;
    [|vm_compute in H1; discriminate].
  destruct (generate_synth_stars Demo.world tt Demo.one_burst 3 0 (1 # 10) 2 1
                                 (1 # 2) 7 true) as [r2|] eqn:H2;
    [|vm_compute in H2; discriminate].
  exists r1, r2. split; [reflexivity|]. split; [reflexivity|].
  exact (same_seed_same_sample Demo.world tt Demo.one_burst 3 0 (1 # 10) 2 1
                               (1 # 2) 10 7 false true r1 r2 H1 H2).
Defined.

Lemma band_without_plx_fails_witness :
  In "J" known_filters /\ In "J" (keys [("J", 1 # 10)]) /\
  ~ In "plx" (keys [("J", 1 # 10)]) /\
  make_synth_obs Demo.world Demo.sample [("J", 1 # 10)] SN true
  = (Raise ValueError, true).
Proof.
  assert (H1 : In "J" known_filters) by (simpl; auto).
  assert (H2 : In "J" (keys [("J", 1 # 10)])) by (simpl; auto).
  assert (H3 : ~ In "plx" (keys [("J", 1 # 10)]))
    by (intros [H | []]; discriminate H).
  repeat (split; [assumption|]).
  exact (band_without_plx_fails Demo.world Demo.sample [("J", 1 # 10)] SN "J" true
                                H1 H2 H3).
Defined.

Lemma demo_sample_rows :
  forall k col, dget (s_data Demo.sample) k = Some col ->
                length col = cfg_ns Demo.sample.
Proof.
  intros k col. simpl.
  destruct (String.eqb k "logT"); [intros H; inversion H; reflexivity|].
  destruct (String.eqb k "J"); [intros H; inversion H; reflexivity | discriminate].
Defined.

Lemma demo_zero_sigmas :
  forall k sigma, dget [("logT", 0); ("J", 0); ("plx", 0)] k = Some sigma ->
                  sigma == 0.
Proof.
  intros k sigma. simpl.
  destruct (String.eqb k "logT"); [intros H; inversion H; reflexivity|].
  destruct (String.eqb k "J"); [intros H; inversion H; reflexivity|].
  destruct (String.eqb k "plx"); [intros H; inversion H; reflexivity | discriminate].
Defined.

Lemma zero_sigma_observes_truth_witness :
  exists o g' obs tv,
    make_synth_obs Demo.world Demo.sample [("logT", 0); ("J", 0); ("plx", 0)]
                   (Constant 10) true = (Ok o, g') /\
    dget (frame o) "J" = Some obs /\
    dget (app_mags_true o) "J" = Some tv /\
    Forall2 Qeq obs tv.
Proof.
  destruct (make_synth_obs Demo.world Demo.sample
                           [("logT", 0); ("J", 0); ("plx", 0)] (Constant 10) true)
    as [[o|e] g'] eqn:Hrun; [|vm_compute in Hrun; discriminate].
  destruct (zero_sigma_observes_truth
              Demo.world Demo.sample [("logT", 0); ("J", 0); ("plx", 0)]
              (Constant 10) true g' o demo_sample_rows demo_zero_sigmas Hrun "J")
    as (obs & tv & Hobs & Htv & Heq); [simpl; auto | reflexivity |].
  exists o, g', obs, tv. repeat split; assumption.
Defined.

Lemma skymapper_obs_run :
  make_synth_obs Demo.world Demo.sample [("plx", 0)] Skymapper true
  = Demo.skymapper_obs.
Proof.
  vm_compute. reflexivity.
Qed.

Lemma Forall2_head (a b : Q) (l l' : list Q) :
  Forall2 Qeq (a :: l) (b :: l') -> a == b.
Proof.
  intros H. inversion H; assumption.
Qed.

(** C8 as the specification words it fails: under the ['Skymapper']
    distribution the scale of the parallax noise is the true parallax times a
    drawn relative error, whatever uncertainty was requested; with the
    requested uncertainty 0 the observed parallaxes differ from the true
    ones. *)
Lemma skymapper_parallax_noisy :
  exists o g' obs tv,
    make_synth_obs Demo.world Demo.sample [("plx", 0)] Skymapper true = (Ok o, g') /\
    (forall k sigma, dget [("plx", 0)] k = Some sigma -> sigma == 0) /\
    dget (frame o) "plx" = Some obs /\
    dget (true_data o) "plx" = Some tv /\
    ~ Forall2 Qeq obs tv.
Proof.
  rewrite skymapper_obs_run. unfold Demo.skymapper_obs.
  eexists. eexists. eexists. eexists.
  split; [reflexivity|]. split.
  - intros k sigma. simpl.
    destruct (String.eqb k "plx"); [intros H; inversion H; reflexivity | discriminate].
  - split; [reflexivity|]. split; [reflexivity|].
    intros H. apply Forall2_head in H. apply Qeq_bool_iff in H.
    vm_compute in H. discriminate H.
Qed.

Lemma logT_observed_in_kelvin_witness :
  exists o g' obs,
    make_synth_obs Demo.world Demo.sample [("logT", 1 # 10)] SN true = (Ok o, g') /\
    dget (true_data o) "logT" = Some [10000; 1000] /\
    dget (frame o) "logT" = Some obs.
Proof.
  destruct (make_synth_obs Demo.world Demo.sample [("logT", 1 # 10)] SN true)
    as [[o|e] g'] eqn:Hrun; [|vm_compute in Hrun; discriminate].
  destruct (logT_observed_in_kelvin Demo.world Demo.sample [("logT", 1 # 10)] SN
                                    true g' o Hrun) as [Htrue Hobs].
  destruct (Htrue "logT") as (col & Hcol & Ht); [simpl; auto | discriminate |].
  destruct Hobs as (col' & sigma & noise & g1 & g2 & obs & _ & _ & _ & _ & Hf);
    [simpl; auto|].
  exists o, g', obs. split; [reflexivity|]. split; [|exact Hf].
  simpl in Hcol. inversion Hcol; subst col. exact Ht.
Defined.

(** * Further properties of [make_synth_obs] *)

Lemma nth_error_zip (f : Q -> Q -> Q) (x y : list Q) (i : nat) (a b : Q) :
  nth_error x i = Some a -> nth_error y i = Some b ->
  nth_error (map (fun ab => f (fst ab) (snd ab)) (combine x y)) i = Some (f a b).
Proof.
  revert y i. induction x as [|x0 x IH]; intros [|y0 y] [|i] Ha Hb;
    simpl in *; try discriminate.
  - inversion Ha; inversion Hb; reflexivity.
  - apply IH; assumption.
Qed.

Section Observe_more.
Context (E : Env).
Variables (synthfile : synth) (obs_params : dict Q)
          (plx_distribution : plx_policy).

Local Abbreviation make_synth_obs' :=
  (make_synth_obs E synthfile obs_params plx_distribution).
Local Abbreviation n := (cfg_ns synthfile).

Lemma load_true_missing (k : string) (names : list string) :
  In k names -> k <> "plx" -> dget (s_data synthfile) k = None ->
  forall td, load_true E synthfile names td = Raise KeyError.
Proof.
  intros Hin Hk Hnone.
  induction names as [|o rest IH]; intros td; simpl; [destruct Hin|].
  destruct (String.eqb_spec o "plx") as [-> | Ho].
  - destruct Hin as [Heq | Hin]; [congruence | now apply IH].
  - destruct (dget (s_data synthfile) o) as [col|] eqn:Hcol; [|reflexivity].
    destruct Hin as [Heq | Hin]; [congruence|].
    destruct (String.eqb o "logT"); now apply IH.
Qed.

(** A requested parameter other than ['plx'] that the synthetic sample does
    not hold makes the call raise [KeyError] (lines 197-206), once the check
    on magnitudes has passed; the generator is left in the state the call
    started in, so the failure comes before any parallax or noise is
    drawn. *)
Theorem missing_parameter_fails (k : string) (g : rng E) :
  (obs_mags obs_params = [] \/ In "plx" (keys obs_params)) ->
  In k (keys obs_params) -> k <> "plx" ->
  dget (s_data synthfile) k = None ->
  make_synth_obs' g = (Raise KeyError, g).
Proof.
  intros Hcheck Hin Hk Hnone. unfold make_synth_obs.
  assert (Hpass : ((0 <? length (obs_mags obs_params))%nat
                   && negb (mem "plx" (keys obs_params)))%bool = false).
  { apply andb_false_iff. destruct Hcheck as [-> | Hplx]; [now left | right].
    apply negb_false_iff. now apply mem_In. }
  rewrite Hpass. unfold bind, lift.
  now rewrite (load_true_missing k _ Hin Hk Hnone).
Qed.

(** A call that completes was given no negative uncertainty: for every
    requested parameter, other than the parallax under ['Skymapper'] (whose
    requested value is not read), the uncertainty is at least 0.  A negative
    one makes [np.random.normal] raise (lines 236 and 246). *)
Theorem negative_sigma_rejected (g g' : rng E) (o : observed)
        (k : string) (sigma : Q) :
  make_synth_obs' g = (Ok o, g') ->
  In k (keys obs_params) -> dget obs_params k = Some sigma ->
  (String.eqb k "plx" && is_skymapper plx_distribution)%bool = false ->
  0 <= sigma.
Proof.
  intros H Hin Hs Hsky. apply make_synth_obs_inv in H.
  destruct H as (td0 & obs_data & g1 & g2 & _ & _ & _ & _ & Hnoise & _).
  destruct (proj1 (add_noise_spec _ _ _ _ _ _ _ _ _ _ _ Hnoise k) Hin)
    as (obs & _ & Hform).
  unfold observed_from in Hform. rewrite Hsky in Hform.
  assert (Hn : exists noise ga gb, np_normal_n E 0 sigma n ga = (Ok noise, gb)).
  { destruct (mem k (obs_mags obs_params)).
    - destruct Hform as (a & s' & noise & ga & gb & _ & Hs' & Hn & _).
      assert (s' = sigma) by congruence. subst s'. eauto.
    - destruct Hform as (t & s' & noise & ga & gb & _ & Hs' & Hn & _).
      assert (s' = sigma) by congruence. subst s'. eauto. }
  destruct Hn as (noise & ga & gb & Hn). unfold np_normal_n in Hn.
  destruct (Qlt_bool sigma 0) eqn:Hneg; [discriminate|].
  now apply Qlt_bool_false.
Qed.

(** The distance modulus (lines 224-227).  In a call that completes on a
    sample whose arrays all have [ns] rows, the true apparent magnitude of
    every requested band is, star by star, the absolute magnitude stored in
    the sample plus [5 * log10(100 / plx_true)]. *)
Theorem apparent_magnitude_formula (g g' : rng E) (o : observed) (band : string) :
  (forall k col, dget (s_data synthfile) k = Some col -> length col = n) ->
  make_synth_obs' g = (Ok o, g') ->
  In band known_filters -> In band (keys obs_params) ->
  exists plx_true abs_mag app,
    dget (true_data o) "plx" = Some plx_true /\
    dget (s_data synthfile) band = Some abs_mag /\
    dget (app_mags_true o) band = Some app /\
    length plx_true = n /\ length app = n /\
    forall i a p, nth_error abs_mag i = Some a -> nth_error plx_true i = Some p ->
                  nth_error app i = Some (a + 5 * log10 E (100 / p)).
Proof.
  intros Hwf H Hband Hreq. apply make_synth_obs_inv in H.
  destruct H as (td0 & obs_data & g1 & g2 & Hmags & Hload & Htd & Hplx & _ & _).
  assert (Hin : In band (obs_mags obs_params)).
  { unfold obs_mags. apply filter_In. split; [exact Hband | now apply mem_In]. }
  assert (Hne : obs_mags obs_params <> [])
    by (intros Hnil; rewrite Hnil in Hin; destruct Hin).
  destruct (Hplx (Hmags Hne)) as (plx_true & Hdraw & Hp & Happ).
  destruct (apparent_spec _ _ _ _ _ Happ band Hin) as (abs_mag & app & Habs & Hb & Ha).
  assert (Hbp : band <> "plx").
  { intros ->. simpl in Hband.
    repeat (destruct Hband as [Hband | Hband]; [discriminate|]). destruct Hband. }
  assert (Hbl : band <> "logT").
  { intros ->. simpl in Hband.
    repeat (destruct Hband as [Hband | Hband]; [discriminate|]). destruct Hband. }
  rewrite (Htd band Hbp) in Habs.
  destruct (proj1 (load_true_spec _ _ _ _ _ Hload band) Hreq Hbp) as (col & Hcol & Hl).
  assert (Heq : abs_mag = col).
  { rewrite Hl in Habs. unfold loaded in Habs.
    destruct (String.eqb_spec band "logT"); [contradiction | congruence]. }
  subst col.
  pose proof (draw_plx_true_length _ _ _ _ _ _ Hdraw) as Hpl.
  assert (Hlen : length abs_mag
                 = length (map (fun p => 5 * log10 E (100 / p)) plx_true))
    by (rewrite length_map, Hpl; eapply Hwf; eassumption).
  exists plx_true, abs_mag, app.
  split; [exact Hp|]. split; [exact Hcol|]. split; [exact Ha|].
  split; [exact Hpl|].
  split; [rewrite (broadcast2_length _ _ _ _ Hlen Hb); eapply Hwf; eassumption|].
  intros i a p Hai Hpi.
  rewrite broadcast2_same_length in Hb by exact Hlen.
  inversion Hb; subst app.
  apply (nth_error_zip Qplus); [exact Hai|].
  rewrite nth_error_map, Hpi. reflexivity.
Qed.
End Observe_more.

(** ** The table written to the file *)

Lemma dset_keys {V} (d : dict V) (k : string) (v : V) :
  In k (map fst d) -> map fst (dset d k v) = map fst d.
Proof.
  induction d as [|[k0 v0] d IH]; simpl; intros Hin; [destruct Hin|].
  destruct (String.eqb_spec k k0) as [-> | Hne]; [reflexivity|].
  simpl. f_equal. apply IH. destruct Hin; [congruence | assumption].
Qed.

Lemma dget_NoDup_In {V} (d : dict V) (k : string) (v : V) :
  NoDup (map fst d) -> In (k, v) d -> dget d k = Some v.
Proof.
  induction d as [|[k0 v0] d IH]; simpl; intros Hnd Hin; [destruct Hin|].
  inversion Hnd as [|? ? Hnotin Hnd']; subst.
  destruct Hin as [Heq | Hin].
  - inversion Heq; subst. now rewrite String.eqb_refl.
  - destruct (String.eqb_spec k k0) as [-> | _]; [|now apply IH].
    exfalso. apply Hnotin. apply (in_map fst) in Hin. exact Hin.
Qed.

Lemma df_insert_inv (df df' : list (string * list Q)) (pos : nat)
      (name : string) (values : list Q) :
  df_insert df pos name values = Ok df' -> df <> [] ->
  ~ In name (map fst df) /\
  df' = (firstn pos df ++ (name, values) :: skipn pos df)%list /\
  (forall c, hd_error (map snd df) = Some c -> length values = length c).
Proof.
  unfold df_insert. intros H Hne.
  destruct (mem name (map fst df)) eqn:Hm; [discriminate|].
  split.
  { intros Hin. apply mem_In in Hin. congruence. }
  destruct df as [|[k0 c0] df0]; [congruence|].
  destruct (Nat.eqb_spec (length values) (length c0)) as [Hl|]; [|discriminate].
  inversion H; subst. split; [reflexivity|].
  intros c Hc. simpl in Hc. inversion Hc; subst. exact Hl.
Qed.

Section Table.
Context (E : Env).
Variables (synthfile : synth) (obs_params : dict Q)
          (plx_distribution : plx_policy).

Local Abbreviation make_synth_obs' :=
  (make_synth_obs E synthfile obs_params plx_distribution).
Local Abbreviation n := (cfg_ns synthfile).
Local Abbreviation add_noise' :=
  (add_noise E obs_params plx_distribution).
Local Abbreviation add_unc' := (add_unc obs_params plx_distribution).
Local Abbreviation unc_column' := (unc_column obs_params plx_distribution n).

(** One step of the loop of lines 233-246. *)
Lemma add_noise_step (td app : dict (list Q)) (o : string) (rest : list string)
      (obs_data : dict (list Q)) (rel : list Q) (acc' : dict (list Q) * list Q)
      (g g' : rng E) :
  add_noise' (o :: rest) n td app (obs_data, rel) g = (Ok acc', g') ->
  exists obs rel1 g1,
    add_noise' rest n td app (dset obs_data o obs, rel1) g1 = (Ok acc', g') /\
    ((String.eqb o "plx" && is_skymapper plx_distribution
      && negb (mem o (obs_mags obs_params)))%bool = true ->
     length rel1 = n) /\
    ((String.eqb o "plx" && is_skymapper plx_distribution
      && negb (mem o (obs_mags obs_params)))%bool = false ->
     rel1 = rel).
Proof.
  simpl. intros H.
  destruct (mem o (obs_mags obs_params)).
  - rewrite andb_false_r.
    apply bind_ok in H. destruct H as (a & g1 & Ha & H).
    apply lift_ok in Ha. destruct Ha as [Ha ->].
    apply bind_ok in H. destruct H as (sigma & g2 & Hs & H).
    apply lift_ok in Hs. destruct Hs as [Hs ->].
    apply bind_ok in H. destruct H as (noise & g3 & Hn & H).
    apply bind_ok in H. destruct H as (obs & g4 & Ho & H).
    apply lift_ok in Ho. destruct Ho as [Ho ->].
    exists obs, rel, g3. split; [exact H|]. split; [discriminate | reflexivity].
  - rewrite andb_true_r.
    destruct (String.eqb o "plx" && is_skymapper plx_distribution)%bool.
    + apply bind_ok in H. destruct H as (rel' & g1 & Hrel & H).
      apply bind_ok in H. destruct H as (t & g2 & Ht & H).
      apply lift_ok in Ht. destruct Ht as [Ht ->].
      apply bind_ok in H. destruct H as (t' & g3 & Ht' & H).
      apply lift_ok in Ht'. destruct Ht' as [Ht' ->].
      apply bind_ok in H. destruct H as (sc & g4 & Hsc & H).
      apply lift_ok in Hsc. destruct Hsc as [Hsc ->].
      apply bind_ok in H. destruct H as (noise & g5 & Hn & H).
      apply bind_ok in H. destruct H as (obs & g6 & Ho & H).
      apply lift_ok in Ho. destruct Ho as [Ho ->].
      exists obs, rel', g5. split; [exact H|]. split; [|discriminate].
      intros _. unfold np_choice_n in Hrel.
      apply bind_ok in Hrel. destruct Hrel as (u & g7 & _ & Hrel).
      apply bind_ok in Hrel. destruct Hrel as (idx & g8 & Hidx & Hrel).
      apply ret_ok in Hrel. destruct Hrel as [-> _].
      rewrite length_map.
      apply (draws_spec E (fun _ => True) _ (fun _ _ _ _ => I) _ _ _ _ Hidx).
    + apply bind_ok in H. destruct H as (t & g1 & Ht & H).
      apply lift_ok in Ht. destruct Ht as [Ht ->].
      apply bind_ok in H. destruct H as (sigma & g2 & Hs & H).
      apply lift_ok in Hs. destruct Hs as [Hs ->].
      apply bind_ok in H. destruct H as (noise & g3 & Hn & H).
      apply bind_ok in H. destruct H as (obs & g4 & Ho & H).
      apply lift_ok in Ho. destruct Ho as [Ho ->].
      exists obs, rel, g3. split; [exact H|]. split; [discriminate | reflexivity].
Qed.

Lemma add_noise_keys (td app : dict (list Q)) (names : list string) :
  forall acc acc' g g',
    (forall k, In k names -> In k (map fst (fst acc))) ->
    add_noise' names n td app acc g = (Ok acc', g') ->
    map fst (fst acc') = map fst (fst acc).
Proof.
  induction names as [|o rest IH]; intros [obs_data rel] acc' g g' Hin H.
  - simpl in H. apply ret_ok in H. destruct H as [-> _]. reflexivity.
  - apply add_noise_step in H. destruct H as (obs & rel1 & g1 & H & _).
    assert (Hk : map fst (dset obs_data o obs) = map fst obs_data)
      by (apply dset_keys; apply (Hin o); now left).
    assert (Hin' : forall k, In k rest ->
                             In k (map fst (fst (dset obs_data o obs, rel1)))).
    { intros k Hk'. simpl. rewrite Hk. apply (Hin k). now right. }
    rewrite (IH _ _ _ _ Hin' H). exact Hk.
Qed.

(** The steps of a completed call that build the table. *)
Lemma make_synth_obs_table (g g' : rng E) (o : observed) :
  make_synth_obs' g = (Ok o, g') ->
  exists obs_data g1 g2,
    add_noise' (keys obs_params) n (true_data o) (app_mags_true o)
               (map (fun x => (x, [])) (keys obs_params), []) g1
    = (Ok (obs_data, plx_rel_err o), g2) /\
    map fst obs_data = keys obs_params /\
    add_unc' (rev (map fst obs_data)) 0 n (true_data o) (plx_rel_err o) obs_data
    = Ok (frame o).
Proof.
  unfold make_synth_obs.
  destruct ((0 <? length (obs_mags obs_params))%nat
            && negb (mem "plx" (keys obs_params)))%bool; [discriminate|].
  intros H.
  apply bind_ok in H. destruct H as (td0 & g0 & Hload & H).
  apply bind_ok in H. destruct H as ([td app] & g1 & Hplx & H).
  apply bind_ok in H. destruct H as ([obs_data rel] & g2 & Hnoise & H).
  apply bind_ok in H. destruct H as (df0 & g3 & Hdf0 & H).
  apply lift_ok in Hdf0. destruct Hdf0 as [Hdf0 ->].
  apply bind_ok in H. destruct H as (df & g4 & Hdf & H).
  apply lift_ok in Hdf. destruct Hdf as [Hdf ->].
  apply ret_ok in H. destruct H as [-> ->]. simpl.
  apply from_dict_ok in Hdf0. subst df0.
  exists obs_data, g1, g2. split; [exact Hnoise|]. split; [|exact Hdf].
  assert (Hinit : map fst (map (fun x : string => (x, @nil Q)) (keys obs_params))
                  = keys obs_params)
    by (rewrite map_map; simpl; apply map_id).
  assert (Hin : forall k, In k (keys obs_params) ->
                          In k (map fst (fst (map (fun x : string => (x, @nil Q))
                                                  (keys obs_params), @nil Q))))
    by (intros k Hk; simpl; rewrite Hinit; exact Hk).
  pose proof (add_noise_keys _ _ _ _ _ _ _ Hin Hnoise) as Hk. simpl in Hk.
  rewrite Hk. exact Hinit.
Qed.

Lemma add_unc_cons (column : string) (rest : list string) (i : nat)
      (td : dict (list Q)) (rel : list Q) (df : list (string * list Q)) :
  add_unc' (column :: rest) i n td rel df
  = (unc <- unc_column' td rel column ;;
     df' <- df_insert df (length obs_params - i) (column ++ "_unc") unc ;;
     add_unc' rest (S i) n td rel df')%res.
Proof. reflexivity. Qed.

(** The loop of lines 250-256 puts every uncertainty column right after
    its parameter. *)
Lemma add_unc_interleaves (td : dict (list Q)) (rel : list Q) :
  let u := fun k => match unc_column' td rel k with Ok v => v | Raise _ => [] end in
  forall pre post df,
    (length pre + length post = length obs_params)%nat ->
    add_unc' (rev (map fst pre)) (length post) n td rel (pre ++ with_unc u post)
    = Ok df ->
    df = with_unc u (pre ++ post) /\
    forall k, In k (map fst pre) -> unc_column' td rel k = Ok (u k).
Proof.
  intros u pre. induction pre as [|[k c] pre IH] using rev_ind; intros post df Hlen H.
  - simpl in H. inversion H. split; [reflexivity | intros k []].
  - rewrite map_app, rev_app_distr in H. cbn [map rev app fst] in H.
    rewrite add_unc_cons in H.
    destruct (unc_column' td rel k) as [unc|] eqn:Hunc; simpl in H; [|discriminate].
    match type of H with
    | rbind ?ins _ = _ => destruct ins as [df1|] eqn:Hins; simpl in H; [|discriminate]
    end.
    rewrite length_app in Hlen. simpl in Hlen.
    apply df_insert_inv in Hins; [|destruct pre; discriminate].
    destruct Hins as (_ & Hdf1 & _).
    replace (length obs_params - length post)%nat with (length (pre ++ [(k, c)])) in Hdf1
      by (rewrite length_app; simpl; lia).
    rewrite firstn_app, firstn_all, Nat.sub_diag, firstn_0, app_nil_r in Hdf1.
    rewrite skipn_app, skipn_all, Nat.sub_diag, skipn_0 in Hdf1. simpl in Hdf1.
    subst df1.
    assert (Hu : unc = u k) by (unfold u; now rewrite Hunc).
    rewrite <- app_assoc.
    destruct (IH ((k, c) :: post) df) as [Hdf Hok]; [simpl; lia | |].
    { simpl. rewrite <- Hu. rewrite <- app_assoc in H. simpl in H. exact H. }
    split; [exact Hdf|].
    intros k' Hk'. rewrite map_app in Hk'. apply in_app_or in Hk'.
    destruct Hk' as [Hk' | [<- | []]]; [now apply Hok|].
    simpl. rewrite <- Hu. exact Hunc.
Qed.

(** The columns of the table written to the file (lines 249-256): every
    requested parameter, in the order of [obs_params], each followed
    immediately by its uncertainty column [<param>_unc]. *)
Theorem table_columns_interleaved (g g' : rng E) (o : observed) :
  make_synth_obs' g = (Ok o, g') ->
  map fst (frame o)
  = flat_map (fun k => [k; (k ++ "_unc")%string]) (keys obs_params).
Proof.
  intros H. apply make_synth_obs_table in H.
  destruct H as (obs_data & g1 & g2 & _ & Hkeys & Hunc).
  assert (Hlen : (length obs_data + length (@nil (string * list Q))
                  = length obs_params)%nat).
  { simpl. rewrite Nat.add_0_r.
    rewrite <- (length_map fst obs_data), Hkeys. unfold keys. apply length_map. }
  pose proof (add_unc_interleaves (true_data o) (plx_rel_err o) obs_data [] (frame o)
                                  Hlen) as Hframe.
  simpl in Hframe. rewrite app_nil_r in Hframe.
  rewrite (proj1 (Hframe Hunc)), <- Hkeys.
  unfold with_unc. clear. induction obs_data as [|[k c] d IH]; simpl; [reflexivity|].
  now rewrite IH.
Qed.

Lemma df_insert_nodup (df df' : list (string * list Q)) (pos : nat)
      (name : string) (values : list Q) :
  df_insert df pos name values = Ok df' ->
  NoDup (map fst df) -> NoDup (map fst df').
Proof.
  unfold df_insert. intros H Hnd.
  destruct (mem name (map fst df)) eqn:Hm; [discriminate|].
  assert (Hnew : ~ In name (map fst df))
    by (intros Hin; apply mem_In in Hin; congruence).
  destruct df as [|[k0 c0] df0].
  - inversion H. simpl. constructor; [intros [] | constructor].
  - destruct (length values =? length c0)%nat; [|discriminate].
    inversion H; subst.
    rewrite map_app. simpl.
    eapply Permutation_NoDup; [apply Permutation_middle|].
    constructor.
    + rewrite <- map_app, firstn_skipn. exact Hnew.
    + rewrite <- map_app, firstn_skipn. exact Hnd.
Qed.

Lemma add_unc_nodup (td : dict (list Q)) (rel : list Q) (cols : list string) :
  forall i df df',
    add_unc' cols i n td rel df = Ok df' ->
    NoDup (map fst df) -> NoDup (map fst df').
Proof.
  induction cols as [|column rest IH]; intros i df df' H Hnd.
  - simpl in H. inversion H; subst. exact Hnd.
  - rewrite add_unc_cons in H.
    destruct (unc_column' td rel column) as [unc|]; simpl in H; [|discriminate].
    match type of H with
    | rbind ?ins _ = _ => destruct ins as [df1|] eqn:Hins; simpl in H; [|discriminate]
    end.
    eapply IH; [exact H|]. eapply df_insert_nodup; eassumption.
Qed.

(** The table of a completed call, column by column. *)
Lemma frame_structure (g g' : rng E) (o : observed) :
  make_synth_obs' g = (Ok o, g') ->
  exists obs_data g1 g2 u,
    add_noise' (keys obs_params) n (true_data o) (app_mags_true o)
               (map (fun x => (x, [])) (keys obs_params), []) g1
    = (Ok (obs_data, plx_rel_err o), g2) /\
    map fst obs_data = keys obs_params /\
    frame o = with_unc u obs_data /\
    (forall k, In k (keys obs_params) ->
               unc_column' (true_data o) (plx_rel_err o) k = Ok (u k)) /\
    (NoDup (keys obs_params) -> NoDup (map fst (frame o))).
Proof.
  intros H. apply make_synth_obs_table in H.
  destruct H as (obs_data & g1 & g2 & Hnoise & Hkeys & Hunc).
  assert (Hlen : (length obs_data + length (@nil (string * list Q))
                  = length obs_params)%nat).
  { simpl. rewrite Nat.add_0_r.
    rewrite <- (length_map fst obs_data), Hkeys. unfold keys. apply length_map. }
  pose proof (add_unc_interleaves (true_data o) (plx_rel_err o) obs_data [] (frame o)
                                  Hlen) as Hframe.
  simpl in Hframe. rewrite app_nil_r in Hframe.
  destruct (Hframe Hunc) as [Hf Hok].
  exists obs_data, g1, g2. eexists.
  split; [exact Hnoise|]. split; [exact Hkeys|]. split; [exact Hf|].
  split; [intros k Hk; apply Hok; now rewrite Hkeys|].
  intros Hnd. eapply add_unc_nodup; [exact Hunc|]. now rewrite Hkeys.
Qed.

Lemma in_with_unc (u : string -> list Q) (df : list (string * list Q))
      (k : string) (c : list Q) :
  In (k, c) df -> In ((k ++ "_unc")%string, u k) (with_unc u df).
Proof.
  intros Hin. unfold with_unc. apply in_flat_map.
  exists (k, c). split; [exact Hin | simpl; auto].
Qed.

(** The uncertainty written for a parameter (line 256): in a completed
    call, for requested parameters with distinct names, the column
    [<param>_unc] of every parameter other than the parallax under
    ['Skymapper'] has [ns] rows, each equal to the requested uncertainty. *)
Theorem uncertainty_column_is_sigma (g g' : rng E) (o : observed)
        (k : string) (sigma : Q) :
  NoDup (keys obs_params) ->
  make_synth_obs' g = (Ok o, g') ->
  dget obs_params k = Some sigma ->
  (String.eqb k "plx" && is_skymapper plx_distribution)%bool = false ->
  exists unc,
    dget (frame o) (k ++ "_unc") = Some unc /\
    length unc = n /\ Forall (fun x => x == sigma) unc.
Proof.
  intros Hnd H Hs Hsky. apply frame_structure in H.
  destruct H as (obs_data & g1 & g2 & u & _ & Hkeys & Hframe & Hok & Hnames).
  assert (Hin : In k (keys obs_params)) by (eapply dget_In; exact Hs).
  assert (Hcol : exists c, In (k, c) obs_data).
  { rewrite <- Hkeys in Hin. apply in_map_iff in Hin.
    destruct Hin as ([k' c] & Hk' & Hin). simpl in Hk'. subst k'. eauto. }
  destruct Hcol as [c Hc].
  assert (Hu : u k = map (fun o => sigma * o) (ones n)).
  { pose proof (Hok k Hin) as Hk. unfold unc_column in Hk.
    rewrite Hsky in Hk. unfold dict_item in Hk. rewrite Hs in Hk. simpl in Hk.
    congruence. }
  exists (u k). split.
  - apply dget_NoDup_In; [exact (Hnames Hnd)|].
    rewrite Hframe. eapply in_with_unc; exact Hc.
  - rewrite Hu. split; [unfold ones; now rewrite length_map, repeat_length|].
    apply Forall_forall. intros x Hx. apply in_map_iff in Hx.
    destruct Hx as (y & <- & Hy). unfold ones in Hy.
    apply repeat_spec in Hy. subst y. ring.
Qed.

Lemma normal_each_length (loc : Q) (scales : list Q) :
  forall g xs g', normal_each E loc scales g = (Ok xs, g') ->
                  length xs = length scales.
Proof.
  induction scales as [|s0 rest IH]; simpl; intros g xs g' H.
  - apply ret_ok in H. destruct H as [-> _]. reflexivity.
  - apply bind_ok in H. destruct H as (x & g1 & _ & H).
    apply bind_ok in H. destruct H as (xs' & g2 & Hxs & H).
    apply ret_ok in H. destruct H as [-> _]. simpl. f_equal. eapply IH, Hxs.
Qed.

Lemma np_normal_arr_length (loc : Q) (scale : list Q) (k : nat)
      (g g' : rng E) (xs : list Q) :
  np_normal_arr E loc scale k g = (Ok xs, g') -> length xs = k.
Proof.
  unfold np_normal_arr.
  destruct (existsb (fun s => Qlt_bool s 0) scale); [discriminate|].
  assert (Hdraws : forall s, draws E k (np_normal E loc s) g = (Ok xs, g') ->
                             length xs = k).
  { intros s H. apply (draws_spec E (fun _ => True) _ (fun _ _ _ _ => I) _ _ _ _ H). }
  assert (Heach : (if (length scale =? k)%nat then normal_each E loc scale
                   else lift (Raise ValueError)) g = (Ok xs, g') -> length xs = k).
  { destruct (Nat.eqb_spec (length scale) k) as [Hl|]; [|discriminate].
    intros H. rewrite (normal_each_length _ _ _ _ _ H). exact Hl. }
  destruct scale as [|s0 [|s1 rest]]; [exact Heach | apply Hdraws | exact Heach].
Qed.

Lemma add_noise_rel_kept (td app : dict (list Q)) (names : list string) :
  forall acc acc' g g',
    add_noise' names n td app acc g = (Ok acc', g') ->
    (~ In "plx" names \/ is_skymapper plx_distribution = false) ->
    snd acc' = snd acc.
Proof.
  induction names as [|o rest IH]; intros [obs_data rel] acc' g g' H Hno.
  - simpl in H. apply ret_ok in H. destruct H as [-> _]. reflexivity.
  - apply add_noise_step in H. destruct H as (obs & rel1 & g1 & H & _ & Hkeep).
    rewrite (IH _ _ _ _ H); simpl.
    + apply Hkeep. destruct Hno as [Hno | ->]; [|now rewrite andb_false_r].
      destruct (String.eqb_spec o "plx") as [-> | _]; [|reflexivity].
      exfalso. apply Hno. now left.
    + destruct Hno as [Hno | Hno]; [left | now right].
      intros Hin. apply Hno. now right.
Qed.

Lemma add_noise_rel_drawn (td app : dict (list Q)) (names : list string) :
  forall acc acc' g g',
    add_noise' names n td app acc g = (Ok acc', g') ->
    In "plx" names -> is_skymapper plx_distribution = true ->
    length (snd acc') = n.
Proof.
  induction names as [|o rest IH]; intros [obs_data rel] acc' g g' H Hin Hsky;
    [destruct Hin|].
  apply add_noise_step in H. destruct H as (obs & rel1 & g1 & H & Hnew & _).
  destruct (in_dec string_dec "plx" rest) as [Hr | Hr]; [eapply IH; eassumption|].
  destruct Hin as [-> | Hin]; [|contradiction].
  rewrite (add_noise_rel_kept _ _ _ _ _ _ _ H (or_introl Hr)). simpl.
  apply Hnew. rewrite Hsky, (plx_not_a_band obs_params). reflexivity.
Qed.

(** Every column of the table has one row per star: in a completed call on
    a sample whose arrays all have [ns] rows, for requested parameters
    with distinct names, every observed column and every uncertainty column
    of the table has exactly [ns] entries. *)
Theorem table_has_ns_rows (g g' : rng E) (o : observed)
        (name : string) (col : list Q) :
  (forall k c, dget (s_data synthfile) k = Some c -> length c = n) ->
  NoDup (keys obs_params) ->
  make_synth_obs' g = (Ok o, g') ->
  In (name, col) (frame o) -> length col = n.
Proof.
  intros Hwf Hnd H Hin.
  pose proof H as Hinv. apply make_synth_obs_inv in Hinv.
  destruct Hinv as (td0 & _ & g1' & _ & Hmags & Hload & Htd & Hplx & _ & _).
  apply frame_structure in H.
  destruct H as (obs_data & g1 & g2 & u & Hnoise & Hkeys & Hframe & Hok & _).
  assert (Htrue : forall k t, In k (keys obs_params) ->
                              dget (true_data o) k = Some t -> length t = n).
  { intros k t Hk Ht. destruct (String.eqb_spec k "plx") as [-> | Hne].
    - destruct (Hplx (proj2 (mem_In _ _) Hk)) as (plx_true & Hdraw & Hp & _).
      assert (t = plx_true) by congruence. subst t.
      eapply draw_plx_true_length; eassumption.
    - rewrite (Htd k Hne) in Ht.
      destruct (proj1 (load_true_spec _ _ _ _ _ Hload k) Hk Hne) as (c & Hc & Hl).
      assert (t = loaded E k c) by congruence. subst t.
      unfold loaded. destruct (String.eqb k "logT");
        [rewrite length_map|]; eapply Hwf; eassumption. }
  assert (Happ : forall k a, In k (obs_mags obs_params) ->
                             dget (app_mags_true o) k = Some a -> length a = n).
  { intros k a Hk Ha.
    assert (Hne : obs_mags obs_params <> [])
      by (intros Hnil; rewrite Hnil in Hk; destruct Hk).
    destruct (Hplx (Hmags Hne)) as (plx_true & Hdraw & _ & Hap).
    destruct (apparent_spec _ _ _ _ _ Hap k Hk) as (abs_mag & a' & Habs & Hb & Ha').
    assert (a' = a) by congruence. subst a'.
    assert (Hreq : In k (keys obs_params))
      by (unfold obs_mags in Hk; apply filter_In in Hk; now apply mem_In).
    assert (Hl : length abs_mag
                 = length (map (fun p => 5 * log10 E (100 / p)) plx_true)).
    { rewrite length_map, (Htrue _ _ Hreq Habs).
      symmetry. eapply draw_plx_true_length; eassumption. }
    rewrite (broadcast2_length _ _ _ _ Hl Hb). eapply Htrue; eassumption. }
  rewrite Hframe in Hin. unfold with_unc in Hin. apply in_flat_map in Hin.
  destruct Hin as ([k c] & Hkc & Hin). simpl in Hin.
  assert (Hk : In k (keys obs_params))
    by (rewrite <- Hkeys; apply (in_map fst) in Hkc; exact Hkc).
  destruct Hin as [Heq | [Heq | []]]; inversion Heq; subst; clear Heq.
  - (* an observed column *)
    assert (Hget : dget obs_data name = Some col)
      by (apply dget_NoDup_In; [now rewrite Hkeys | exact Hkc]).
    destruct (proj1 (add_noise_spec _ _ _ _ _ _ _ _ _ _ _ Hnoise name) Hk)
      as (obs & Hobs & Hform).
    simpl in Hobs. assert (obs = col) by congruence. subst obs.
    unfold observed_from in Hform.
    destruct (mem name (obs_mags obs_params)) eqn:Hband.
    + destruct Hform as (a & sigma & noise & ga & gb & Ha & _ & Hn & Hb).
      apply mem_In in Hband.
      pose proof (Happ _ _ Hband Ha) as Hal.
      destruct (np_normal_n_spec _ _ _ _ _ _ _ Hn) as [Hnl _].
      rewrite (broadcast2_length _ _ _ _ (eq_trans Hal (eq_sym Hnl)) Hb). exact Hal.
    + destruct (String.eqb name "plx" && is_skymapper plx_distribution)%bool.
      * destruct Hform as (t & rel & sc & noise & ga & gb & Ht & _ & Hn & Hb).
        pose proof (Htrue _ _ Hk Ht) as Htl.
        pose proof (np_normal_arr_length _ _ _ _ _ _ Hn) as Hnl.
        rewrite (broadcast2_length _ _ _ _ (eq_trans Htl (eq_sym Hnl)) Hb). exact Htl.
      * destruct Hform as (t & sigma & noise & ga & gb & Ht & _ & Hn & Hb).
        pose proof (Htrue _ _ Hk Ht) as Htl.
        destruct (np_normal_n_spec _ _ _ _ _ _ _ Hn) as [Hnl _].
        rewrite (broadcast2_length _ _ _ _ (eq_trans Htl (eq_sym Hnl)) Hb). exact Htl.
  - (* an uncertainty column *)
    pose proof (Hok k Hk) as Hu. unfold unc_column in Hu.
    destruct (String.eqb k "plx" && is_skymapper plx_distribution)%bool eqn:Hsky.
    + apply andb_true_iff in Hsky. destruct Hsky as [Hplxk Hsky].
      apply String.eqb_eq in Hplxk. subst k.
      destruct (dict_item (true_data o) "plx") as [t|] eqn:Ht; simpl in Hu;
        [|discriminate].
      apply dict_item_some in Ht.
      pose proof (Htrue _ _ Hk Ht) as Htl.
      pose proof (add_noise_rel_drawn _ _ _ _ _ _ _ Hnoise Hk Hsky) as Hrl.
      simpl in Hrl.
      rewrite (broadcast2_length _ _ _ _ (eq_trans Htl (eq_sym Hrl)) Hu). exact Htl.
    + destruct (dict_item obs_params k) as [sigma|]; simpl in Hu; [|discriminate].
      inversion Hu as [Hv]. unfold ones. now rewrite length_map, repeat_length.
Qed.
End Table.

(** ** The uncertainties under ['Skymapper'] *)

Lemma rel_err_range (r : Q) :
  In r plx_rel_err_interval -> (2 # 100) <= r /\ r <= (20 # 100).
Proof.
  unfold plx_rel_err_interval. intros H. apply in_map_iff in H.
  destruct H as (i & <- & Hi). apply in_seq in Hi. unfold Qnat.
  assert (H0 : inject_Z 0 <= inject_Z (Z.of_nat i))
    by (rewrite <- Zle_Qle; lia).
  assert (H1 : inject_Z (Z.of_nat i) <= inject_Z 18)
    by (rewrite <- Zle_Qle; lia).
  change (inject_Z 0) with 0 in H0. change (inject_Z 18) with 18 in H1.
  split; lra.
Qed.

Section Skymapper_errors.
Context (E : Env).
Variables (synthfile : synth) (obs_params : dict Q)
          (plx_distribution : plx_policy).
Hypothesis pick_in_range :
  forall p g, p <> [] -> (fst (pick E p g) < length p)%nat.

Local Abbreviation make_synth_obs' :=
  (make_synth_obs E synthfile obs_params plx_distribution).
Local Abbreviation n := (cfg_ns synthfile).
Local Abbreviation add_noise' :=
  (add_noise E obs_params plx_distribution).

(** [np.random.choice(values, n, p=p)] returns entries of [values]. *)
Lemma np_choice_n_values (values p : list Q) (k : nat) (g g' : rng E)
      (xs : list Q) :
  np_choice_n E values k p g = (Ok xs, g') ->
  Forall (fun x => In x values) xs.
Proof.
  unfold np_choice_n. intros H.
  apply bind_ok in H. destruct H as (u & g1 & Hcheck & H).
  apply lift_ok in Hcheck. destruct Hcheck as [Hcheck ->].
  apply bind_ok in H. destruct H as (idx & g2 & Hidx & H).
  apply ret_ok in H. destruct H as [-> _].
  unfold choice_check in Hcheck.
  destruct (Nat.eqb_spec (length values) 0) as [|Hne]; [discriminate|].
  destruct (negb (ndim (array1 p) =? 1)%nat); [discriminate|].
  cbn [flat array1] in Hcheck.
  destruct (Nat.eqb_spec (length p) (length values)) as [Hlen|];
    [|discriminate].
  clear Hcheck.
  assert (Hp : p <> []) by (intros ->; simpl in Hlen; lia).
  assert (Hpick : forall g0 x g0',
             (fun g3 => let (i, g3') := pick E p g3 in (Ok i, g3')) g0
             = (Ok x, g0') -> (x < length values)%nat).
  { intros g0 x g0' Hx. pose proof (pick_in_range p g0 Hp) as Hr.
    cbv beta in Hx. destruct (pick E p g0) as [i g0'']. inversion Hx; subst.
    simpl in Hr. lia. }
  destruct (draws_spec E _ _ Hpick _ _ _ _ Hidx) as [_ Hall].
  apply Forall_forall. intros x Hx. apply in_map_iff in Hx.
  destruct Hx as (i & <- & Hi). rewrite Forall_forall in Hall.
  apply nth_In. now apply Hall.
Qed.

(** The relative errors kept by the loop of lines 233-246 are entries of
    [plx_rel_err_interval]. *)
Lemma add_noise_rel_values (td app : dict (list Q)) (names : list string) :
  forall acc acc' g g',
    add_noise' names n td app acc g = (Ok acc', g') ->
    Forall (fun r => In r plx_rel_err_interval) (snd acc) ->
    Forall (fun r => In r plx_rel_err_interval) (snd acc').
Proof.
  induction names as [|o rest IH]; intros [obs_data rel] acc' g g' H Hrel.
  - simpl in H. apply ret_ok in H. destruct H as [-> _]. exact Hrel.
  - simpl in H. destruct (mem o (obs_mags obs_params)).
    + apply bind_ok in H. destruct H as (a & g1 & Ha & H).
      apply bind_ok in H. destruct H as (sigma & g2 & Hs & H).
      apply bind_ok in H. destruct H as (noise & g3 & Hn & H).
      apply bind_ok in H. destruct H as (obs & g4 & Ho & H).
      exact (IH _ _ _ _ H Hrel).
    + destruct (String.eqb o "plx" && is_skymapper plx_distribution)%bool.
      * apply bind_ok in H. destruct H as (rel' & g1 & Hr & H).
        apply bind_ok in H. destruct H as (t & g2 & Ht & H).
        apply bind_ok in H. destruct H as (t' & g3 & Ht' & H).
        apply bind_ok in H. destruct H as (sc & g4 & Hsc & H).
        apply bind_ok in H. destruct H as (noise & g5 & Hn & H).
        apply bind_ok in H. destruct H as (obs & g6 & Ho & H).
        apply (IH _ _ _ _ H). simpl.
        exact (np_choice_n_values _ _ _ _ _ _ Hr).
      * apply bind_ok in H. destruct H as (t & g1 & Ht & H).
        apply bind_ok in H. destruct H as (sigma & g2 & Hs & H).
        apply bind_ok in H. destruct H as (noise & g3 & Hn & H).
        apply bind_ok in H. destruct H as (obs & g4 & Ho & H).
        exact (IH _ _ _ _ H Hrel).
Qed.

(** The parallax uncertainty under ['Skymapper'] (lines 238-243 and
    251-253).  In a completed call with distinct parameter names that asks
    for the parallax, when [np.random.choice] returns entries of the array it
    is given: every star has a relative error between 0.02 and 0.20, and the
    column ['plx_unc'] holds, star by star, the true parallax times that
    relative error, whatever uncertainty was requested for ['plx']. *)
Theorem skymapper_uncertainty_column (g g' : rng E) (o : observed) :
  NoDup (keys obs_params) -> In "plx" (keys obs_params) ->
  is_skymapper plx_distribution = true ->
  make_synth_obs' g = (Ok o, g') ->
  exists plx_true unc,
    dget (true_data o) "plx" = Some plx_true /\
    dget (frame o) "plx_unc" = Some unc /\
    length plx_true = n /\ length (plx_rel_err o) = n /\ length unc = n /\
    Forall (fun r => (2 # 100) <= r /\ r <= (20 # 100)) (plx_rel_err o) /\
    forall i t r, nth_error plx_true i = Some t ->
                  nth_error (plx_rel_err o) i = Some r ->
                  nth_error unc i = Some (t * r).
Proof.
  intros Hnd Hin Hsky H.
  pose proof H as Hinv. apply make_synth_obs_inv in Hinv.
  destruct Hinv as (td0 & _ & g1' & _ & _ & _ & _ & Hplx & _ & _).
  destruct (Hplx (proj2 (mem_In _ _) Hin)) as (plx_true & Hdraw & Hp & _).
  pose proof (draw_plx_true_length _ _ _ _ _ _ Hdraw) as Hpl.
  apply frame_structure in H.
  destruct H as (obs_data & g1 & g2 & u & Hnoise & Hkeys & Hframe & Hok & Hnames).
  pose proof (add_noise_rel_drawn _ _ _ _ _ _ _ _ _ _ _ Hnoise Hin Hsky) as Hrl.
  simpl in Hrl.
  pose proof (add_noise_rel_values _ _ _ _ _ _ _ Hnoise (Forall_nil _)) as Hvals.
  simpl in Hvals.
  pose proof (Hok "plx" Hin) as Hu. unfold unc_column in Hu.
  rewrite Hsky in Hu. simpl in Hu. unfold dict_item in Hu. rewrite Hp in Hu.
  simpl in Hu.
  assert (Hlen : length plx_true = length (plx_rel_err o)) by congruence.
  rewrite broadcast2_same_length in Hu by exact Hlen.
  inversion Hu as [Hu']. clear Hu.
  assert (Hcol : exists c, In ("plx", c) obs_data).
  { rewrite <- Hkeys in Hin. apply in_map_iff in Hin.
    destruct Hin as ([k' c] & Hk' & Hin). simpl in Hk'. subst k'. eauto. }
  destruct Hcol as [c Hc].
  exists plx_true, (u "plx").
  split; [exact Hp|]. split.
  { apply dget_NoDup_In; [exact (Hnames Hnd)|].
    rewrite Hframe. exact (in_with_unc u obs_data "plx" c Hc). }
  split; [exact Hpl|]. split; [exact Hrl|]. split.
  { rewrite <- Hu', length_map, length_combine. lia. }
  split.
  { eapply Forall_impl; [|exact Hvals]. intros r. apply rel_err_range. }
  intros i t r Ht Hr. rewrite <- Hu'.
  exact (nth_error_zip Qmult _ _ _ _ _ Ht Hr).
Qed.
End Skymapper_errors.

Lemma demo_pick_in_range :
  forall p g, p <> [] -> (fst (pick Demo.world p g) < length p)%nat.
Proof.
  intros p g Hp. simpl. unfold Demo.flip_pick.
  destruct p as [|x p]; [congruence|]. destruct g; simpl; lia.
Defined.

Lemma skymapper_uncertainty_column_witness :
  exists o g' unc,
    make_synth_obs Demo.world Demo.sample [("plx", 0)] Skymapper true = (Ok o, g') /\
    dget (frame o) "plx_unc" = Some unc /\ length unc = 2%nat.
Proof.
  pose proof skymapper_obs_run as Hrun. unfold Demo.skymapper_obs in Hrun.
  assert (Hnd : NoDup (keys [("plx", 0)])) by (repeat constructor; intros []).
  assert (Hin : In "plx" (keys [("plx", 0)])) by (simpl; auto).
  destruct (skymapper_uncertainty_column
              Demo.world Demo.sample [("plx", 0)] Skymapper demo_pick_in_range
              true _ _ Hnd Hin eq_refl Hrun)
    as (plx_true & unc & _ & Hunc & _ & _ & Hl & _).
  eexists. eexists. exists unc.
  split; [exact Hrun|]. split; [exact Hunc | exact Hl].
Defined.

(** * Further properties of [generate_synth_stars] *)

Lemma py_int_mean (a b : nat) :
  Z.to_nat (py_int ((Qnat a + Qnat b) / 2)) = ((a + b) / 2)%nat.
Proof.
  unfold py_int, Qnat. simpl.
  rewrite !Z.mul_1_r.
  rewrite Z.quot_div_nonneg by lia.
  rewrite <- Nat2Z.inj_add.
  change 2%Z with (Z.of_nat 2). rewrite <- Nat2Z.inj_div. apply Nat2Z.id.
Qed.

(** The median of a non-empty array of indices below [m], truncated, is an
    index below [m]; of an empty array it is [nan], which [int] refuses. *)
Lemma int_median_below (l : list nat) (m : nat) :
  l <> [] -> (forall x, In x l -> (x < m)%nat) ->
  exists k, int_median l = Ok k /\ (k < m)%nat.
Proof.
  intros Hne Hall.
  pose proof (sort_nat_perm l) as Hp.
  assert (Hs : forall i, (i < length (sort_nat l))%nat ->
                         (nth i (sort_nat l) O < m)%nat).
  { intros i Hi. apply Hall. apply (Permutation_in _ Hp). now apply nth_In. }
  assert (Hlen : length (sort_nat l) <> 0%nat).
  { rewrite (Permutation_length Hp). destruct l; [congruence | discriminate]. }
  unfold int_median, median.
  destruct (length (sort_nat l)) as [|n'] eqn:Hn; [congruence|].
  assert (Hhalf : (S n' / 2 < S n')%nat) by (apply Nat.div_lt; lia).
  destruct (Nat.odd (S n')) eqn:Hodd.
  - eexists. split; [reflexivity|].
    fold (Qnat (nth (S n' / 2) (sort_nat l) O)).
    rewrite py_int_nat. apply Hs. lia.
  - eexists. split; [reflexivity|].
    fold (Qnat (nth (S n' / 2 - 1) (sort_nat l) O)).
    fold (Qnat (nth (S n' / 2) (sort_nat l) O)).
    rewrite py_int_mean.
    assert (H1 : (nth (S n' / 2 - 1) (sort_nat l) O < m)%nat) by (apply Hs; lia).
    assert (H2 : (nth (S n' / 2) (sort_nat l) O < m)%nat) by (apply Hs; lia).
    apply Nat.Div0.div_lt_upper_bound. lia.
Qed.

(** The split index is a position of the difference array (lines 101-104):
    on a track of at least two points [split_index] returns an index at
    least one short of the last point of the track; on a track of fewer
    points there is no difference to sort, the median is [nan] and
    [int] raises [ValueError]. *)
Theorem split_index_in_range (E : Env) (logT : list Q) :
  ((length logT <= 1)%nat -> split_index E logT = Raise ValueError) /\
  ((2 <= length logT)%nat ->
   exists k, split_index E logT = Ok k /\ (k < length logT - 1)%nat).
Proof.
  split.
  - intros Hlen. destruct logT as [|a [|b l]]; [reflexivity | reflexivity |].
    simpl in Hlen. lia.
  - intros Hlen. unfold split_index.
    set (d := diff (map (pow10 E) logT)).
    assert (Hd : length d = (length logT - 1)%nat)
      by (unfold d; now rewrite diff_length, length_map).
    pose proof (argsort_perm d) as Hp.
    apply int_median_below.
    + intros Hnil.
      assert (Hl : length (firstn 5 (argsort d)) = 0%nat) by now rewrite Hnil.
      rewrite length_firstn, (Permutation_length Hp), length_seq in Hl. lia.
    + intros x Hx. apply in_firstn in Hx.
      apply (Permutation_in _ Hp) in Hx. apply in_seq in Hx. lia.
Qed.

Lemma split_index_in_range_witness :
  (2 <= length [4; 4; 4; 3; 3; 3; 3; 3])%nat /\
  (exists k, split_index Demo.world [4; 4; 4; 3; 3; 3; 3; 3] = Ok k /\ (k < 7)%nat) /\
  (length [4] <= 1)%nat /\ split_index Demo.world [4] = Raise ValueError.
Proof.
  split; [simpl; lia|]. split.
  - apply (proj2 (split_index_in_range Demo.world [4; 4; 4; 3; 3; 3; 3; 3])).
    simpl. lia.
  - split; [simpl; lia|].
    apply (proj1 (split_index_in_range Demo.world [4])). simpl. lia.
Defined.

Lemma argmin_from_spec (x : list Q) :
  forall best besti i,
    exists v,
      ((argmin_from best besti i x = besti /\ v = best) \/
       (exists j, argmin_from best besti i x = (i + j)%nat /\
                  nth_error x j = Some v)) /\
      v <= best /\ Forall (fun a => v <= a) x.
Proof.
  induction x as [|a x IH]; intros best besti i; simpl.
  - exists best. split; [now left|]. split; [apply Qle_refl | constructor].
  - destruct (Qlt_bool a best) eqn:Hlt.
    + apply Qlt_bool_iff in Hlt.
      destruct (IH a i (S i)) as (v & Hv & Hle & Hall).
      exists v. split; [|split].
      * right. destruct Hv as [[Hr ->] | (j & Hr & Hj)].
        -- exists 0%nat. rewrite Nat.add_0_r. auto.
        -- exists (S j). rewrite Hr. split; [lia | exact Hj].
      * apply Qlt_le_weak. eapply Qle_lt_trans; eassumption.
      * constructor; assumption.
    + apply Qlt_bool_false in Hlt.
      destruct (IH best besti (S i)) as (v & Hv & Hle & Hall).
      exists v. split; [|split].
      * destruct Hv as [[Hr ->] | (j & Hr & Hj)]; [now left | right].
        exists (S j). rewrite Hr. split; [lia | exact Hj].
      * exact Hle.
      * constructor; [eapply Qle_trans; eassumption | exact Hall].
Qed.

(** [np.argmin] returns a position holding a least value. *)
Lemma argmin_spec (x : list Q) (r : nat) :
  argmin x = Ok r ->
  exists v, nth_error x r = Some v /\ Forall (fun a => v <= a) x.
Proof.
  destruct x as [|a x]; simpl; [discriminate|].
  intros H. inversion H; subst; clear H.
  destruct (argmin_from_spec x a 0%nat 1%nat) as (v & Hv & Hle & Hall).
  exists v. split; [|constructor; assumption].
  destruct Hv as [[-> ->] | (j & -> & Hj)]; [reflexivity | exact Hj].
Qed.

Section Generate_more.
Context (E : Env).
Variables (isogrid : grid E) (t_bursts : ndarray) (ns : nat)
          (feh_mean feh_disp : Q) (IMF_alpha : Q) (rand_seed : Z)
          (extra_giants : Q).

Local Abbreviation draw_candidate' :=
  (draw_candidate E isogrid t_bursts ns feh_mean feh_disp IMF_alpha extra_giants).
Local Abbreviation body' :=
  (body E isogrid t_bursts ns feh_mean feh_disp IMF_alpha extra_giants).
Local Abbreviation sample_loop' :=
  (sample_loop E isogrid t_bursts ns feh_mean feh_disp IMF_alpha extra_giants).
Local Abbreviation generate' :=
  (generate_synth_stars E isogrid t_bursts ns feh_mean feh_disp IMF_alpha
                        rand_seed extra_giants).
Local Abbreviation reached' :=
  (reached E isogrid t_bursts ns feh_mean feh_disp IMF_alpha rand_seed
           extra_giants).
Local Abbreviation own_rows' :=
  (own_rows E isogrid t_bursts ns feh_mean feh_disp IMF_alpha rand_seed
            extra_giants).

(** The least mass of a draw (lines 108-116).  For an ordinary draw it is
    the mass of a track point before the split index, one whose temperature
    [10**logT] is nearest to [4500 - 500*feh] among the points before the
    split, and the phase is 0; for a forced giant it is the mass at the split
    index and the phase is 1. *)
Theorem least_mass_policy (q : dict (list Q)) (feh_test : Q)
        (split_ind i : nat) (m_min ph : Q) :
  min_mass E ns extra_giants q feh_test split_ind i = Ok (m_min, ph) ->
  exists mini,
    dget q "Mini" = Some mini /\
    (ordinary_draw ns extra_giants i = true ->
     ph = 0 /\
     exists logT idx t,
       dget q "logT" = Some logT /\ (idx < split_ind)%nat /\
       nth_error mini idx = Some m_min /\ nth_error logT idx = Some t /\
       forall j tj, (j < split_ind)%nat -> nth_error logT j = Some tj ->
                    Qabs (pow10 E t - (4500 - 500 * feh_test))
                    <= Qabs (pow10 E tj - (4500 - 500 * feh_test))) /\
    (ordinary_draw ns extra_giants i = false ->
     ph = 1 /\ nth_error mini split_ind = Some m_min).
Proof.
  unfold min_mass. destruct (ordinary_draw ns extra_giants i).
  - destruct (dict_item q "logT") as [logT|] eqn:HlogT; simpl; [|discriminate].
    destruct (argmin _) as [idx|] eqn:Hidx; simpl; [|discriminate].
    destruct (dict_item q "Mini") as [mini|] eqn:Hmini; simpl; [|discriminate].
    destruct (item mini idx) as [m|] eqn:Hm; simpl; [|discriminate].
    intros H; inversion H; subst; clear H.
    apply dict_item_some in HlogT, Hmini. apply item_some in Hm.
    exists mini. split; [exact Hmini|]. split; [|discriminate].
    intros _. split; [reflexivity|].
    apply argmin_spec in Hidx. destruct Hidx as (v & Hv & Hall).
    rewrite nth_error_map in Hv.
    destruct (nth_error (firstn split_ind logT) idx) as [t|] eqn:Ht; [|discriminate].
    simpl in Hv. inversion Hv; subst v; clear Hv.
    assert (Hlt : (idx < split_ind)%nat).
    { assert (Hi : (idx < length (firstn split_ind logT))%nat)
        by (apply nth_error_Some; congruence).
      rewrite length_firstn in Hi. lia. }
    rewrite nth_error_firstn in Ht.
    destruct (Nat.ltb_spec idx split_ind) as [_|]; [|lia].
    exists logT, idx, t. do 4 (split; [assumption|]).
    intros j tj Hj Htj. rewrite Forall_forall in Hall. apply Hall.
    apply in_map_iff. exists tj. split; [reflexivity|].
    apply (nth_error_In _ j). rewrite nth_error_firstn.
    destruct (Nat.ltb_spec j split_ind); [exact Htj | lia].
  - destruct (dict_item q "Mini") as [mini|] eqn:Hmini; simpl; [|discriminate].
    destruct (item mini split_ind) as [m|] eqn:Hm; simpl; [|discriminate].
    intros H; inversion H; subst; clear H.
    apply dict_item_some in Hmini. apply item_some in Hm.
    exists mini. split; [exact Hmini|]. split; [discriminate|].
    intros _. split; [reflexivity | exact Hm].
Qed.

(** Every pass of the loop adds one to [iv] or to [ne]. *)
Lemma sample_loop_passes (params : list string) (b : bursts) (fuel : nat) :
  forall s g s' g',
    sample_loop' fuel params b s g = Some (Ok s', g') ->
    exists k,
      (k <= fuel)%nat /\ (iv s' + ne s' = iv s + ne s + k)%nat /\
      sample_loop' k params b s g = Some (Ok s', g') /\
      forall f, (f < k)%nat -> sample_loop' f params b s g = None.
Proof.
  induction fuel as [|fuel IH]; intros s g s' g' H.
  - simpl in H. destruct (Nat.ltb_spec (iv s) ns) as [|Hge]; [discriminate|].
    inversion H; subst. exists 0%nat.
    split; [lia|]. split; [lia|]. split; [|intros f Hf; lia].
    simpl. destruct (Nat.ltb_spec (iv s') ns); [lia | reflexivity].
  - simpl in H. destruct (Nat.ltb_spec (iv s) ns) as [Hlt | Hge].
    + destruct (body' params b s g) as [[s1|e] g1] eqn:Hb; [|discriminate].
      destruct (IH _ _ _ _ H) as (k & Hk & Hsum & Hrun & Hless).
      assert (Hstep : (iv s1 + ne s1 = iv s + ne s + 1)%nat).
      { apply body_inv in Hb.
        destruct Hb as (c & qm & top & _ & _ & _ & [[_ (d & _ & ->)] | [_ ->]]);
          simpl; lia. }
      exists (S k). split; [lia|]. split; [lia|]. split.
      * simpl. destruct (Nat.ltb_spec (iv s) ns); [|lia]. now rewrite Hb.
      * intros [|f] Hf; simpl; destruct (Nat.ltb_spec (iv s) ns); try lia;
          [reflexivity|].
        rewrite Hb. apply Hless. lia.
    + inversion H; subst. exists 0%nat.
      split; [lia|]. split; [lia|]. split; [|intros f Hf; lia].
      simpl. destruct (Nat.ltb_spec (iv s') ns); [lia | reflexivity].
Qed.

(** The two counts the function prints (lines 140-141) add up to the number
    of passes the loop made: a run that returns has accepted exactly [ns]
    stars, it returns as soon as the loop is allowed [ns + n_discarded]
    passes, and with fewer passes the loop is still running. *)
Theorem passes_are_counted (fuel : nat) (g0 g' : rng E) (out : synth) :
  generate' fuel g0 = Some (Ok out, g') ->
  n_valid out = ns /\
  (ns + n_discarded out <= fuel)%nat /\
  generate' (ns + n_discarded out) g0 = Some (Ok out, g') /\
  forall f, (f < ns + n_discarded out)%nat -> generate' f g0 = None.
Proof.
  unfold generate_synth_stars.
  destruct (burst_setup t_bursts) as [b|]; [|discriminate].
  set (params := get_gridparams E isogrid).
  destruct (sample_loop' fuel params b (start ns params) (seed E rand_seed))
    as [[[s|] g1]|] eqn:Hloop; try discriminate.
  intros H. inversion H; subst; clear H. simpl.
  destruct (sample_loop_inv E isogrid t_bursts ns feh_mean feh_disp IMF_alpha
              extra_giants (fun s => iv s <= ns)%nat params b) with
      (fuel := fuel) (s := start ns params) (g := seed E rand_seed)
      (s' := s) (g' := g') as [Hle Hge]; [|simpl; lia | exact Hloop |].
  { intros s0 ga s1 gb Hs0 Hlt Hb. apply body_inv in Hb.
    destruct Hb as (c & qm & top & _ & _ & _ & [[_ (d & _ & ->)] | [_ ->]]);
      simpl; lia. }
  assert (Hiv : iv s = ns) by lia.
  destruct (sample_loop_passes _ _ _ _ _ _ _ Hloop) as (k & Hk & Hsum & Hrun & Hless).
  simpl in Hsum.
  assert (Hkk : k = (ns + ne s)%nat) by lia.
  rewrite Hkk in Hk, Hrun, Hless.
  split; [exact Hiv|]. split; [exact Hk|]. split.
  - now rewrite Hrun.
  - intros f Hf. now rewrite (Hless f Hf).
Qed.

(** With [IMF_alpha = 1] the exponent [-1/(IMF_alpha-1)] of line 118 cannot
    be computed: when at least one star is asked for, the function does not
    return a sample; it raises in its set-up or, at the latest, in the first
    pass of the loop. *)
Theorem unit_exponent_raises (fuel : nat) (g0 : rng E) :
  IMF_alpha == 1 -> (0 < ns)%nat ->
  exists e g',
    generate_synth_stars E isogrid t_bursts ns feh_mean feh_disp IMF_alpha
                         rand_seed extra_giants (S fuel) g0
    = Some (Raise e, g').
Proof.
  intros Halpha Hns. unfold generate_synth_stars.
  destruct (burst_setup t_bursts) as [b|e]; [|eauto].
  set (params := get_gridparams E isogrid).
  simpl. destruct (Nat.ltb_spec 0 ns) as [_|]; [|lia].
  destruct (body' params b (start ns params) (seed E rand_seed))
    as [[s1|e] g1] eqn:Hb; [|eauto].
  exfalso. apply body_inv in Hb.
  destruct Hb as (c & qm & top & Hc & _).
  apply draw_candidate_inv in Hc. destruct Hc as (_ & _ & e & He & _).
  unfold py_div in He.
  assert (Hz : Qeq_bool (IMF_alpha - 1) 0 = true)
    by (apply Qeq_bool_iff; rewrite Halpha; ring).
  rewrite Hz in He. discriminate.
Qed.

(** The age a pass draws (lines 90-95) comes from the burst it names: the
    single burst, or the burst whose index [np.random.choice] returned in
    this pass.  The age is [t_low + (t_high - t_low) * u] for the next number
    [u] of [np.random.rand()], and the generator is left as that draw left
    it.  With [u] in [0, 1] and [t_low <= t_high] the age is at least
    [t_low] and at most the value of the expression at [u = 1]. *)
Theorem drawn_age_in_burst (b : bursts) (g g' : rng E) (age : Q) :
  (forall g1, 0 <= fst (rand E g1) /\ fst (rand E g1) <= 1) ->
  draw_age E t_bursts b g = (Ok age, g') ->
  exists t_low t_high g1,
    match b with
    | Single_burst =>
        g1 = g /\
        nth_error (flat t_bursts) 0 = Some t_low /\
        nth_error (flat t_bursts) 1 = Some t_high
    | Multi_burst prob n_bursts =>
        exists i_burst,
          np_choice E n_bursts prob g = (Ok i_burst, g1) /\
          item2 t_bursts i_burst 0 = Ok t_low /\
          item2 t_bursts i_burst 1 = Ok t_high
    end /\
    age = t_low + (t_high - t_low) * fst (rand E g1) /\
    g' = snd (rand E g1) /\
    (t_low <= t_high ->
     t_low <= age /\ age <= t_low + (t_high - t_low) * 1).
Proof.
  intros Hrand H.
  assert (Hmix : forall t0 t1 u, 0 <= u -> u <= 1 -> t0 <= t1 ->
                                 t0 <= t0 + (t1 - t0) * u /\
                                 t0 + (t1 - t0) * u <= t0 + (t1 - t0) * 1)
    by (intros; split; nra).
  assert (Hu : forall ga u gb, np_rand E ga = (Ok u, gb) ->
                               u = fst (rand E ga) /\ gb = snd (rand E ga)).
  { intros ga u gb Hr. unfold np_rand in Hr.
    destruct (rand E ga) as [u' gc]. inversion Hr; subst. split; reflexivity. }
  destruct b as [|prob n_bursts]; simpl in H.
  - apply bind_ok in H. destruct H as (t0 & g1 & H0 & H).
    apply lift_ok in H0. destruct H0 as [H0 ->].
    apply bind_ok in H. destruct H as (t1 & g2 & H1 & H).
    apply lift_ok in H1. destruct H1 as [H1 ->].
    apply bind_ok in H. destruct H as (u & g3 & Hr & H).
    apply ret_ok in H. destruct H as [-> ->].
    apply item_some in H0, H1. destruct (Hu _ _ _ Hr) as [-> ->].
    exists t0, t1, g. split; [repeat split; assumption|].
    split; [reflexivity|]. split; [reflexivity|].
    intros Hle. apply Hmix; [apply Hrand | apply Hrand | exact Hle].
  - apply bind_ok in H. destruct H as (i & g1 & Hi & H).
    apply bind_ok in H. destruct H as (t0 & g2 & H0 & H).
    apply lift_ok in H0. destruct H0 as [H0 ->].
    apply bind_ok in H. destruct H as (t1 & g3 & H1 & H).
    apply lift_ok in H1. destruct H1 as [H1 ->].
    apply bind_ok in H. destruct H as (u & g4 & Hr & H).
    apply ret_ok in H. destruct H as [-> ->].
    destruct (Hu _ _ _ Hr) as [-> ->].
    exists t0, t1, g1. split; [exists i; repeat split; assumption|].
    split; [reflexivity|]. split; [reflexivity|].
    intros Hle. apply Hmix; [apply Hrand | apply Hrand | exact Hle].
Qed.

Lemma draw_candidate_query (b : bursts) (i : nat) (g g' : rng E) (c : candidate) :
  draw_candidate' b i g = (Ok c, g') ->
  exists age feh g1 g2,
    draw_age E t_bursts b g = (Ok age, g1) /\
    np_normal E feh_mean feh_disp g1 = (Ok feh, g2) /\
    get_isochrone E isogrid 0 feh age = Ok (c_q c, c_afa c).
Proof.
  unfold draw_candidate, bind, lift, ret.
  destruct (draw_age E t_bursts b g) as [[age|] g1] eqn:Hage; [|discriminate].
  destruct (np_normal E feh_mean feh_disp g1) as [[feh_test|] g2] eqn:Hfeh;
    [|discriminate].
  destruct (get_isochrone E isogrid 0 feh_test age) as [[q afa]|] eqn:Hq;
    [|discriminate].
  destruct (dict_item q "logT") as [logT|]; [|discriminate].
  destruct (split_index E logT) as [split_ind|]; [|discriminate].
  destruct (min_mass E ns extra_giants q feh_test split_ind i)
    as [[m_min ph]|]; [|discriminate].
  destruct (np_rand E g2) as [[u|] g3]; [|discriminate].
  destruct (py_div (-1) (IMF_alpha - 1)) as [e|]; [|discriminate].
  intros H; inversion H; subst; simpl. exists age, feh_test, g1, g2. auto.
Qed.

Lemma accept_age (params : list string) (c : candidate) (q_mass : list Q)
      (i : nat) (d d' : dict (list Q)) :
  accept params c q_mass i d = Ok d' ->
  exists arr, dget d' "age" = Some arr /\ nth_error arr i = Some (snd (c_afa c)).
Proof.
  unfold accept.
  destruct (index_below q_mass (c_m c)) as [im|]; simpl; [|discriminate].
  destruct (index_above q_mass (c_m c)) as [ip|]; simpl; [|discriminate].
  destruct (weight q_mass im ip (c_m c)) as [h|]; simpl; [|discriminate].
  destruct (store_params params (c_q c) im ip h i d) as [d1|]; simpl; [|discriminate].
  destruct (store d1 "age" i (snd (c_afa c))) as [d2|] eqn:H2; simpl; [|discriminate].
  intros H3.
  destruct (store_spec _ _ _ _ _ H2) as (_ & arr & Harr & Hrow).
  unfold store in H3.
  destruct (dict_item d2 "phase") as [a|]; simpl in H3; [|discriminate].
  destruct (set_item a i (c_phase c)) as [a'|]; simpl in H3; [|discriminate].
  inversion H3; subst d'.
  exists arr. rewrite dget_dset. split; [exact Harr | exact Hrow].
Qed.

Lemma own_rows_body (params : list string) (b : bursts)
      (s s' : sampler) (g g' : rng E) :
  reached' params b s g -> own_rows' params b s -> (iv s < ns)%nat ->
  body' params b s g = (Ok s', g') -> own_rows' params b s'.
Proof.
  intros Hr [Hle (ages & phases & Hages & Hla & Hphases & Hlp & Hrows)] Hlt Hb.
  apply body_inv in Hb.
  destruct Hb as (c & q_mass & top & Hc & Hq & Htop
                  & [[Hbelow (d & Hacc & ->)] | [_ ->]]).
  - destruct (draw_candidate_query _ _ _ _ _ Hc)
      as (age & feh & g1 & g2 & Hage & Hfeh & Hgrid).
    pose proof (accept_age _ _ _ _ _ _ Hacc) as (arr & Harr & Hrow).
    apply accept_spec in Hacc. destruct Hacc as (Hsame & (parr & Hparr & Hprow) & _).
    destruct (Hsame _ _ Hages) as (ages' & Hages' & Hla' & Hoa).
    destruct (Hsame _ _ Hphases) as (phases' & Hphases' & Hlp' & Hop).
    assert (arr = ages') by congruence. subst arr.
    assert (parr = phases') by congruence. subst parr.
    split; [simpl; lia|]. simpl.
    exists ages', phases'.
    split; [exact Hages'|]. split; [congruence|].
    split; [exact Hphases'|]. split; [congruence|].
    intros i Hi. destruct (Nat.eq_dec i (iv s)) as [-> | Hne].
    + exists age, feh, c. split; [|split; assumption].
      exists s, g, g1, g2, g'. do 6 (split; [assumption || reflexivity|]).
      unfold below_top. rewrite Hq. simpl. rewrite Htop. simpl.
      f_equal. now apply Qlt_bool_iff.
    + rewrite (Hoa _ Hne), (Hop _ Hne). apply Hrows. lia.
  - split; [simpl; lia|]. simpl. exists ages, phases. auto 6.
Qed.

Lemma reached_own_rows (params : list string) (b : bursts)
      (s : sampler) (g : rng E) :
  reached' params b s g -> own_rows' params b s.
Proof.
  induction 1 as [|s s' g g' Hr IH Hlt Hb].
  - split; [simpl; lia|]. exists (zeros ns), (zeros ns). simpl.
    split; [apply dget_init_data; apply in_or_app; right; simpl; tauto|].
    split; [apply repeat_length|].
    split; [apply dget_init_data; apply in_or_app; right; simpl; tauto|].
    split; [apply repeat_length | intros i Hi; lia].
  - exact (own_rows_body _ _ _ _ _ _ Hr IH Hlt Hb).
Qed.

Lemma sample_loop_reached (params : list string) (b : bursts) (fuel : nat) :
  forall s g s' g',
    reached' params b s g ->
    sample_loop' fuel params b s g = Some (Ok s', g') ->
    reached' params b s' g' /\ (ns <= iv s')%nat.
Proof.
  induction fuel as [|fuel IH]; intros s g s' g' Hr; simpl;
    destruct (Nat.ltb_spec (iv s) ns) as [Hlt | Hge]; try discriminate.
  - intros H; inversion H; subst. auto.
  - destruct (body' params b s g) as [[s1|e] g1] eqn:Hb; [|discriminate].
    apply IH. exact (reached_pass _ _ _ _ _ _ _ _ _ _ _ _ _ _ _ Hr Hlt Hb).
  - intros H; inversion H; subst. auto.
Qed.

(** The age saved for a star is the age of its own isochrone (lines 120 and
    133), not the age drawn from the burst.  In a run that returns, row [i]
    of the array ['age'] is the third entry of the triple [afa] that
    [get_isochrone] returned in the pass that accepted star [i]: the pass of
    this call made with [i] stars accepted whose mass was below the top of
    the track, for the age and the metallicity that pass drew.  Row [i] of
    ['phase'] is the phase of the same pass. *)
Theorem saved_age_is_isochrone_age (fuel : nat) (g0 g' : rng E) (out : synth) :
  generate' fuel g0 = Some (Ok out, g') ->
  exists b ages phases,
    burst_setup t_bursts = Ok b /\
    dget (s_data out) "age" = Some ages /\ length ages = ns /\
    dget (s_data out) "phase" = Some phases /\ length phases = ns /\
    forall i, (i < ns)%nat ->
              exists age feh c,
                accepting_pass E isogrid t_bursts ns feh_mean feh_disp IMF_alpha
                               rand_seed extra_giants
                               (get_gridparams E isogrid) b i age feh c /\
                nth_error ages i = Some (snd (c_afa c)) /\
                nth_error phases i = Some (c_phase c).
Proof.
  unfold generate_synth_stars.
  destruct (burst_setup t_bursts) as [b|]; [|discriminate].
  set (params := get_gridparams E isogrid).
  destruct (sample_loop' fuel params b (start ns params) (seed E rand_seed))
    as [[[s|] g1]|] eqn:Hloop; try discriminate.
  intros H. inversion H; subst; clear H. simpl.
  destruct (sample_loop_reached params b fuel _ _ _ _
              (reached_start _ _ _ _ _ _ _ _ _ _ _) Hloop) as [Hr Hge].
  destruct (reached_own_rows _ _ _ _ Hr)
    as [Hle (ages & phases & Hages & Hla & Hphases & Hlp & Hrows)].
  exists b, ages, phases. do 5 (split; [assumption || reflexivity|]).
  intros i Hi. apply Hrows. lia.
Qed.
End Generate_more.

(** ** Calls that never sample *)

Section Generate_edges.
Context (E : Env).
Variables (isogrid : grid E) (t_bursts : ndarray) (ns : nat)
          (feh_mean feh_disp : Q) (IMF_alpha : Q) (rand_seed : Z)
          (extra_giants : Q).

(** No star asked for (line 88).  With [ns = 0] and a burst array the
    set-up accepts, the loop is not entered: the function returns, however
    few passes it is allowed, with both counts 0 and an empty array for
    every grid parameter, the age and the phase; the grid is not queried and
    no random number is drawn, the generator being left as [rand_seed] set
    it. *)
Theorem no_stars_no_draws (fuel : nat) (g0 : rng E) (b : bursts) :
  ns = 0%nat -> burst_setup t_bursts = Ok b ->
  exists out,
    generate_synth_stars E isogrid t_bursts ns feh_mean feh_disp IMF_alpha
                         rand_seed extra_giants fuel g0
    = Some (Ok out, seed E rand_seed) /\
    n_valid out = 0%nat /\ n_discarded out = 0%nat /\
    forall k, In k (get_gridparams E isogrid ++ ["age"; "phase"]) ->
              dget (s_data out) k = Some [].
Proof.
  intros Hns Hb. unfold generate_synth_stars. rewrite Hb.
  assert (Hloop : forall s g,
             sample_loop E isogrid t_bursts ns feh_mean feh_disp IMF_alpha
                         extra_giants fuel (get_gridparams E isogrid) b s g
             = Some (Ok s, g)).
  { intros s g. destruct fuel; simpl;
      destruct (Nat.ltb_spec (iv s) ns); try lia; reflexivity. }
  rewrite Hloop. eexists. split; [reflexivity|].
  split; [reflexivity|]. split; [reflexivity|].
  intros k Hk. simpl. rewrite (dget_init_data ns _ k Hk).
  now rewrite Hns.
Qed.

(** A negative metallicity dispersion (line 96).  With [feh_disp < 0], at
    least one star asked for and a one-dimensional burst array of at least
    two entries, the first pass of the loop raises [ValueError] in
    [np.random.normal], after the one uniform number of the age has been
    drawn and before the grid is queried. *)
Theorem negative_dispersion_raises (fuel : nat) (g0 : rng E) (t0 t1 : Q) :
  feh_disp < 0 -> (0 < ns)%nat -> ndim t_bursts = 1%nat ->
  nth_error (flat t_bursts) 0 = Some t0 ->
  nth_error (flat t_bursts) 1 = Some t1 ->
  generate_synth_stars E isogrid t_bursts ns feh_mean feh_disp IMF_alpha
                       rand_seed extra_giants (S fuel) g0
  = Some (Raise ValueError, snd (rand E (seed E rand_seed))).
Proof.
  intros Hneg Hns Hdim H0 H1. unfold generate_synth_stars, burst_setup.
  rewrite Hdim. simpl Nat.eqb. cbv iota.
  cbn [sample_loop start iv].
  destruct (Nat.ltb_spec 0 ns) as [_|]; [|lia].
  unfold body, draw_candidate, draw_age, bind, lift, item, np_rand, np_normal, ret.
  rewrite H0, H1. cbn [of_option].
  destruct (rand E (seed E rand_seed)) as [u g1]. cbn [snd].
  assert (Hlt : Qlt_bool feh_disp 0 = true) by (now apply Qlt_bool_iff).
  rewrite Hlt. reflexivity.
Qed.
End Generate_edges.

Lemma no_stars_no_draws_witness :
  exists out,
    Demo.run 0 (1 # 2) 0 = Some (Ok out, true) /\
    dget (s_data out) "age" = Some [].
Proof.
  destruct (no_stars_no_draws Demo.world tt Demo.one_burst 0 0 (1 # 10) 2 1
                              (1 # 2) 0 false Single_burst eq_refl eq_refl)
    as (out & Hrun & _ & _ & Hdata).
  exists out. split; [exact Hrun|]. apply Hdata. simpl. auto.
Defined.

Lemma negative_dispersion_raises_witness :
  generate_synth_stars Demo.world tt Demo.one_burst 3 0 (- (1 # 10)) 2 1 (1 # 2)
                       4 false
  = Some (Raise ValueError, false).
Proof.
  apply (negative_dispersion_raises Demo.world tt Demo.one_burst 3 0 (- (1 # 10))
                                    2 1 (1 # 2) 3 false 1 10);
    [reflexivity | lia | reflexivity | reflexivity | reflexivity].
Defined.

(** ** The burst array *)

Lemma sum_scale_down (l : list Q) (c : Q) :
  sum (map (fun x => x / c) l) == sum l / c.
Proof.
  induction l as [|a l IH]; simpl.
  - unfold Qdiv. ring.
  - rewrite IH. unfold Qdiv. ring.
Qed.

Lemma sum_nonneg (l : list Q) : (forall x, In x l -> 0 <= x) -> 0 <= sum l.
Proof.
  induction l as [|a l IH]; simpl; intros H; [apply Qle_refl|].
  assert (0 <= a) by (apply H; now left).
  assert (0 <= sum l) by (apply IH; intros; apply H; now right).
  lra.
Qed.

Lemma firstn_1_skipn (l : list Q) (k : nat) :
  (k < length l)%nat -> firstn 1 (skipn k l) = [nth k l 0].
Proof.
  revert k. induction l as [|a l IH]; intros [|k] Hk; simpl in *; try lia.
  - reflexivity.
  - apply IH. lia.
Qed.

(** The weights of a two-dimensional burst array (lines 69-72 and 93).  For
    an array of [n0 >= 1] rows of [n1 >= 3] entries whose third column has
    no negative entry and a positive sum, the set-up keeps the third entry
    of every row divided by the sum of the column: [n_bursts] is [n0], no
    probability is negative, and [np.random.choice], which asks for
    probabilities that sum to 1 within [2**-26], accepts them. *)
Theorem burst_weights_normalised (t : ndarray) (n0 n1 : nat) :
  shape t = [n0; n1] -> (2 < n1)%nat -> length (flat t) = (n0 * n1)%nat ->
  let w := map (fun i => nth (i * n1 + 2) (flat t) 0) (seq 0 n0) in
  (0 < n0)%nat -> (forall x, In x w -> 0 <= x) -> 0 < sum w ->
  exists prob,
    burst_setup t = Ok (Multi_burst prob n0) /\
    shape prob = [n0] /\
    flat prob = map (fun x => x / sum w) w /\
    Forall (fun p => 0 <= p) (flat prob) /\
    choice_check n0 prob = Ok tt.
Proof.
  intros Hshape Hn1 Hlen w Hn0 Hpos HS.
  assert (Hcol : flat_map (fun i => firstn 1 (skipn ((i * n1 + 2) * 1) (flat t)))
                          (seq 0 n0) = w).
  { unfold w. rewrite flat_map_concat_map.
    assert (Hmap : map (fun i => firstn 1 (skipn ((i * n1 + 2) * 1) (flat t)))
                       (seq 0 n0)
                   = map (fun i => [nth (i * n1 + 2) (flat t) 0]) (seq 0 n0)).
    { apply map_ext_in. intros i Hi. apply in_seq in Hi.
      rewrite Nat.mul_1_r. apply firstn_1_skipn. rewrite Hlen. nia. }
    rewrite Hmap. clear. induction (seq 0 n0) as [|i l IH]; simpl; [reflexivity|].
    now rewrite IH. }
  assert (Hc : column t 2 = Ok {| shape := [n0]; flat := w |}).
  { unfold column. rewrite Hshape.
    destruct (Nat.ltb_spec 2 n1); [|lia].
    cbv zeta. cbn [fold_right]. rewrite Hcol. reflexivity. }
  assert (Hall : Forall (fun p => 0 <= p) (map (fun x => x / sum w) w)).
  { apply Forall_forall. intros y Hy. apply in_map_iff in Hy.
    destruct Hy as (x & <- & Hx).
    apply Qle_shift_div_l; [exact HS | specialize (Hpos x Hx); lra]. }
  eexists. split.
  { unfold burst_setup, ndim. rewrite Hshape. cbn [length Nat.eqb].
    rewrite Hc. reflexivity. }
  split; [reflexivity|]. split; [reflexivity|]. split; [exact Hall|].
  assert (Hl : length (map (fun x => x / sum w) w) = n0)
    by (unfold w; now rewrite !length_map, length_seq).
  assert (Hneg : existsb (fun x => Qlt_bool x 0) (map (fun x => x / sum w) w) = false).
  { destruct (existsb _ _) eqn:Hex; [|reflexivity].
    apply existsb_exists in Hex. destruct Hex as (y & Hy & Hlt).
    apply Qlt_bool_iff in Hlt. rewrite Forall_forall in Hall.
    specialize (Hall y Hy). lra. }
  assert (Hclose : Qlt_bool (1 # 67108864)
                            (Qabs (sum (map (fun x => x / sum w) w) - 1)) = false).
  { apply Qlt_bool_false.
    assert (Hquot : sum (map (fun x => x / sum w) w) == sum w / sum w)
      by apply sum_scale_down.
    assert (Hunit : sum w / sum w == 1)
      by (unfold Qdiv; apply Qmult_inv_r; lra).
    apply Qabs_case; intros _; rewrite Hquot, Hunit; intros H; discriminate H. }
  unfold choice_check, ndim, scale_down. cbn [shape flat length].
  destruct (Nat.eqb_spec n0 0) as [|_]; [lia|].
  rewrite Hl, !Nat.eqb_refl. cbn [negb]. rewrite Hneg, Hclose. reflexivity.
Qed.

Lemma single_burst_body_eq (E : Env) (isogrid : grid E) (t t' : ndarray) (ns : nat)
      (feh_mean feh_disp IMF_alpha extra_giants : Q) (params : list string)
      (s : sampler) (g : rng E) :
  nth_error (flat t) 0 = nth_error (flat t') 0 ->
  nth_error (flat t) 1 = nth_error (flat t') 1 ->
  body E isogrid t ns feh_mean feh_disp IMF_alpha extra_giants params Single_burst s g
  = body E isogrid t' ns feh_mean feh_disp IMF_alpha extra_giants params
         Single_burst s g.
Proof.
  intros H0 H1. unfold body, draw_candidate, draw_age, item.
  rewrite H0, H1. reflexivity.
Qed.

Lemma single_burst_loop_eq (E : Env) (isogrid : grid E) (t t' : ndarray) (ns : nat)
      (feh_mean feh_disp IMF_alpha extra_giants : Q) (params : list string)
      (fuel : nat) :
  nth_error (flat t) 0 = nth_error (flat t') 0 ->
  nth_error (flat t) 1 = nth_error (flat t') 1 ->
  forall s g,
    sample_loop E isogrid t ns feh_mean feh_disp IMF_alpha extra_giants fuel
                params Single_burst s g
    = sample_loop E isogrid t' ns feh_mean feh_disp IMF_alpha extra_giants fuel
                  params Single_burst s g.
Proof.
  intros H0 H1. induction fuel as [|fuel IH]; intros s g; simpl; [reflexivity|].
  destruct (iv s <? ns)%nat; [|reflexivity].
  rewrite (single_burst_body_eq E isogrid t t' ns feh_mean feh_disp IMF_alpha
                                extra_giants params s g H0 H1).
  destruct (body E isogrid t' ns feh_mean feh_disp IMF_alpha extra_giants params
                 Single_burst s g) as [[s1|e] g1]; [apply IH | reflexivity].
Qed.

(** A one-dimensional burst array is read for its first two entries only:
    the probability it may carry as third entry is ignored, as the
    docstring says.  Two such arrays with the same ends give the same
    stars, the same counts and the same generator state. *)
Theorem single_burst_weight_ignored
        (E : Env) (isogrid : grid E) (t t' : ndarray) (ns : nat)
        (feh_mean feh_disp IMF_alpha : Q) (rand_seed : Z) (extra_giants : Q)
        (fuel : nat) (g0 g' : rng E) (out : synth) :
  ndim t = 1%nat -> ndim t' = 1%nat ->
  nth_error (flat t) 0 = nth_error (flat t') 0 ->
  nth_error (flat t) 1 = nth_error (flat t') 1 ->
  generate_synth_stars E isogrid t ns feh_mean feh_disp IMF_alpha rand_seed
                       extra_giants fuel g0 = Some (Ok out, g') ->
  exists out',
    generate_synth_stars E isogrid t' ns feh_mean feh_disp IMF_alpha rand_seed
                         extra_giants fuel g0 = Some (Ok out', g') /\
    s_data out' = s_data out /\ n_valid out' = n_valid out /\
    n_discarded out' = n_discarded out.
Proof.
  intros Hd Hd' H0 H1. unfold generate_synth_stars, burst_setup.
  rewrite Hd, Hd'. simpl.
  rewrite (single_burst_loop_eq E isogrid t t' ns feh_mean feh_disp IMF_alpha
                                extra_giants _ fuel H0 H1).
  destruct (sample_loop E isogrid t' ns feh_mean feh_disp IMF_alpha extra_giants
                        fuel (get_gridparams E isogrid) Single_burst
                        (start ns (get_gridparams E isogrid)) (seed E rand_seed))
    as [[[s|e] g1]|]; try discriminate.
  intros H. inversion H; subst; clear H.
  eexists. split; [reflexivity|]. simpl. auto.
Qed.

(** * Properties of [gfunc2d.gstats] *)

Lemma fold_max_spec (x : list Q) :
  forall a,
    let m := fold_left (fun m b => if Qlt_bool m b then b else m) x a in
    (m = a \/ In m x) /\ a <= m /\ Forall (fun b => b <= m) x.
Proof.
  induction x as [|b x IH]; intros a; simpl.
  - split; [now left|]. split; [apply Qle_refl | constructor].
  - destruct (Qlt_bool a b) eqn:Hlt.
    + apply Qlt_bool_iff in Hlt.
      destruct (IH b) as (Hin & Hle & Hall).
      split; [destruct Hin as [-> | Hin]; auto|].
      split; [lra|]. constructor; assumption.
    + apply Qlt_bool_false in Hlt.
      destruct (IH a) as (Hin & Hle & Hall).
      split; [destruct Hin as [-> | Hin]; auto|].
      split; [exact Hle|]. constructor; [lra | exact Hall].
Qed.

(** [np.amax] returns an element that no element exceeds. *)
Lemma amax_spec (x : list Q) (m : Q) :
  amax x = Ok m -> In m x /\ Forall (fun b => b <= m) x.
Proof.
  destruct x as [|a x]; simpl; [discriminate|].
  intros H. inversion H; subst; clear H.
  destruct (fold_max_spec x a) as (Hin & Hle & Hall).
  split; [destruct Hin as [-> | Hin]; auto|].
  constructor; assumption.
Qed.

(** The normalisation of lines 34-42.  Any method but ['maxone'] raises
    [ValueError], and so does an array without elements.  For ['maxone'] on
    an array whose greatest element is positive the result has the shape of
    the array, no element above 1, and the value 1 where the greatest element
    stood. *)
Theorem norm_gfunc_maxone (g : ndarray) :
  (forall method, method <> "maxone" -> norm_gfunc g method = Raise ValueError) /\
  (flat g = [] -> norm_gfunc g "maxone" = Raise ValueError) /\
  (forall m, amax (flat g) = Ok m -> 0 < m ->
     exists gn,
       norm_gfunc g "maxone" = Ok gn /\ shape gn = shape g /\
       flat gn = map (fun x => x / m) (flat g) /\
       Forall (fun x => x <= 1) (flat gn) /\
       exists x, In x (flat gn) /\ x == 1).
Proof.
  split; [|split].
  - intros method Hm. unfold norm_gfunc.
    destruct (String.eqb_spec method "maxone"); [contradiction | reflexivity].
  - intros Hnil. unfold norm_gfunc. simpl. now rewrite Hnil.
  - intros m Hm Hpos. unfold norm_gfunc. simpl. rewrite Hm. simpl.
    destruct (amax_spec _ _ Hm) as [Hin Hall].
    eexists. split; [reflexivity|]. split; [reflexivity|]. split; [reflexivity|].
    simpl. split.
    + apply Forall_forall. intros y Hy. apply in_map_iff in Hy.
      destruct Hy as (x & <- & Hx). rewrite Forall_forall in Hall.
      apply Qle_shift_div_r; [exact Hpos|]. specialize (Hall x Hx). lra.
    + exists (m / m). split; [apply in_map_iff; eauto|].
      unfold Qdiv. apply Qmult_inv_r. lra.
Qed.

Lemma norm_gfunc_maxone_witness :
  exists gn, norm_gfunc (array1 [1; 4; 2]) "maxone" = Ok gn /\
             Forall (fun x => x <= 1) (flat gn).
Proof.
  destruct (proj2 (proj2 (norm_gfunc_maxone (array1 [1; 4; 2]))) 4 eq_refl eq_refl)
    as (gn & Hgn & _ & _ & Hall & _).
  exists gn. split; assumption.
Defined.

Lemma argmax_from_spec (x : list Q) :
  forall best besti i,
    exists v,
      ((argmax_from best besti i x = besti /\ v = best) \/
       (exists j, argmax_from best besti i x = (i + j)%nat /\
                  nth_error x j = Some v /\ best < v /\
                  forall j' a, (j' < j)%nat -> nth_error x j' = Some a -> a < v)) /\
      best <= v /\ Forall (fun a => a <= v) x.
Proof.
  induction x as [|a x IH]; intros best besti i; simpl.
  - exists best. split; [now left|]. split; [apply Qle_refl | constructor].
  - destruct (Qlt_bool best a) eqn:Hlt.
    + apply Qlt_bool_iff in Hlt.
      destruct (IH a i (S i)) as (v & Hv & Hle & Hall).
      exists v. split; [|split; [lra | constructor; assumption]].
      right. destruct Hv as [[Hr ->] | (j & Hr & Hj & Hav & Hearly)].
      * exists 0%nat. rewrite Nat.add_0_r.
        split; [exact Hr|]. split; [reflexivity|]. split; [exact Hlt|].
        intros j' b Hj'. lia.
      * exists (S j). rewrite Hr. split; [lia|]. split; [exact Hj|].
        split; [lra|].
        intros [|j'] b Hj' Hb; simpl in Hb.
        -- inversion Hb; subst. exact Hav.
        -- apply (Hearly j'); [lia | exact Hb].
    + apply Qlt_bool_false in Hlt.
      destruct (IH best besti (S i)) as (v & Hv & Hle & Hall).
      exists v. split; [|split; [exact Hle | constructor; [lra | exact Hall]]].
      destruct Hv as [[Hr ->] | (j & Hr & Hj & Hbv & Hearly)]; [now left | right].
      exists (S j). rewrite Hr. split; [lia|]. split; [exact Hj|].
      split; [exact Hbv|].
      intros [|j'] b Hj' Hb; simpl in Hb.
      * inversion Hb; subst. lra.
      * apply (Hearly j'); [lia | exact Hb].
Qed.

(** [np.argmax] returns the first position of a greatest element. *)
Lemma argmax_spec (x : list Q) (r : nat) :
  argmax x = Ok r ->
  exists v, nth_error x r = Some v /\ Forall (fun a => a <= v) x /\
            forall j a, (j < r)%nat -> nth_error x j = Some a -> a < v.
Proof.
  destruct x as [|a x]; simpl; [discriminate|].
  intros H. inversion H; subst; clear H.
  destruct (argmax_from_spec x a 0%nat 1%nat) as (v & Hv & Hle & Hall).
  exists v.
  destruct Hv as [[-> ->] | (j & -> & Hj & Hav & Hearly)].
  - split; [reflexivity|]. split; [constructor; assumption|].
    intros j b Hj. lia.
  - split; [exact Hj|]. split; [constructor; assumption|].
    intros [|j'] b Hj' Hb; simpl in Hb.
    + inversion Hb; subst. exact Hav.
    + apply (Hearly j'); [lia | exact Hb].
Qed.

(** The mode of lines 53-57 is the age at the first position where
    [g_age] is greatest: no value of [g_age] exceeds the one there, and
    every value before it is strictly smaller.  An empty [g_age] raises
    [ValueError], an age grid too short for the position [IndexError]. *)
Theorem age_mode_is_first_maximum (g_age : ndarray) (age_grid : list Q) :
  (flat g_age = [] -> gfunc_age_mode g_age age_grid = Raise ValueError) /\
  (forall ind, argmax (flat g_age) = Ok ind -> (length age_grid <= ind)%nat ->
               gfunc_age_mode g_age age_grid = Raise IndexError) /\
  (forall age_mode, gfunc_age_mode g_age age_grid = Ok age_mode ->
     exists ind v,
       nth_error age_grid ind = Some age_mode /\
       nth_error (flat g_age) ind = Some v /\
       Forall (fun a => a <= v) (flat g_age) /\
       forall j a, (j < ind)%nat -> nth_error (flat g_age) j = Some a -> a < v).
Proof.
  unfold gfunc_age_mode. split; [|split].
  - intros ->. reflexivity.
  - intros ind -> Hlen. simpl. unfold item.
    rewrite (proj2 (nth_error_None _ _) Hlen). reflexivity.
  - intros age_mode H.
    destruct (argmax (flat g_age)) as [ind|] eqn:Hind; simpl in H; [|discriminate].
    apply item_some in H.
    destruct (argmax_spec _ _ Hind) as (v & Hv & Hall & Hfirst).
    exists ind, v. auto.
Qed.

Lemma age_mode_is_first_maximum_witness :
  exists age_mode ind,
    gfunc_age_mode (array1 [1; 4; 4; 2]) [10; 20; 30; 40] = Ok age_mode /\
    nth_error [10; 20; 30; 40] ind = Some age_mode.
Proof.
  destruct (proj2 (proj2 (age_mode_is_first_maximum (array1 [1; 4; 4; 2])
                                                    [10; 20; 30; 40])) 20 eq_refl)
    as (ind & v & Hage & _).
  exists 20, ind. split; [reflexivity | exact Hage].
Defined.

Lemma last_item_map {A B} (f : A -> B) (l : list A) :
  last_item (map f l)
  = match last_item l with Ok i => Ok (f i) | Raise e => Raise e end.
Proof.
  unfold last_item. rewrite length_map, nth_error_map.
  destruct (nth_error l (length l - 1)); reflexivity.
Qed.

Lemma item_map {A B} (f : A -> B) (l : list A) (k : nat) :
  item (map f l) k
  = match item l k with Ok i => Ok (f i) | Raise e => Raise e end.
Proof.
  unfold item. rewrite nth_error_map.
  destruct (nth_error l k); reflexivity.
Qed.

(** The ends of the selection of lines 72-73, as positions of [g_age]. *)
Lemma above_limit_ends (g_age : ndarray) (age_grid : list Q) (glim lo hi : Q)
      (ages_lim : list Q) :
  above_limit g_age age_grid glim = Ok ages_lim ->
  item ages_lim 0 = Ok lo -> last_item ages_lim = Ok hi ->
  length (flat g_age) = length age_grid /\
  exists i_lo i_hi v_lo v_hi,
    nth_error age_grid i_lo = Some lo /\ nth_error age_grid i_hi = Some hi /\
    nth_error (flat g_age) i_lo = Some v_lo /\ glim < v_lo /\
    nth_error (flat g_age) i_hi = Some v_hi /\ glim < v_hi /\
    forall k v, nth_error (flat g_age) k = Some v -> glim < v ->
                (i_lo <= k)%nat /\ (k <= i_hi)%nat.
Proof.
  unfold above_limit.
  destruct (ndim g_age =? 1)%nat; simpl; [|discriminate].
  destruct (Nat.eqb_spec (length (flat g_age)) (length age_grid)) as [Hlen|];
    [|discriminate].
  intros H Hlo Hhi. inversion H; subst ages_lim; clear H.
  split; [exact Hlen|].
  set (idx := where_ (fun x => Qlt_bool glim x) (flat g_age)) in *.
  rewrite item_map in Hlo. rewrite last_item_map in Hhi.
  destruct (item idx 0) as [i_lo|] eqn:Hilo; [|discriminate].
  destruct (last_item idx) as [i_hi|] eqn:Hihi; [|discriminate].
  inversion Hlo; subst lo. inversion Hhi; subst hi.
  pose proof (where_from_sorted 0 (fun x => Qlt_bool glim x) (flat g_age)) as Hs.
  destruct (sorted_first_min _ _ Hs Hilo) as [Hin_lo Hmin].
  destruct (sorted_last_max _ _ Hs Hihi) as [Hin_hi Hmax].
  apply where_from_In in Hin_lo, Hin_hi.
  destruct Hin_lo as (_ & v_lo & Hv_lo & Hg_lo).
  destruct Hin_hi as (_ & v_hi & Hv_hi & Hg_hi).
  rewrite Nat.sub_0_r in Hv_lo, Hv_hi.
  apply Qlt_bool_iff in Hg_lo, Hg_hi.
  assert (Hnth : forall i v, nth_error (flat g_age) i = Some v ->
                             nth_error age_grid i = Some (nth i age_grid 0)).
  { intros i v Hi. apply nth_error_nth'. rewrite <- Hlen.
    apply nth_error_Some. congruence. }
  exists i_lo, i_hi, v_lo, v_hi.
  split; [eapply Hnth; eassumption|]. split; [eapply Hnth; eassumption|].
  do 4 (split; [assumption|]).
  intros k v Hk Hv.
  assert (Hink : In k idx).
  { apply where_from_In. split; [lia|]. exists v. rewrite Nat.sub_0_r.
    split; [exact Hk | now apply Qlt_bool_iff]. }
  split; [apply Hmin, Hink | apply Hmax, Hink].
Qed.

(** The confidence interval of lines 69-75.  Its two ends are the ages of
    the first and the last grid point whose [g_age] exceeds the limit
    [glim = conf_glim(conf_level)]; every grid point whose [g_age] exceeds
    the limit lies between these two positions, and, on an age grid that
    does not decrease, has an age inside the interval. *)
Theorem confidence_interval_brackets (conf_glim : Q -> result Q)
        (g_age : ndarray) (age_grid : list Q) (conf_level lo hi : Q) :
  gfunc_age_conf conf_glim g_age age_grid conf_level = Ok (lo, hi) ->
  exists glim i_lo i_hi v_lo v_hi,
    conf_glim conf_level = Ok glim /\
    nth_error age_grid i_lo = Some lo /\ nth_error age_grid i_hi = Some hi /\
    nth_error (flat g_age) i_lo = Some v_lo /\ glim < v_lo /\
    nth_error (flat g_age) i_hi = Some v_hi /\ glim < v_hi /\
    forall k v a, nth_error (flat g_age) k = Some v -> glim < v ->
                  nth_error age_grid k = Some a ->
                  (i_lo <= k <= i_hi)%nat /\
                  (nondecreasing age_grid -> lo <= a /\ a <= hi).
Proof.
  unfold gfunc_age_conf. intros H.
  destruct (conf_glim conf_level) as [glim|] eqn:Hglim; simpl in H; [|discriminate].
  destruct (above_limit g_age age_grid glim) as [ages_lim|] eqn:Hsel; simpl in H;
    [|discriminate].
  destruct (item ages_lim 0) as [lo'|] eqn:Hlo; simpl in H; [|discriminate].
  destruct (last_item ages_lim) as [hi'|] eqn:Hhi; simpl in H; [|discriminate].
  inversion H; subst lo' hi'; clear H.
  destruct (above_limit_ends _ _ _ _ _ _ Hsel Hlo Hhi)
    as (_ & i_lo & i_hi & v_lo & v_hi & Hal & Hah & Hvl & Hgl & Hvh & Hgh & Hbetween).
  exists glim, i_lo, i_hi, v_lo, v_hi.
  do 7 (split; [reflexivity || assumption|]).
  intros k v a Hk Hv Ha. destruct (Hbetween k v Hk Hv) as [H1 H2].
  split; [lia|]. intros Hmono. split.
  - exact (Hmono _ _ _ _ H1 Hal Ha).
  - exact (Hmono _ _ _ _ H2 Ha Hah).
Qed.

Lemma confidence_interval_brackets_witness :
  gfunc_age_conf (fun _ => Ok (6 # 10)) (array1 [1 # 4; 1; 3 # 4; 1 # 2])
                 [10; 20; 30; 40] (68 # 100) = Ok (20, 30) /\
  exists glim i_lo i_hi,
    glim = 6 # 10 /\ nth_error [10; 20; 30; 40] i_lo = Some 20 /\
    nth_error [10; 20; 30; 40] i_hi = Some 30.
Proof.
  assert (H : gfunc_age_conf (fun _ => Ok (6 # 10)) (array1 [1 # 4; 1; 3 # 4; 1 # 2])
                             [10; 20; 30; 40] (68 # 100) = Ok (20, 30))
    by reflexivity.
  split; [exact H|].
  destruct (confidence_interval_brackets _ _ _ _ _ _ H)
    as (glim & i_lo & i_hi & v_lo & v_hi & Hg & Hl & Hh & _).
  exists glim, i_lo, i_hi. split; [congruence|]. split; assumption.
Defined.

(** A one-dimensional G function with a positive maximum, normalised by
    ['maxone'], and a limit below 1: the mode and the confidence interval
    both exist, and on an age grid that does not decrease the mode lies
    inside the interval. *)
Lemma normalised_mode_in_interval (conf_glim : Q -> result Q)
        (g0 g_age : ndarray) (age_grid : list Q) (conf_level glim m : Q) :
  norm_gfunc g0 "maxone" = Ok g_age ->
  amax (flat g0) = Ok m -> 0 < m ->
  ndim g0 = 1%nat -> length (flat g0) = length age_grid ->
  conf_glim conf_level = Ok glim -> glim < 1 ->
  exists age_mode lo hi,
    gfunc_age_mode g_age age_grid = Ok age_mode /\
    gfunc_age_conf conf_glim g_age age_grid conf_level = Ok (lo, hi) /\
    (nondecreasing age_grid -> lo <= age_mode /\ age_mode <= hi).
Proof.
  intros Hnorm Hm Hpos Hdim Hlen Hglim Hlt.
  unfold norm_gfunc in Hnorm. simpl in Hnorm. rewrite Hm in Hnorm. simpl in Hnorm.
  inversion Hnorm; subst g_age; clear Hnorm.
  destruct (amax_spec _ _ Hm) as [Hmin _].
  set (g_age := scale_down g0 m).
  assert (Hflat : flat g_age = map (fun x => x / m) (flat g0)) by reflexivity.
  assert (Hx1 : In (m / m) (flat g_age)) by (rewrite Hflat; apply in_map_iff; eauto).
  assert (Hone : m / m == 1) by (unfold Qdiv; apply Qmult_inv_r; lra).
  assert (Hlen' : length (flat g_age) = length age_grid)
    by (rewrite Hflat, length_map; exact Hlen).
  destruct (argmax (flat g_age)) as [ind|] eqn:Hind;
    [|destruct (flat g_age); [destruct Hx1 | discriminate]].
  destruct (argmax_spec _ _ Hind) as (v & Hv & Hall & _).
  assert (Hv1 : glim < v).
  { rewrite Forall_forall in Hall. specialize (Hall _ Hx1). lra. }
  assert (Hi : (ind < length age_grid)%nat)
    by (rewrite <- Hlen'; apply nth_error_Some; congruence).
  assert (Hmode : gfunc_age_mode g_age age_grid = Ok (nth ind age_grid 0)).
  { unfold gfunc_age_mode. rewrite Hind. simpl. unfold item.
    now rewrite (nth_error_nth' _ 0 Hi). }
  assert (Hsel : above_limit g_age age_grid glim
                 = Ok (map (fun i => nth i age_grid 0)
                           (where_ (fun x => Qlt_bool glim x) (flat g_age)))).
  { unfold above_limit. change (ndim g_age) with (ndim g0).
    rewrite Hdim, Hlen', !Nat.eqb_refl. reflexivity. }
  set (idx := where_ (fun x => Qlt_bool glim x) (flat g_age)) in *.
  assert (Hin : In ind idx).
  { apply where_from_In. split; [lia|]. exists v. rewrite Nat.sub_0_r.
    split; [exact Hv | now apply Qlt_bool_iff]. }
  assert (Hidx : idx <> []) by (intros Hnil; rewrite Hnil in Hin; destruct Hin).
  destruct (last_item_ok idx Hidx) as [i_hi Hhi].
  assert (Hlo : exists i_lo, item idx 0 = Ok i_lo)
    by (destruct idx as [|i0 r]; [congruence | exists i0; reflexivity]).
  destruct Hlo as [i_lo Hlo].
  assert (Hlo' : item (map (fun i => nth i age_grid 0) idx) 0
                 = Ok (nth i_lo age_grid 0)) by (now rewrite item_map, Hlo).
  assert (Hhi' : last_item (map (fun i => nth i age_grid 0) idx)
                 = Ok (nth i_hi age_grid 0)) by (now rewrite last_item_map, Hhi).
  exists (nth ind age_grid 0), (nth i_lo age_grid 0), (nth i_hi age_grid 0).
  split; [exact Hmode|]. split.
  { unfold gfunc_age_conf. rewrite Hglim. simpl. rewrite Hsel. simpl.
    rewrite Hlo'. simpl. rewrite Hhi'. reflexivity. }
  intros Hmono.
  destruct (above_limit_ends _ _ _ _ _ _ Hsel Hlo' Hhi')
    as (_ & j_lo & j_hi & v_lo & v_hi & Hal & Hah & _ & _ & _ & _ & Hbetween).
  destruct (Hbetween ind v Hv Hv1) as [H1 H2].
  pose proof (nth_error_nth' age_grid 0 Hi) as Hage.
  split.
  - exact (Hmono _ _ _ _ H1 Hal Hage).
  - exact (Hmono _ _ _ _ H2 Hage Hah).
Qed.

(** * Properties of [smooth_gfunc2d] and [gfunc_age] *)

Lemma nth_map_seq {A} (f : nat -> A) (n s k : nat) (d : A) :
  (k < n)%nat -> nth k (map f (seq s n)) d = f (s + k)%nat.
Proof.
  intros Hk.
  rewrite (nth_indep _ d (f O)) by (rewrite length_map, length_seq; exact Hk).
  rewrite (map_nth f (seq s n) O k).
  now rewrite seq_nth.
Qed.

Lemma all_ok_map {A B} (f : A -> result B) (h : A -> B) (l : list A) :
  (forall x, In x l -> f x = Ok (h x)) -> all_ok (map f l) = Ok (map h l).
Proof.
  induction l as [|a l IH]; intros H; simpl; [reflexivity|].
  rewrite (H a (or_introl eq_refl)). simpl.
  rewrite IH by (intros x Hx; apply H; now right). reflexivity.
Qed.

Lemma flat_map_uniform_length {A} (f : nat -> list A) (m n s : nat) :
  (forall t, (s <= t < s + n)%nat -> length (f t) = m) ->
  length (flat_map f (seq s n)) = (n * m)%nat.
Proof.
  revert s. induction n as [|n IH]; intros s H; simpl; [reflexivity|].
  rewrite length_app, (H s) by lia. rewrite IH; [reflexivity|].
  intros t Ht. apply H. lia.
Qed.

Lemma nth_flat_map_uniform {A} (f : nat -> list A) (m : nat) (d : A) :
  forall n s i j,
    (i < n)%nat -> (j < m)%nat ->
    (forall t, (s <= t < s + n)%nat -> length (f t) = m) ->
    nth (i * m + j) (flat_map f (seq s n)) d = nth j (f (s + i)%nat) d.
Proof.
  induction n as [|n IH]; intros s i j Hi Hj H; [lia|].
  simpl. destruct i as [|i].
  - rewrite app_nth1 by (rewrite (H s) by lia; simpl; lia).
    simpl. now rewrite Nat.add_0_r.
  - rewrite app_nth2 by (rewrite (H s) by lia; simpl; lia).
    rewrite (H s) by lia.
    replace (S i * m + j - m)%nat with (i * m + j)%nat by (simpl; lia).
    rewrite IH; [|lia | exact Hj | intros t Ht; apply H; lia].
    f_equal. f_equal. lia.
Qed.

Lemma flat_map_singleton {A B} (h : A -> B) (l : list A) :
  flat_map (fun x => [h x]) l = map h l.
Proof.
  induction l as [|a l IH]; simpl; [reflexivity | now rewrite IH].
Qed.

Lemma nth_firstn_skipn (l : list Q) (a w j : nat) :
  (j < w)%nat -> nth j (firstn w (skipn a l)) 0 = nth (a + j) l 0.
Proof.
  intros Hj. rewrite nth_firstn.
  destruct (Nat.ltb_spec j w) as [_|]; [|lia].
  now rewrite nth_skipn.
Qed.

(** *** One line *)

Lemma convolve_same_kernel (a : list Q) :
  a <> [] -> convolve_same a kernel = Ok (smoothed_line a).
Proof.
  destruct a as [|x a]; [congruence|]. reflexivity.
Qed.

Lemma smoothed_line_length (a : list Q) :
  length (smoothed_line a) = Nat.max (length a) 3.
Proof.
  unfold smoothed_line. now rewrite length_map, length_seq.
Qed.

Lemma smoothed_line_nth (a : list Q) (k : nat) :
  (3 <= length a)%nat -> (k < length a)%nat ->
  nth k (smoothed_line a) 0 == three_point (entry a) (Z.of_nat k).
Proof.
  intros Hn Hk. unfold smoothed_line.
  rewrite nth_map_seq by lia.
  replace (Nat.min (length a) 3) with 3%nat by lia.
  change (3 - 1 - 3 / 2)%nat with 1%nat. simpl (0 + k)%nat.
  unfold conv_at, kernel, three_point, entry. cbn [length seq map sum fold_right nth].
  destruct (Nat.leb_spec 0 (k + 1)) as [_|]; [|lia].
  destruct (Nat.leb_spec 1 (k + 1)) as [_|]; [|lia].
  replace (k + 1 - 0)%nat with (S k) by lia.
  replace (k + 1 - 1)%nat with k by lia.
  assert (Hmid : ((0 <=? Z.of_nat k) && (Z.of_nat k <? Z.of_nat (length a)))%Z%bool
                 = true).
  { apply andb_true_iff. split; [apply Z.leb_le | apply Z.ltb_lt]; lia. }
  rewrite Hmid, Nat2Z.id.
  assert (Hup : (if ((0 <=? Z.of_nat k + 1) && (Z.of_nat k + 1 <? Z.of_nat (length a)))%Z%bool
                 then nth (Z.to_nat (Z.of_nat k + 1)) a 0 else 0) = nth (S k) a 0).
  { replace (Z.of_nat k + 1)%Z with (Z.of_nat (S k)) by lia.
    destruct (Z.ltb_spec (Z.of_nat (S k)) (Z.of_nat (length a))) as [Hlt | Hge].
    - assert (H0 : (0 <=? Z.of_nat (S k))%Z = true) by (apply Z.leb_le; lia).
      rewrite H0. simpl andb. now rewrite Nat2Z.id.
    - rewrite andb_false_r. symmetry. apply nth_overflow. lia. }
  rewrite Hup.
  destruct k as [|k].
  - destruct (Nat.leb_spec 2 (0 + 1)) as [|_]; [lia|].
    change (Z.of_nat 0 - 1)%Z with (-1)%Z. simpl (0 <=? -1)%Z. simpl andb.
    cbv iota. ring.
  - destruct (Nat.leb_spec 2 (S k + 1)) as [_|]; [|lia].
    replace (S k + 1 - 2)%nat with k by lia.
    replace (Z.of_nat (S k) - 1)%Z with (Z.of_nat k) by lia.
    assert (Hlo : ((0 <=? Z.of_nat k) && (Z.of_nat k <? Z.of_nat (length a)))%Z%bool
                  = true).
    { apply andb_true_iff. split; [apply Z.leb_le | apply Z.ltb_lt]; lia. }
    rewrite Hlo, Nat2Z.id. ring.
Qed.

(** *** Along an axis *)

Lemma lines_of_length (w n : nat) (block : list Q) :
  length (lines_of w n block) = w.
Proof.
  unfold lines_of. now rewrite length_map, length_seq.
Qed.

Lemma lines_of_In (w n : nat) (block l : list Q) :
  In l (lines_of w n block) -> length l = n.
Proof.
  unfold lines_of. intros H. apply in_map_iff in H. destruct H as (c & <- & _).
  now rewrite length_map, length_seq.
Qed.

Lemma block_of_length (n' : nat) (lines : list (list Q)) :
  length (block_of n' lines) = (n' * length lines)%nat.
Proof.
  unfold block_of. apply flat_map_uniform_length.
  intros t _. now rewrite length_map.
Qed.

Lemma block_of_nth (n' : nat) (lines : list (list Q)) (i c : nat) :
  (i < n')%nat -> (c < length lines)%nat ->
  nth (i * length lines + c) (block_of n' lines) 0 = nth i (nth c lines []) 0.
Proof.
  intros Hi Hc. unfold block_of.
  rewrite (nth_flat_map_uniform _ (length lines) 0 n' 0 i c Hi Hc)
    by (intros t _; now rewrite length_map).
  simpl (0 + i)%nat.
  rewrite (nth_indep _ 0 (nth i [] 0)) by (now rewrite length_map).
  now rewrite (map_nth (fun l => nth i l 0) lines [] c).
Qed.

(** The smoothing of the lines of a block of at least one row and one
    column. *)
Lemma along_first_smooth (w n : nat) (block : list Q) :
  (0 < w)%nat -> (0 < n)%nat ->
  along_first (fun x => convolve_same x kernel) w n block
  = Ok (Nat.max n 3, block_of (Nat.max n 3) (map smoothed_line (lines_of w n block))).
Proof.
  intros Hw Hn. unfold along_first.
  rewrite (all_ok_map _ smoothed_line).
  2:{ intros l Hl. apply convolve_same_kernel. apply lines_of_In in Hl.
      intros ->. simpl in Hl. lia. }
  simpl rbind.
  destruct (map smoothed_line (lines_of w n block)) as [|r0 rs] eqn:Hres.
  { apply (f_equal (@length _)) in Hres. rewrite length_map, lines_of_length in Hres.
    simpl in Hres. lia. }
  assert (Hall : forall r, In r (r0 :: rs) -> length r = Nat.max n 3).
  { intros r Hr. rewrite <- Hres in Hr. apply in_map_iff in Hr.
    destruct Hr as (l & <- & Hl). rewrite smoothed_line_length.
    now rewrite (lines_of_In _ _ _ _ Hl). }
  assert (H0 : length r0 = Nat.max n 3) by (apply Hall; now left).
  assert (Hcheck : forallb (fun r => (length r =? length r0)%nat) rs = true).
  { apply forallb_forall. intros r Hr. apply Nat.eqb_eq.
    rewrite H0. apply Hall. now right. }
  rewrite Hcheck, H0. reflexivity.
Qed.

Lemma all_ok_raises {A B} (f : A -> result B) (e0 : exn) (l : list A) (e : exn) :
  (forall x e', f x = Raise e' -> e' = e0) ->
  all_ok (map f l) = Raise e -> e = e0.
Proof.
  intros Hf. induction l as [|a l IH]; simpl; [discriminate|].
  destruct (f a) as [y|e'] eqn:Ha; simpl.
  - destruct (all_ok (map f l)) as [ys|e'']; simpl; [discriminate|].
    intros H. inversion H; subst. now apply IH.
  - intros H. inversion H; subst. exact (Hf _ _ Ha).
Qed.

Lemma convolve_same_raises (a v : list Q) (e : exn) :
  convolve_same a v = Raise e -> e = ValueError.
Proof.
  unfold convolve_same. destruct a, v; intros H; now inversion H.
Qed.

Lemma along_first_raises (w n : nat) (block : list Q) (e : exn) :
  along_first (fun x => convolve_same x kernel) w n block = Raise e ->
  e = ValueError.
Proof.
  unfold along_first.
  destruct (all_ok (map (fun x => convolve_same x kernel) (lines_of w n block)))
    as [res|e'] eqn:Hres; simpl.
  - destruct res as [|r0 rs]; [intros H; now inversion H|].
    destruct (forallb _ rs); intros H; now inversion H.
  - intros H. inversion H; subst.
    apply (all_ok_raises _ ValueError _ _ (fun x => convolve_same_raises x kernel) Hres).
Qed.

(** A block without rows or without columns cannot be smoothed. *)
Lemma along_first_empty (w n : nat) (block : list Q) :
  (w = 0 \/ n = 0)%nat ->
  along_first (fun x => convolve_same x kernel) w n block = Raise ValueError.
Proof.
  intros H.
  destruct (along_first (fun x => convolve_same x kernel) w n block)
    as [[n' out]|e] eqn:Hrun; [|now rewrite (along_first_raises _ _ _ _ Hrun)].
  exfalso. unfold along_first in Hrun.
  destruct w as [|w]; [simpl in Hrun; discriminate|].
  destruct H as [H | ->]; [discriminate|].
  unfold lines_of in Hrun. simpl in Hrun. discriminate.
Qed.

Lemma flat_map_map {A B C} (f : A -> B) (h : B -> list C) (l : list A) :
  flat_map h (map f l) = flat_map (fun x => h (f x)) l.
Proof.
  induction l as [|a l IH]; simpl; [reflexivity | now rewrite IH].
Qed.

Lemma apply_along_axis0_smooth (g : ndarray) (n0 n1 : nat) :
  shape g = [n0; n1] -> (0 < n0)%nat -> (0 < n1)%nat ->
  apply_along_axis0 (fun x => convolve_same x kernel) g
  = Ok {| shape := [Nat.max n0 3; n1];
          flat := block_of (Nat.max n0 3)
                           (map smoothed_line (lines_of n1 n0 (flat g))) |}.
Proof.
  intros Hs H0 H1. unfold apply_along_axis0. rewrite Hs.
  cbn [fold_right]. rewrite Nat.mul_1_r.
  now rewrite along_first_smooth.
Qed.

Lemma lines_of_row (n1 i : nat) (x : list Q) :
  lines_of 1 n1 (firstn (n1 * 1) (skipn (i * (n1 * 1)) x)) = [row_of n1 x i].
Proof.
  unfold lines_of, row_of. cbn [seq map]. f_equal.
  apply map_ext_in. intros j Hj. apply in_seq in Hj.
  rewrite nth_firstn_skipn by lia. f_equal. lia.
Qed.

Lemma block_of_one_line (l : list Q) :
  block_of (length l) [l] = l.
Proof.
  unfold block_of. cbn [map]. rewrite flat_map_singleton.
  apply nth_ext with (d := 0) (d' := 0).
  - now rewrite length_map, length_seq.
  - intros k Hk. rewrite length_map, length_seq in Hk.
    now rewrite nth_map_seq.
Qed.

Lemma apply_along_axis1_smooth (g : ndarray) (n0 n1 : nat) :
  shape g = [n0; n1] -> (0 < n0)%nat -> (0 < n1)%nat ->
  apply_along_axis1 (fun x => convolve_same x kernel) g
  = Ok {| shape := [n0; Nat.max n1 3];
          flat := flat_map (fun i => smoothed_line (row_of n1 (flat g) i))
                           (seq 0 n0) |}.
Proof.
  intros Hs H0 H1. unfold apply_along_axis1. rewrite Hs. cbn [fold_right].
  rewrite (all_ok_map _ (fun i => (Nat.max n1 3,
                                   smoothed_line (row_of n1 (flat g) i)))).
  2:{ intros i _. rewrite along_first_smooth by lia.
      rewrite lines_of_row. cbn [map].
      assert (Hl : length (smoothed_line (row_of n1 (flat g) i)) = Nat.max n1 3).
      { rewrite smoothed_line_length. unfold row_of.
        now rewrite length_map, length_seq. }
      replace (block_of (Nat.max n1 3) [smoothed_line (row_of n1 (flat g) i)])
        with (smoothed_line (row_of n1 (flat g) i)); [reflexivity|].
      rewrite <- Hl. symmetry. apply block_of_one_line. }
  simpl rbind.
  destruct n0 as [|n0]; [lia|]. cbn [seq map].
  assert (Hcheck : forallb (fun b : nat * list Q => (fst b =? Nat.max n1 3)%nat)
                     ((Nat.max n1 3, smoothed_line (row_of n1 (flat g) 0))
                        :: map (fun i => (Nat.max n1 3,
                                          smoothed_line (row_of n1 (flat g) i)))
                               (seq 1 n0)) = true).
  { apply forallb_forall. intros b [<- | Hb]; [apply Nat.eqb_refl|].
    apply in_map_iff in Hb. destruct Hb as (i & <- & _). apply Nat.eqb_refl. }
  rewrite Hcheck. cbn [flat_map snd]. now rewrite flat_map_map.
Qed.

(** *** The array *)

Lemma pixel_inside (g : ndarray) (n0 n1 : nat) (i j : Z) :
  shape g = [n0; n1] ->
  (0 <= i < Z.of_nat n0)%Z -> (0 <= j < Z.of_nat n1)%Z ->
  pixel g i j = nth (Z.to_nat i * n1 + Z.to_nat j) (flat g) 0.
Proof.
  intros Hs Hi Hj. unfold pixel. rewrite Hs.
  destruct (Z.leb_spec 0 i); [|lia]. destruct (Z.ltb_spec i (Z.of_nat n0)); [|lia].
  destruct (Z.leb_spec 0 j); [|lia]. destruct (Z.ltb_spec j (Z.of_nat n1)); [|lia].
  reflexivity.
Qed.

Lemma pixel_outside (g : ndarray) (n0 n1 : nat) (i j : Z) :
  shape g = [n0; n1] ->
  ~ ((0 <= i < Z.of_nat n0)%Z /\ (0 <= j < Z.of_nat n1)%Z) ->
  pixel g i j = 0.
Proof.
  intros Hs Hout. unfold pixel. rewrite Hs.
  destruct (Z.leb_spec 0 i); [|reflexivity].
  destruct (Z.ltb_spec i (Z.of_nat n0)); [|reflexivity].
  destruct (Z.leb_spec 0 j); [|reflexivity].
  destruct (Z.ltb_spec j (Z.of_nat n1)); [|reflexivity].
  exfalso. apply Hout. lia.
Qed.

Lemma entry_line (g : ndarray) (n0 n1 c : nat) (z : Z) :
  shape g = [n0; n1] -> (c < n1)%nat ->
  entry (map (fun i => nth (i * n1 + c) (flat g) 0) (seq 0 n0)) z
  = pixel g z (Z.of_nat c).
Proof.
  intros Hs Hc. unfold entry. rewrite length_map, length_seq.
  destruct (Z.leb_spec 0 z) as [H0|H0];
    [|simpl andb; symmetry; apply (pixel_outside g n0 n1); [exact Hs | lia]].
  destruct (Z.ltb_spec z (Z.of_nat n0)) as [H1|H1];
    [|simpl andb; symmetry; apply (pixel_outside g n0 n1); [exact Hs | lia]].
  simpl andb. cbv iota.
  rewrite (pixel_inside g n0 n1) by (try exact Hs; lia).
  rewrite nth_map_seq by lia. now rewrite Nat2Z.id.
Qed.

Lemma entry_row (g : ndarray) (n0 n1 i : nat) (z : Z) :
  shape g = [n0; n1] -> (i < n0)%nat ->
  entry (row_of n1 (flat g) i) z = pixel g (Z.of_nat i) z.
Proof.
  intros Hs Hi. unfold entry, row_of. rewrite length_map, length_seq.
  destruct (Z.leb_spec 0 z) as [H0|H0];
    [|simpl andb; symmetry; apply (pixel_outside g n0 n1); [exact Hs | lia]].
  destruct (Z.ltb_spec z (Z.of_nat n1)) as [H1|H1];
    [|simpl andb; symmetry; apply (pixel_outside g n0 n1); [exact Hs | lia]].
  simpl andb. cbv iota.
  rewrite (pixel_inside g n0 n1) by (try exact Hs; lia).
  rewrite nth_map_seq by lia. now rewrite Nat2Z.id.
Qed.

Lemma three_point_ext (x y : Z -> Q) (k : Z) :
  (forall z, x z == y z) -> three_point x k == three_point y k.
Proof.
  intros H. unfold three_point. now rewrite !H.
Qed.

Lemma three_point_zero (x : Z -> Q) (k : Z) :
  (forall z, x z = 0) -> three_point x k == 0.
Proof.
  intros H. unfold three_point. rewrite !H. ring.
Qed.

(** The smoothing along the first axis, entry by entry. *)
Lemma smooth_axis0_pixel (g : ndarray) (n0 n1 : nat) (i j : Z) :
  shape g = [n0; n1] -> (3 <= n0)%nat ->
  (0 <= i < Z.of_nat n0)%Z ->
  pixel {| shape := [n0; n1];
           flat := block_of n0 (map smoothed_line (lines_of n1 n0 (flat g))) |} i j
  == three_point (fun i' => pixel g i' j) i.
Proof.
  intros Hs Hn Hi.
  destruct (Z.leb_spec 0 j) as [Hj0|Hj0]; [destruct (Z.ltb_spec j (Z.of_nat n1)) as [Hj1|Hj1]|].
  - rewrite (pixel_inside _ n0 n1) by (try reflexivity; lia).
    cbn [flat].
    set (lines := map smoothed_line (lines_of n1 n0 (flat g))).
    assert (Hlen : length lines = n1)
      by (unfold lines; now rewrite length_map, lines_of_length).
    rewrite <- Hlen at 1.
    rewrite block_of_nth by lia.
    unfold lines.
    rewrite (nth_indep _ [] (smoothed_line []))
      by (rewrite length_map, lines_of_length; lia).
    rewrite (map_nth smoothed_line).
    unfold lines_of. rewrite nth_map_seq by lia. simpl (0 + Z.to_nat j)%nat.
    rewrite smoothed_line_nth by (rewrite length_map, length_seq; lia).
    rewrite Z2Nat.id by lia.
    apply three_point_ext. intros z.
    rewrite (entry_line g n0 n1) by (try exact Hs; lia).
    now rewrite Z2Nat.id by lia.
  - rewrite (pixel_outside _ n0 n1) by (try reflexivity; lia).
    symmetry. apply three_point_zero. intros z.
    apply (pixel_outside g n0 n1); [exact Hs | lia].
  - rewrite (pixel_outside _ n0 n1) by (try reflexivity; lia).
    symmetry. apply three_point_zero. intros z.
    apply (pixel_outside g n0 n1); [exact Hs | lia].
Qed.

(** The smoothing along the second axis, entry by entry. *)
Lemma smooth_axis1_pixel (g : ndarray) (n0 n1 : nat) (i j : Z) :
  shape g = [n0; n1] -> (3 <= n1)%nat ->
  (0 <= j < Z.of_nat n1)%Z ->
  pixel {| shape := [n0; n1];
           flat := flat_map (fun i => smoothed_line (row_of n1 (flat g) i))
                            (seq 0 n0) |} i j
  == three_point (fun j' => pixel g i j') j.
Proof.
  intros Hs Hn Hj.
  assert (Hrow : forall t, length (smoothed_line (row_of n1 (flat g) t)) = n1).
  { intros t. rewrite smoothed_line_length. unfold row_of.
    rewrite length_map, length_seq. lia. }
  destruct (Z.leb_spec 0 i) as [Hi0|Hi0]; [destruct (Z.ltb_spec i (Z.of_nat n0)) as [Hi1|Hi1]|].
  - rewrite (pixel_inside _ n0 n1) by (try reflexivity; lia).
    cbn [flat].
    rewrite (nth_flat_map_uniform _ n1 0 n0 0) by (try lia; intros t _; apply Hrow).
    simpl (0 + Z.to_nat i)%nat.
    rewrite smoothed_line_nth
      by (unfold row_of; rewrite length_map, length_seq; lia).
    rewrite Z2Nat.id by lia.
    apply three_point_ext. intros z.
    rewrite (entry_row g n0 n1) by (try exact Hs; lia).
    now rewrite Z2Nat.id by lia.
  - rewrite (pixel_outside _ n0 n1) by (try reflexivity; lia).
    symmetry. apply three_point_zero. intros z.
    apply (pixel_outside g n0 n1); [exact Hs | lia].
  - rewrite (pixel_outside _ n0 n1) by (try reflexivity; lia).
    symmetry. apply three_point_zero. intros z.
    apply (pixel_outside g n0 n1); [exact Hs | lia].
Qed.

(** The shape of a smoothed G function (lines 26-32).  An array of fewer
    than two axes, or a two-dimensional one without rows or without columns,
    raises [ValueError].  A two-dimensional array of [n0 >= 1] rows and
    [n1 >= 1] columns comes back with [max(n0, 3)] rows and [max(n1, 3)]
    columns: [np.convolve] in mode ['same'] returns as many values as the
    longer of its arguments, so an axis shorter than the kernel grows to the
    kernel's three points. *)
Theorem smooth_gfunc2d_shape (g : ndarray) :
  ((ndim g < 2)%nat -> smooth_gfunc2d g = Raise ValueError) /\
  (forall n0 n1, shape g = [n0; n1] -> (n0 = 0 \/ n1 = 0)%nat ->
                 smooth_gfunc2d g = Raise ValueError) /\
  (forall n0 n1, shape g = [n0; n1] -> (0 < n0)%nat -> (0 < n1)%nat ->
     exists g2,
       smooth_gfunc2d g = Ok g2 /\
       shape g2 = [Nat.max n0 3; Nat.max n1 3] /\
       length (flat g2) = (Nat.max n0 3 * Nat.max n1 3)%nat).
Proof.
  split; [|split].
  - unfold ndim, smooth_gfunc2d, apply_along_axis0. intros Hd.
    destruct (shape g) as [|n0 [|n1 rest]] eqn:Hs; [reflexivity | | simpl in Hd; lia].
    destruct (along_first _ _ n0 (flat g)) as [[n' out]|e] eqn:Hrun; simpl.
    + reflexivity.
    + now rewrite (along_first_raises _ _ _ _ Hrun).
  - intros n0 n1 Hs Hz. unfold smooth_gfunc2d, apply_along_axis0. rewrite Hs.
    cbn [fold_right]. rewrite along_first_empty by lia. reflexivity.
  - intros n0 n1 Hs H0 H1. unfold smooth_gfunc2d.
    rewrite (apply_along_axis0_smooth g n0 n1 Hs H0 H1). simpl rbind.
    rewrite (apply_along_axis1_smooth _ (Nat.max n0 3) n1) by (try reflexivity; lia).
    eexists. split; [reflexivity|]. split; [reflexivity|].
    cbn [flat]. apply flat_map_uniform_length.
    intros t _. rewrite smoothed_line_length. unfold row_of.
    now rewrite length_map, length_seq.
Qed.

Lemma smooth_gfunc2d_shape_witness :
  exists g2,
    smooth_gfunc2d {| shape := [1; 2]%nat; flat := [4; 8] |} = Ok g2 /\
    shape g2 = [3; 3]%nat /\ length (flat g2) = 9%nat.
Proof.
  destruct (proj2 (proj2 (smooth_gfunc2d_shape
                            {| shape := [1; 2]%nat; flat := [4; 8] |}))
              1%nat 2%nat eq_refl (Nat.lt_0_succ 0) (Nat.lt_0_succ 1))
    as (g2 & Hrun & Hs & Hl).
  exists g2. split; [exact Hrun|]. split; [exact Hs | exact Hl].
Defined.

(** The smoothing of lines 26-32, entry by entry.  On a two-dimensional
    array of at least three rows and three columns the shape is kept, and
    every entry of the result is the three-point average, with weights
    1/4, 1/2, 1/4, along the second axis of the three-point averages along
    the first axis, entries outside the array counting as 0.  The two passes
    are kept apart, as the program makes them: first down the columns, then
    along the rows of what the first pass returned. *)
Theorem smooth_gfunc2d_stencil (g g2 : ndarray) (n0 n1 : nat) (i j : Z) :
  shape g = [n0; n1] -> (3 <= n0)%nat -> (3 <= n1)%nat ->
  smooth_gfunc2d g = Ok g2 ->
  (0 <= i < Z.of_nat n0)%Z -> (0 <= j < Z.of_nat n1)%Z ->
  shape g2 = [n0; n1] /\
  pixel g2 i j
  == three_point (fun j' => three_point (fun i' => pixel g i' j') i) j.
Proof.
  intros Hs Hn0 Hn1 Hrun Hi Hj. unfold smooth_gfunc2d in Hrun.
  rewrite (apply_along_axis0_smooth g n0 n1 Hs) in Hrun by lia.
  simpl rbind in Hrun.
  replace (Nat.max n0 3) with n0 in Hrun by lia.
  rewrite (apply_along_axis1_smooth _ n0 n1) in Hrun by (try reflexivity; lia).
  replace (Nat.max n1 3) with n1 in Hrun by lia.
  inversion Hrun; subst g2; clear Hrun.
  split; [reflexivity|].
  assert (Hsep : pixel {| shape := [n0; n1];
                          flat := flat_map
                                    (fun i0 => smoothed_line
                                       (row_of n1
                                          (flat {| shape := [n0; n1];
                                                   flat := block_of n0
                                                     (map smoothed_line
                                                        (lines_of n1 n0 (flat g))) |})
                                          i0))
                                    (seq 0 n0) |} i j
                 == three_point (fun j' => three_point (fun i' => pixel g i' j') i) j).
  { rewrite (smooth_axis1_pixel _ n0 n1) by (try reflexivity; lia).
    apply three_point_ext. intros z.
    apply (smooth_axis0_pixel g n0 n1); [exact Hs | lia | lia]. }
  exact Hsep.
Qed.

Lemma smooth_gfunc2d_stencil_witness :
  exists g2,
    smooth_gfunc2d {| shape := [3; 3]%nat; flat := [0; 0; 0; 0; 16; 0; 0; 0; 0] |}
    = Ok g2 /\
    shape g2 = [3; 3]%nat /\ pixel g2 1 1 == 4 /\ pixel g2 0 1 == 2 /\
    pixel g2 0 0 == 1.
Proof.
  pose (g := {| shape := [3; 3]%nat; flat := [0; 0; 0; 0; 16; 0; 0; 0; 0] |}).
  change (exists g2, smooth_gfunc2d g = Ok g2 /\
                     shape g2 = [3; 3]%nat /\ pixel g2 1 1 == 4 /\
                     pixel g2 0 1 == 2 /\ pixel g2 0 0 == 1).
  destruct (smooth_gfunc2d g) as [g2|e] eqn:Hrun; [|vm_compute in Hrun; discriminate].
  exists g2. split; [reflexivity|].
  assert (H3 : (3 <= 3)%nat) by lia.
  destruct (smooth_gfunc2d_stencil g g2 3 3 1 1 eq_refl H3 H3 Hrun)
    as (Hs & H11); [simpl; lia | simpl; lia |].
  destruct (smooth_gfunc2d_stencil g g2 3 3 0 1 eq_refl H3 H3 Hrun)
    as (_ & H01); [simpl; lia | simpl; lia |].
  destruct (smooth_gfunc2d_stencil g g2 3 3 0 0 eq_refl H3 H3 Hrun)
    as (_ & H00); [simpl; lia | simpl; lia |].
  split; [exact Hs|].
  split; [rewrite H11; vm_compute; reflexivity|].
  split; [rewrite H01; vm_compute; reflexivity|].
  rewrite H00; vm_compute; reflexivity.
Defined.

(** * The marginal over the second axis *)

Lemma row_of_chunk (n1 : nat) (x : list Q) (i : nat) :
  (i * n1 + n1 <= length x)%nat ->
  row_of n1 x i = firstn n1 (skipn (i * n1) x).
Proof.
  intros Hlen. unfold row_of.
  apply nth_ext with (d := 0) (d' := 0).
  - rewrite length_map, length_seq, length_firstn, length_skipn. lia.
  - intros j Hj. rewrite length_map, length_seq in Hj.
    rewrite nth_map_seq by exact Hj. now rewrite nth_firstn_skipn.
Qed.

Lemma sum_bounds_entries (l : list Q) :
  (forall x, In x l -> 0 <= x) -> forall x, In x l -> x <= sum l.
Proof.
  induction l as [|a l IH]; simpl; intros Hpos x Hin; [contradiction|].
  assert (Ha : 0 <= a) by (apply Hpos; now left).
  assert (Hl : 0 <= sum l) by (apply sum_nonneg; intros; apply Hpos; now right).
  destruct Hin as [<- | Hin].
  - lra.
  - assert (x <= sum l) by (apply IH; [intros; apply Hpos; now right | exact Hin]).
    lra.
Qed.

Lemma sum_axis1_2d (g : ndarray) (n0 n1 : nat) :
  shape g = [n0; n1] ->
  sum_axis1 g
  = Ok {| shape := [n0];
          flat := map (fun i => sum (row_of n1 (flat g) i)) (seq 0 n0) |}.
Proof.
  intros Hs. unfold sum_axis1. rewrite Hs. cbn [fold_right seq map].
  rewrite flat_map_singleton. f_equal. f_equal.
  apply map_ext. intros i. unfold row_of. f_equal.
  apply map_ext. intros j. f_equal. lia.
Qed.

(** The marginal G function of lines 45-50.  An array of fewer than two
    axes has no axis 1 to sum over.  For a two-dimensional array of [n0] rows
    of [n1] entries, the result without normalisation is the array of the
    [n0] row sums; when no entry of the array is negative, no entry of a row
    exceeds the sum of its row.  With normalisation the result is
    [norm_gfunc] of the array of row sums. *)
Theorem gfunc_age_marginal (g : ndarray) (norm_method : string) :
  ((ndim g < 2)%nat ->
   forall norm, gfunc_age g norm norm_method = Raise ValueError) /\
  (forall n0 n1, shape g = [n0; n1] -> length (flat g) = (n0 * n1)%nat ->
     exists g_age,
       gfunc_age g false norm_method = Ok g_age /\
       shape g_age = [n0] /\ length (flat g_age) = n0 /\
       (forall i, (i < n0)%nat ->
          nth i (flat g_age) 0 = sum (firstn n1 (skipn (i * n1) (flat g)))) /\
       ((forall x, In x (flat g) -> 0 <= x) ->
        forall i j, (i < n0)%nat -> (j < n1)%nat ->
                    nth (i * n1 + j) (flat g) 0 <= nth i (flat g_age) 0) /\
       gfunc_age g true norm_method = norm_gfunc g_age norm_method).
Proof.
  split.
  - unfold ndim, gfunc_age, sum_axis1. intros Hd norm.
    destruct (shape g) as [|n0 [|n1 rest]]; [reflexivity | reflexivity|].
    simpl in Hd. lia.
  - intros n0 n1 Hs Hlen. unfold gfunc_age.
    rewrite (sum_axis1_2d g n0 n1 Hs). simpl rbind.
    eexists. split; [reflexivity|]. cbn [shape flat].
    assert (Hrows : forall i, (i < n0)%nat ->
                      row_of n1 (flat g) i = firstn n1 (skipn (i * n1) (flat g))).
    { intros i Hi. apply row_of_chunk. rewrite Hlen. nia. }
    split; [reflexivity|]. split; [now rewrite length_map, length_seq|].
    split; [|split; [|reflexivity]].
    + intros i Hi. rewrite nth_map_seq by exact Hi. simpl (0 + i)%nat.
      now rewrite Hrows.
    + intros Hpos i j Hi Hj. rewrite nth_map_seq by exact Hi. simpl (0 + i)%nat.
      assert (Hin : In (nth (i * n1 + j) (flat g) 0) (row_of n1 (flat g) i)).
      { unfold row_of. apply in_map_iff. exists j. split; [reflexivity|].
        apply in_seq. lia. }
      apply sum_bounds_entries; [|exact Hin].
      intros x Hx. unfold row_of in Hx. apply in_map_iff in Hx.
      destruct Hx as (k & <- & Hk). apply in_seq in Hk.
      apply Hpos. apply nth_In. rewrite Hlen. nia.
Qed.

Lemma gfunc_age_marginal_witness :
  exists g_age,
    gfunc_age {| shape := [2; 3]%nat; flat := [1; 2; 3; 4; 5; 6] |} false "maxone"
    = Ok g_age /\
    shape g_age = [2%nat] /\
    nth 0 (flat g_age) 0 = sum [1; 2; 3] /\ nth 1 (flat g_age) 0 = sum [4; 5; 6] /\
    6 <= nth 1 (flat g_age) 0.
Proof.
  destruct (proj2 (gfunc_age_marginal
                     {| shape := [2; 3]%nat; flat := [1; 2; 3; 4; 5; 6] |} "maxone")
              2%nat 3%nat eq_refl eq_refl)
    as (g_age & Hrun & Hs & _ & Hrow & Hle & _).
  exists g_age. split; [exact Hrun|]. split; [exact Hs|].
  split; [exact (Hrow 0%nat (Nat.lt_0_succ 1))|].
  split; [exact (Hrow 1%nat (Nat.lt_succ_diag_r 1))|].
  apply (Hle (fun x Hx => ltac:(simpl in Hx; decompose [or] Hx; subst;
                                  solve [discriminate | contradiction]))
             1%nat 2%nat (Nat.lt_succ_diag_r 1) (Nat.lt_succ_diag_r 2)).
Defined.

(** The script's last steps together (lines 81-83).  For a
    two-dimensional G function with one row per point of the age grid whose
    marginal over the second axis has a positive entry, and a limit
    [conf_glim(conf_level)] below 1: the normalised marginal, its mode and
    its confidence interval all exist, and on an age grid that does not
    decrease the mode lies inside the interval. *)
Theorem mode_inside_confidence_interval (conf_glim : Q -> result Q)
        (g g_sum : ndarray) (age_grid : list Q) (n1 : nat)
        (conf_level glim x : Q) :
  shape g = [length age_grid; n1] ->
  gfunc_age g false "maxone" = Ok g_sum -> In x (flat g_sum) -> 0 < x ->
  conf_glim conf_level = Ok glim -> glim < 1 ->
  exists g_age age_mode lo hi,
    gfunc_age g true "maxone" = Ok g_age /\
    gfunc_age_mode g_age age_grid = Ok age_mode /\
    gfunc_age_conf conf_glim g_age age_grid conf_level = Ok (lo, hi) /\
    (nondecreasing age_grid -> lo <= age_mode /\ age_mode <= hi).
Proof.
  intros Hs Hsum Hx Hpos Hglim Hlt. unfold gfunc_age in *.
  rewrite (sum_axis1_2d g _ n1 Hs) in *. simpl rbind in *.
  inversion Hsum; subst g_sum; clear Hsum.
  set (g0 := {| shape := [length age_grid];
                flat := map (fun i => sum (row_of n1 (flat g) i))
                            (seq 0 (length age_grid)) |}) in *.
  destruct (amax (flat g0)) as [m|e] eqn:Hm;
    [|destruct (flat g0); [destruct Hx | discriminate]].
  destruct (amax_spec _ _ Hm) as [_ Hall].
  assert (Hmpos : 0 < m).
  { rewrite Forall_forall in Hall. specialize (Hall _ Hx). lra. }
  assert (Hnorm : norm_gfunc g0 "maxone" = Ok (scale_down g0 m)).
  { unfold norm_gfunc. rewrite String.eqb_refl, Hm. reflexivity. }
  destruct (normalised_mode_in_interval
              conf_glim g0 (scale_down g0 m) age_grid conf_level glim m
              Hnorm Hm Hmpos eq_refl) as (age_mode & lo & hi & H1 & H2 & H3);
    [unfold g0; cbn [flat]; now rewrite length_map, length_seq
    | exact Hglim | exact Hlt |].
  exists (scale_down g0 m), age_mode, lo, hi.
  split; [exact Hnorm|]. split; [exact H1|]. split; [exact H2 | exact H3].
Qed.

Lemma mode_inside_confidence_interval_witness :
  exists g_age age_mode lo hi,
    gfunc_age {| shape := [4; 2]%nat; flat := [1; 0; 2; 2; 1; 2; 1; 1] |}
              true "maxone" = Ok g_age /\
    gfunc_age_mode g_age [10; 20; 30; 40] = Ok age_mode /\
    gfunc_age_conf (fun _ => Ok (6 # 10)) g_age [10; 20; 30; 40] (68 # 100)
    = Ok (lo, hi).
Proof.
  pose (g := {| shape := [4; 2]%nat; flat := [1; 0; 2; 2; 1; 2; 1; 1] |}).
  destruct (gfunc_age g false "maxone") as [g_sum|e] eqn:Hsum;
    [|vm_compute in Hsum; discriminate].
  assert (Hin : In 4 (flat g_sum)).
  { pose proof Hsum as Hval. vm_compute in Hval. injection Hval as <-.
    simpl. right. left. reflexivity. }
  destruct (mode_inside_confidence_interval
              (fun _ => Ok (6 # 10)) g g_sum [10; 20; 30; 40] 2 (68 # 100) (6 # 10) 4
              eq_refl Hsum Hin eq_refl eq_refl eq_refl)
    as (g_age & age_mode & lo & hi & H1 & H2 & H3 & _).
  exists g_age, age_mode, lo, hi. split; [exact H1|]. split; [exact H2 | exact H3].
Defined.


(** * The further properties on the demonstration sample *)

Lemma demo_keys_nodup : NoDup (keys [("logT", 0); ("J", 0); ("plx", 0)]).
Proof.
  repeat constructor; simpl; intuition discriminate.
Defined.

Lemma missing_parameter_fails_witness :
  In "logg" (keys [("logg", 1 # 10)]) /\
  dget (s_data Demo.sample) "logg" = None /\
  make_synth_obs Demo.world Demo.sample [("logg", 1 # 10)] SN true
  = (Raise KeyError, true).
Proof.
  assert (H1 : In "logg" (keys [("logg", 1 # 10)])) by (simpl; auto).
  split; [exact H1|]. split; [reflexivity|].
  apply (missing_parameter_fails Demo.world Demo.sample [("logg", 1 # 10)] SN
                                 "logg" true).
  - left. reflexivity.
  - exact H1.
  - discriminate.
  - reflexivity.
Defined.

Lemma negative_sigma_rejected_witness :
  exists o g',
    make_synth_obs Demo.world Demo.sample [("logT", 1 # 10)] SN true = (Ok o, g') /\
    0 <= 1 # 10.
Proof.
  destruct (make_synth_obs Demo.world Demo.sample [("logT", 1 # 10)] SN true)
    as [[o|e] g'] eqn:Hrun; [|vm_compute in Hrun; discriminate].
  exists o, g'. split; [reflexivity|].
  apply (negative_sigma_rejected Demo.world Demo.sample [("logT", 1 # 10)] SN
                                 true g' o "logT" (1 # 10) Hrun);
    [simpl; auto | reflexivity | reflexivity].
Defined.

Lemma apparent_magnitude_formula_witness :
  exists o g' app,
    make_synth_obs Demo.world Demo.sample [("logT", 0); ("J", 0); ("plx", 0)]
                   (Constant 10) true = (Ok o, g') /\
    dget (app_mags_true o) "J" = Some app /\ length app = 2%nat.
Proof.
  destruct (make_synth_obs Demo.world Demo.sample
                           [("logT", 0); ("J", 0); ("plx", 0)] (Constant 10) true)
    as [[o|e] g'] eqn:Hrun; [|vm_compute in Hrun; discriminate].
  destruct (apparent_magnitude_formula
              Demo.world Demo.sample [("logT", 0); ("J", 0); ("plx", 0)]
              (Constant 10) true g' o "J" demo_sample_rows Hrun)
    as (plx_true & abs_mag & app & _ & _ & Happ & _ & Hl & _);
    [simpl; auto 10 | simpl; auto |].
  exists o, g', app. split; [reflexivity|]. split; [exact Happ | exact Hl].
Defined.

Lemma table_columns_interleaved_witness :
  exists o g',
    make_synth_obs Demo.world Demo.sample [("logT", 0); ("J", 0); ("plx", 0)]
                   (Constant 10) true = (Ok o, g') /\
    map fst (frame o) = ["logT"; "logT_unc"; "J"; "J_unc"; "plx"; "plx_unc"].
Proof.
  destruct (make_synth_obs Demo.world Demo.sample
                           [("logT", 0); ("J", 0); ("plx", 0)] (Constant 10) true)
    as [[o|e] g'] eqn:Hrun; [|vm_compute in Hrun; discriminate].
  exists o, g'. split; [reflexivity|].
  exact (table_columns_interleaved
           Demo.world Demo.sample [("logT", 0); ("J", 0); ("plx", 0)]
           (Constant 10) true g' o Hrun).
Defined.

Lemma uncertainty_column_is_sigma_witness :
  exists o g' unc,
    make_synth_obs Demo.world Demo.sample [("logT", 0); ("J", 0); ("plx", 0)]
                   (Constant 10) true = (Ok o, g') /\
    dget (frame o) "J_unc" = Some unc /\ length unc = 2%nat /\
    Forall (fun x => x == 0) unc.
Proof.
  destruct (make_synth_obs Demo.world Demo.sample
                           [("logT", 0); ("J", 0); ("plx", 0)] (Constant 10) true)
    as [[o|e] g'] eqn:Hrun; [|vm_compute in Hrun; discriminate].
  destruct (uncertainty_column_is_sigma
              Demo.world Demo.sample [("logT", 0); ("J", 0); ("plx", 0)]
              (Constant 10) true g' o "J" 0 demo_keys_nodup Hrun eq_refl eq_refl)
    as (unc & Hu & Hl & Hall).
  exists o, g', unc. split; [reflexivity|]. repeat split; assumption.
Defined.

Lemma table_has_ns_rows_witness :
  exists o g' col,
    make_synth_obs Demo.world Demo.sample [("logT", 0); ("J", 0); ("plx", 0)]
                   (Constant 10) true = (Ok o, g') /\
    In ("J", col) (frame o) /\ length col = 2%nat.
Proof.
  destruct (make_synth_obs Demo.world Demo.sample
                           [("logT", 0); ("J", 0); ("plx", 0)] (Constant 10) true)
    as [[o|e] g'] eqn:Hrun; [|vm_compute in Hrun; discriminate].
  assert (Hcol : exists col, In ("J", col) (frame o)).
  { pose proof Hrun as Hval. vm_compute in Hval.
    injection Hval as Ho _. rewrite <- Ho. eexists. simpl. right. right. left.
    reflexivity. }
  destruct Hcol as [col Hcol].
  exists o, g', col. split; [reflexivity|]. split; [exact Hcol|].
  exact (table_has_ns_rows
           Demo.world Demo.sample [("logT", 0); ("J", 0); ("plx", 0)]
           (Constant 10) true g' o "J" col demo_sample_rows demo_keys_nodup
           Hrun Hcol).
Defined.

Lemma least_mass_policy_witness :
  exists m_min ph mini,
    min_mass Demo.world 3 (1 # 2) Demo.track 0 2 0 = Ok (m_min, ph) /\
    dget Demo.track "Mini" = Some mini /\ ph = 0.
Proof.
  destruct (min_mass Demo.world 3 (1 # 2) Demo.track 0 2 0)
    as [[m_min ph]|e] eqn:Hrun; [|vm_compute in Hrun; discriminate].
  destruct (least_mass_policy Demo.world 3 (1 # 2) Demo.track 0 2 0 m_min ph Hrun)
    as (mini & Hm & Hord & _).
  exists m_min, ph, mini. split; [reflexivity|]. split; [exact Hm|].
  apply Hord. reflexivity.
Defined.

Lemma passes_are_counted_witness :
  exists out g',
    Demo.run 3 (1 # 2) 10 = Some (Ok out, g') /\
    n_valid out = 3%nat /\ (3 + n_discarded out <= 10)%nat.
Proof.
  destruct (Demo.run 3 (1 # 2) 10) as [[[out|e] g']|] eqn:Hrun;
    [|vm_compute in Hrun; discriminate..].
  destruct (passes_are_counted Demo.world tt Demo.one_burst 3 0 (1 # 10) 2 1
                               (1 # 2) 10 false g' out Hrun) as (Hn & Hle & _).
  exists out, g'. split; [reflexivity|]. split; assumption.
Defined.

Lemma unit_exponent_raises_witness :
  exists e g',
    generate_synth_stars Demo.world tt Demo.one_burst 3 0 (1 # 10) 1 1 (1 # 2)
                         6 false = Some (Raise e, g').
Proof.
  apply (unit_exponent_raises Demo.world tt Demo.one_burst 3 0 (1 # 10) 1 1
                              (1 # 2) 5 false); [reflexivity | lia].
Defined.

Lemma drawn_age_in_burst_witness :
  exists prob age g',
    burst_setup Demo.two_bursts = Ok (Multi_burst prob 2) /\
    np_choice Demo.world 2 prob false = (Ok 1%nat, true) /\
    draw_age Demo.world Demo.two_bursts (Multi_burst prob 2) false
    = (Ok age, g') /\
    age = 5 + (10 - 5) * (2 # 5) /\ g' = false /\
    5 <= age /\ age <= 5 + (10 - 5) * 1.
Proof.
  destruct (burst_setup Demo.two_bursts) as [[|prob n]|e] eqn:Hset;
    try (vm_compute in Hset; discriminate).
  assert (Hn : n = 2%nat) by (vm_compute in Hset; congruence). subst n.
  destruct (draw_age Demo.world Demo.two_bursts (Multi_burst prob 2) false)
    as [[age|e] g'] eqn:Hrun;
    [|vm_compute in Hset; injection Hset as <-; vm_compute in Hrun; discriminate].
  destruct (drawn_age_in_burst Demo.world Demo.two_bursts (Multi_burst prob 2)
                               false g' age)
    as (t_low & t_high & g1 & (i & Hi & Hlo & Hhi) & Hage & Hg & Hin).
  - intros [|]; split; vm_compute; discriminate.
  - exact Hrun.
  - assert (Hpick : np_choice Demo.world 2 prob false = (Ok 1%nat, true))
      by (vm_compute in Hset; injection Hset as <-; reflexivity).
    rewrite Hpick in Hi. injection Hi as <- <-.
    vm_compute in Hlo, Hhi. injection Hlo as <-. injection Hhi as <-.
    exists prob, age, g'. split; [reflexivity|]. split; [exact Hpick|].
    split; [exact Hrun|]. split; [exact Hage|]. split; [exact Hg|].
    apply Hin. vm_compute. discriminate.
Defined.

Lemma saved_age_is_isochrone_age_witness :
  exists out g' b ages,
    generate_synth_stars Demo.coarse_world tt Demo.one_burst 3 0 (1 # 10) 2 1
                         (1 # 2) 10 false = Some (Ok out, g') /\
    dget (s_data out) "age" = Some ages /\ ages = [4; 4; 4] /\
    forall i, (i < 3)%nat ->
              exists age feh c,
                accepting_pass Demo.coarse_world tt Demo.one_burst 3 0 (1 # 10) 2
                               1 (1 # 2) Demo.params b i age feh c /\
                nth_error ages i = Some (inject_Z (Qfloor age)).
Proof.
  destruct (generate_synth_stars Demo.coarse_world tt Demo.one_burst 3 0 (1 # 10)
                                 2 1 (1 # 2) 10 false)
    as [[[out|e] g']|] eqn:Hrun; [|vm_compute in Hrun; discriminate..].
  destruct (saved_age_is_isochrone_age Demo.coarse_world tt Demo.one_burst 3 0
                                       (1 # 10) 2 1 (1 # 2) 10 false g' out Hrun)
    as (b & ages & phases & _ & Hages & _ & _ & _ & Hrows).
  exists out, g', b, ages. split; [reflexivity|]. split; [exact Hages|]. split.
  - vm_compute in Hrun. injection Hrun as <- _. vm_compute in Hages. congruence.
  - intros i Hi. destruct (Hrows i Hi) as (age & feh & c & Hpass & Hrow & _).
    exists age, feh, c. split; [exact Hpass|].
    destruct Hpass as (s & g & g1 & g2 & g3 & _ & _ & _ & _ & Hgrid & _).
    simpl in Hgrid. injection Hgrid as _ Hafa. rewrite <- Hafa in Hrow.
    exact Hrow.
Defined.

Lemma burst_weights_normalised_witness :
  exists prob,
    burst_setup {| shape := [2; 3]%nat; flat := [1; 5; 1; 5; 10; 3] |}
    = Ok (Multi_burst prob 2) /\
    flat prob = [1 / (1 + (3 + 0)); 3 / (1 + (3 + 0))] /\
    choice_check 2 prob = Ok tt.
Proof.
  destruct (burst_weights_normalised
              {| shape := [2; 3]%nat; flat := [1; 5; 1; 5; 10; 3] |} 2 3
              eq_refl (Nat.lt_succ_diag_r 2) eq_refl (Nat.lt_0_succ 1))
    as (prob & Hset & _ & Hflat & _ & Hchoice).
  - intros x [<- | [<- | []]]; intros H; discriminate H.
  - reflexivity.
  - exists prob. split; [exact Hset|]. split; [exact Hflat | exact Hchoice].
Defined.

Lemma single_burst_weight_ignored_witness :
  exists out out' g',
    Demo.run 3 (1 # 2) 10 = Some (Ok out, g') /\
    generate_synth_stars Demo.world tt (array1 [1; 10]) 3 0 (1 # 10) 2 1 (1 # 2)
                         10 false = Some (Ok out', g') /\
    s_data out' = s_data out.
Proof.
  destruct (Demo.run 3 (1 # 2) 10) as [[[out|e] g']|] eqn:Hrun;
    [|vm_compute in Hrun; discriminate..].
  destruct (single_burst_weight_ignored
              Demo.world tt Demo.one_burst (array1 [1; 10]) 3 0 (1 # 10) 2 1
              (1 # 2) 10 false g' out eq_refl eq_refl eq_refl eq_refl Hrun)
    as (out' & Hrun' & Hd & _).
  exists out, out', g'. split; [reflexivity|]. split; assumption.
Defined.
